(** * Journal RAG: indexing and retrieval pipeline

    A shallow embedding of the semantic-search pipeline of md-rag-mcp:

    - [TextSplitter]: the text splitter that [split_docs] instantiates
      ([RecursiveCharacterTextSplitter] of langchain_text_splitters);
    - [RagSearch]: [code/scripts/rag_search.py] (loading, chunking, indexing);
    - [JournalRag]: [code/mcp/journal_rag_mcp.py] (watermark, incremental
      update of the index);
    - [Legacy]: [.tech/code/python_legacy/mcp/journal_rag_mcp.py] (the
      retriever with context expansion and the [query_journal] tool);
    - [Server], [JournalRagTools], [LegacyTools]: the start-up, the plain
      query and the [tools/call] branch of [main] of the two servers.

    Python values are modelled by the data the code inspects: dictionaries
    are finite maps and [int] is [Z].  A [str] on which the code computes
    (a document body, a chunk, a query: they are stripped, measured and
    cut) is a sequence of Unicode code points, [str]; a [str] that is
    only compared and concatenated (keys, paths, ids, metadata values,
    messages) is a [string].  Calls that leave the process (embedding
    model, vector store, file system, clock) are explicit: their outcome is
    part of the state they are run in, and every call is logged. *)

From Stdlib Require Import ZArith Ascii String List Lia.
From stdpp Require Import base decidable option list gmap strings pretty sorting.

Local Open Scope string_scope.
Local Open Scope list_scope.
Local Open Scope Z_scope.

(** ** Python values *)

Module Py.

(** Outcome of a Python call: a value, or a raised exception carrying the
    text [str(e)]. *)
Inductive Res (A : Type) : Type :=
  | Val (a : A)
  | Raise (e : string).
Global Arguments Val {A} a.
Global Arguments Raise {A} e.

(** The scalars of front matter and of Chroma metadata: strings and
    integers.  Floats and booleans are outside this model: a front matter
    that holds one is not among the documents that the theorems below
    speak about. *)
Inductive scalar : Type :=
  | SStr (s : string)
  | SInt (z : Z).

Global Instance scalar_eq_dec : EqDecision scalar.
Proof. solve_decision. Defined.

Definition scalar_to_sum (v : scalar) : string + Z :=
  match v with SStr s => inl s | SInt z => inr z end.
Definition scalar_of_sum (v : string + Z) : scalar :=
  match v with inl s => SStr s | inr z => SInt z end.

Global Instance scalar_countable : Countable scalar.
Proof.
  apply (inj_countable' scalar_to_sum scalar_of_sum).
  intros []; reflexivity.
Defined.

(** A frontmatter value: a scalar, or any other YAML value (date, list,
    null, ...) of which only the rendering [str(value)] matters. *)
Inductive value : Type :=
  | VScalar (v : scalar)
  | VOther (repr : string).

Global Instance value_eq_dec : EqDecision value.
Proof. solve_decision. Defined.

(** [str(v)], as produced by an f-string. *)
Definition str_scalar (v : scalar) : string :=
  match v with SStr s => s | SInt z => pretty z end.

Definition str_value (v : value) : string :=
  match v with VScalar s => str_scalar s | VOther r => r end.

(** A character of a Python [str] is a Unicode code point; [len] counts
    code points and [s[i:j]] cuts between them. *)
Definition char : Type := N.
Abbreviation str := (list char).

(** The [str] of an ASCII literal of the source. *)
Definition literal (s : string) : str := N_of_ascii <$> list_ascii_of_string s.

(** [c.isspace()], the white space of [str.strip()]: the table of
    [_PyUnicode_IsWhitespace] (U+0009..U+000D, U+001C..U+0020, U+0085,
    U+00A0, U+1680, U+2000..U+200A, U+2028, U+2029, U+202F, U+205F,
    U+3000). *)
Definition isspace (c : char) : bool :=
  (((9 <=? c) && (c <=? 13)) || ((28 <=? c) && (c <=? 32)) ||
   (c =? 133) || (c =? 160) || (c =? 5760) ||
   ((8192 <=? c) && (c <=? 8202)) ||
   (c =? 8232) || (c =? 8233) || (c =? 8239) || (c =? 8287) || (c =? 12288))%N.

Fixpoint lstrip (s : str) : str :=
  match s with
  | c :: rest => if isspace c then lstrip rest else s
  | [] => []
  end.

(** [s.strip()]: white space is cut at the left and at the right. *)
Definition strip_chars (s : str) : str :=
  reverse (lstrip (reverse (lstrip s))).

Definition strip (s : str) : str := strip_chars s.

(** [s.endswith(suffix)], for file names. *)
Definition endswith (s suffix : string) : bool :=
  bool_decide (list_ascii_of_string suffix `suffix_of` list_ascii_of_string s).

(** [l[:n]] for an integer [n], negative bounds counting from the end. *)
Definition slice_to {A} (n : Z) (l : list A) : list A :=
  if 0 <=? n then take (Z.to_nat n) l
  else take (length l - Z.to_nat (- n))%nat l.

(** [len(l)] as a Python integer. *)
Definition len {A} (l : list A) : Z := Z.of_nat (length l).

End Py.
Export Py.

(** Metadata dictionaries. *)
Abbreviation Metadata := (gmap string scalar).
Abbreviation Frontmatter := (gmap string value).

(** ** The text splitter

    [split_docs] builds a [RecursiveCharacterTextSplitter] with the default
    separators and [keep_separator=True], [strip_whitespace=True].  The
    functions below follow [langchain_text_splitters/character.py] and
    [base.py]; the length function is [len]. *)

Module TextSplitter.

Abbreviation text := str.

Section Splitter.
Variables (chunk_size chunk_overlap : Z).

(** [re.search(re.escape(separator), text)] for a literal separator. *)
Fixpoint contains (separator s : text) : bool :=
  bool_decide (separator `prefix_of` s) ||
  match s with
  | [] => false
  | _ :: rest => contains separator rest
  end.

(** [re.split(re.escape(separator), text)] for a non-empty literal
    separator: the pieces between the leftmost non-overlapping
    occurrences. [skip] counts the characters of a matched separator that
    are still to be consumed, [cur] is the current piece, reversed. *)
Fixpoint re_split (separator : text) (skip : nat) (cur s : text) : list text :=
  match s with
  | [] => [reverse cur]
  | c :: rest =>
      match skip with
      | S k => re_split separator k cur rest
      | O =>
          if bool_decide (separator `prefix_of` s)
          then reverse cur :: re_split separator (length separator - 1) [] rest
          else re_split separator 0 (c :: cur) rest
      end
  end.

(** [_split_text_with_regex(text, separator, keep_separator=True)]: each
    separator is kept at the start of the piece that follows it; empty
    pieces are dropped.  The empty separator splits into characters. *)
Definition _split_text_with_regex (s separator : text) : list text :=
  let splits :=
    match separator with
    | [] => (λ c, [c]) <$> s
    | _ =>
        match re_split separator 0 [] s with
        | first :: others => first :: ((λ p, separator ++ p) <$> others)
        | [] => []
        end
    end in
  filter (λ p, p ≠ []) splits.

(** [_join_docs(docs, separator)]: [None] when the stripped text is empty. *)
Definition join (separator : text) (docs : list text) : text :=
  match docs with
  | [] => []
  | d :: ds => d ++ concat ((λ p, separator ++ p) <$> ds)
  end.

Definition _join_docs (docs : list text) (separator : text) : option text :=
  let joined := strip_chars (join separator docs) in
  match joined with [] => None | _ => Some joined end.

(** The inner [while] of [_merge_splits]: drop pieces from the front of
    [current_doc] while it is longer than the overlap, or too long to
    take the next piece of length [_len]. *)
Fixpoint pop_front (separator_len _len : Z) (current_doc : list text)
    (total : Z) : list text * Z :=
  if bool_decide (chunk_overlap < total) ||
     (bool_decide (chunk_size <
        total + _len + (if bool_decide (0 < len current_doc) then separator_len else 0))
      && bool_decide (0 < total))
  then
    match current_doc with
    | [] => ([], total)   (* current_doc[0] on an empty list: not reached *)
    | d :: rest =>
        pop_front separator_len _len rest
          (total - (len d + (if bool_decide (1 < len current_doc) then separator_len else 0)))
    end
  else (current_doc, total).

(** The [for d in splits] loop of [_merge_splits], with its state. *)
Fixpoint merge_loop (separator : text) (splits : list text)
    (docs : list text) (current_doc : list text) (total : Z) : list text :=
  match splits with
  | [] =>
      match _join_docs current_doc separator with
      | Some doc => docs ++ [doc]
      | None => docs
      end
  | d :: rest =>
      let separator_len := len separator in
      let _len := len d in
      let '(docs, current_doc, total) :=
        if bool_decide (chunk_size <
             total + _len + (if bool_decide (0 < len current_doc) then separator_len else 0))
        then
          if bool_decide (0 < len current_doc)
          then
            let docs :=
              match _join_docs current_doc separator with
              | Some doc => docs ++ [doc]
              | None => docs
              end in
            let '(current_doc, total) :=
              pop_front separator_len _len current_doc total in
            (docs, current_doc, total)
          else (docs, current_doc, total)
        else (docs, current_doc, total) in
      let current_doc := current_doc ++ [d] in
      let total :=
        total + (_len + (if bool_decide (1 < len current_doc) then separator_len else 0)) in
      merge_loop separator rest docs current_doc total
  end.

Definition _merge_splits (splits : list text) (separator : text) : list text :=
  merge_loop separator splits [] [] 0.

(** The loop of [_split_text] over the pieces: short pieces are collected
    in [_good_splits] and merged; a long piece is split further with the
    remaining separators ([recurse]), or kept whole when none is left. *)
Fixpoint split_loop (recurse : option (text → list text)) (splits : list text)
    (_good_splits : list text) : list text :=
  match splits with
  | [] =>
      match _good_splits with
      | [] => []
      | _ => _merge_splits _good_splits []
      end
  | s :: rest =>
      if bool_decide (len s < chunk_size)
      then split_loop recurse rest (_good_splits ++ [s])
      else
        match _good_splits with
        | [] => []
        | _ => _merge_splits _good_splits []
        end
        ++ match recurse with
           | None => [s]
           | Some f => f s
           end
        ++ split_loop recurse rest []
  end.

(** [_split_text(text, separators)]: the first separator that is empty or
    occurs in the text is used (the last one if none does); the
    separators after it serve for the pieces that are still too long. *)
Fixpoint _split_text (separators : list text) (s : text) : list text :=
  match separators with
  | [] => []   (* separators[-1] on an empty list: not reached *)
  | separator :: new_separators =>
      match separator with
      | [] => split_loop None (_split_text_with_regex s []) []
      | _ =>
          if contains separator s
          then
            split_loop
              (match new_separators with
               | [] => None
               | _ => Some (_split_text new_separators)
               end)
              (_split_text_with_regex s separator) []
          else
            match new_separators with
            | [] => split_loop None (_split_text_with_regex s separator) []
            | _ => _split_text new_separators s
            end
      end
  end.

End Splitter.

(** The default separators: paragraph, line, word, character. *)
Definition separators : list text :=
  literal <$> [String "010" (String "010" ""); String "010" ""; " "; ""]%string.

(** [RecursiveCharacterTextSplitter(chunk_size, chunk_overlap).split_text]. *)
Definition split_text (chunk_size chunk_overlap : Z) (s : text) : list text :=
  _split_text chunk_size chunk_overlap separators s.

End TextSplitter.

(** ** External services

    The embedding model and the Chroma collection are objects of third-party
    libraries.  They are modelled by what the pipeline observes of them. *)

Module Services.

(** Embedding vectors, distances and timestamps are floats in the source.
    The pipeline passes vectors and distances on and only compares
    timestamps, so integers stand for them. *)
Definition Embedding : Type := list Z.
Definition Distance : Type := Z.
Definition Time : Type := Z.

(** A [SentenceTransformer]: [encode(texts)] returns one vector per text, or
    raises. *)
Record EmbeddingModel := {
  encode : list str → Res (list Embedding)
}.

(** A record of the collection.  Every record carries a metadata
    dictionary, as the records written by [index_chunks] do. *)
Record Item := {
  item_id : string;
  item_embedding : Embedding;
  item_document : str;
  item_metadata : Metadata
}.

(** One entry of a query result: [ids[0][i]], [documents[0][i]],
    [metadatas[0][i]], [distances[0][i]]. *)
Record Row := {
  row_id : string;
  row_document : str;
  row_metadata : Metadata;
  row_distance : Distance
}.

(** A Chroma collection: its records; the engine's similarity ranking for
    query embeddings, nearest first, as the positions of records with
    their distances; and whether its calls raise.  [count_error] is the
    message of the exception for a count that the collection refuses,
    [duplicate_error] the message of the exception for a batch of ids in
    which an id occurs twice (it names ids that are repeated). *)
Record Collection := {
  name : string;
  items : list Item;
  rank : list Embedding → list Item → list (nat * Distance);
  query_error : option string;
  count_error : Z → string;
  duplicate_error : list string → string;
  get_error : scalar → option string;
  upsert_error : option string
}.

(** Calls made to the services, in the order they are made. *)
Inductive Call : Type :=
  | CallLoadModel (model_name : string)
  | CallOpenStore (db_path collection_name : string)
  | CallEncode (texts : list str)
  | CallQuery (n_results : Z)
  | CallGet (source : scalar)
  | CallUpsert (ids : list string).

(** A record as a query returns it. *)
Definition row_of (it : Item) (distance : Distance) : Row :=
  {| row_id := item_id it; row_document := item_document it;
     row_metadata := item_metadata it; row_distance := distance |}.

(** All records of the collection, ranked for the query embeddings. *)
Definition ranked (c : Collection) (query_embeddings : list Embedding) : list Row :=
  omap (λ '(i, d), (λ it, row_of it d) <$> items c !! i)
       (rank c query_embeddings (items c)).

(** The counts that the engine takes: they fit a signed 32-bit integer. *)
Definition MAX_COUNT : Z := 2 ^ 31.

(** [collection.query(query_embeddings, n_results)]: the [n_results]
    nearest records, all of them when the collection holds fewer; a count
    that is not positive or does not fit the engine is refused. *)
Definition query (c : Collection) (query_embeddings : list Embedding)
    (n_results : Z) : Res (list Row) :=
  if bool_decide (n_results ≤ 0) then Raise (count_error c n_results)
  else if bool_decide (MAX_COUNT ≤ n_results) then Raise (count_error c n_results)
  else
    match query_error c with
    | Some e => Raise e
    | None => Val (take (Z.to_nat n_results) (ranked c query_embeddings))
    end.

(** [collection.get(where={"$and": [{"source": {"$eq": source}},
    {"chunk_type": {"$eq": "full_entry"}}]})]. *)
Definition is_full_entry_of (source : scalar) (it : Item) : bool :=
  bool_decide (item_metadata it !! "source" = Some source) &&
  bool_decide (item_metadata it !! "chunk_type" = Some (SStr "full_entry")).

Definition get_full_entry (c : Collection) (source : scalar) : Res (list Item) :=
  match get_error c source with
  | Some e => Raise e
  | None => Val (filter (λ it, is_full_entry_of source it) (items c))
  end.

(** [collection.upsert(...)]: a record replaces the stored record with its
    id, or is added; a batch in which an id occurs twice is refused. *)
Fixpoint put (it : Item) (its : list Item) : list Item :=
  match its with
  | [] => [it]
  | x :: rest =>
      if bool_decide (item_id x = item_id it) then it :: rest else x :: put it rest
  end.

Definition with_items (c : Collection) (its : list Item) : Collection :=
  {| name := name c; items := its; rank := rank c; query_error := query_error c;
     count_error := count_error c; duplicate_error := duplicate_error c;
     get_error := get_error c; upsert_error := upsert_error c |}.

Definition upsert (c : Collection) (batch : list Item) : Res Collection :=
  if bool_decide (NoDup (item_id <$> batch))
  then
    match upsert_error c with
    | Some e => Raise e
    | None => Val (with_items c (foldl (λ its it, put it its) (items c) batch))
    end
  else Raise (duplicate_error c (item_id <$> batch)).

(** The services as a running process finds them. *)
Record State := {
  model : Res EmbeddingModel;     (* outcome of SentenceTransformer(name, device) *)
  database : Res Collection;      (* outcome of get_or_create_collection *)
  calls : list Call
}.

Definition log (c : Call) (s : State) : State :=
  {| model := model s; database := database s; calls := calls s ++ [c] |}.

Definition store (c : Collection) (s : State) : State :=
  {| model := model s; database := Val c; calls := calls s |}.

End Services.
Export Services.

(** ** [rag_search.py] *)

Module RagSearch.

Definition CHUNK_SIZE : Z := 500.
Definition CHUNK_OVERLAP : Z := 50.

(** A [frontmatter.Post]. *)
Record Post := {
  metadata : Frontmatter;
  content : str
}.

(** A chunk dictionary: [{"id": ..., "text": ..., "metadata": ...}]. *)
Record Chunk := {
  id : string;
  text : str;
  chunk_metadata : Frontmatter
}.

(** A file found by [os.walk]: its path relative to the walked directory,
    the outcome of [os.path.getmtime] (it raises for a file that cannot be
    examined, such as a link to nothing) and the outcome of
    [frontmatter.load]. *)
Record File := {
  rel_path : string;
  getmtime : Res Time;
  load : Res Post
}.

(** A directory path: [None] when [os.path.isdir] is false, otherwise the
    files below it in walk order. *)
Definition Directory : Type := option (list File).

(** [if 'source' not in post.metadata: post.metadata['source'] = rel_path]. *)
Definition with_source (rel_path : string) (post : Post) : Post :=
  match metadata post !! "source" with
  | Some _ => post
  | None =>
      {| metadata := <["source" := VScalar (SStr rel_path)]> (metadata post);
         content := content post |}
  end.

Fixpoint load_files (files : list File) (documents : list Post) : list Post :=
  match files with
  | [] => documents
  | f :: rest =>
      if endswith (rel_path f) ".md"
      then
        match load f with
        | Val post => load_files rest (documents ++ [with_source (rel_path f) post])
        | Raise _ => load_files rest documents
        end
      else load_files rest documents
  end.

Definition load_markdown_docs (directory_path : Directory) : list Post :=
  match directory_path with
  | None => []
  | Some files => load_files files []
  end.

(** The body of the inner loop of [split_docs]. *)
Definition make_chunk (doc : Post) (i : nat) (chunk_text : str) : Chunk :=
  let chunk_id :=
    str_value (default (VScalar (SStr "unknown")) (metadata doc !! "source"))
      +:+ "_" +:+ pretty i in
  {| id := chunk_id;
     text := chunk_text;
     chunk_metadata :=
       <["chunk_id" := VScalar (SStr chunk_id)]>
         (<["chunk_index" := VScalar (SInt (Z.of_nat i))]> (metadata doc)) |}.

Definition split_doc (doc : Post) : list Chunk :=
  imap (make_chunk doc) (TextSplitter.split_text CHUNK_SIZE CHUNK_OVERLAP (content doc)).

Definition split_docs (documents : list Post) : list Chunk :=
  mbind split_doc documents.

Definition initialize_embedding_model (model_name : string) (s : State)
    : option EmbeddingModel * State :=
  let s := log (CallLoadModel model_name) s in
  match model s with
  | Val m => (Some m, s)
  | Raise _ => (None, s)
  end.

Definition initialize_vector_store (db_path collection_name : string) (s : State)
    : option Collection * State :=
  let s := log (CallOpenStore db_path collection_name) s in
  match database s with
  | Val c => (Some c, s)
  | Raise _ => (None, s)
  end.

(** Values that Chroma does not accept are stored as their [str]; the
    scalars are kept as they are (so are floats and booleans in the
    source, which the model leaves out). *)
Definition process_metadata (m : Frontmatter) : Metadata :=
  (λ v, match v with VScalar s => s | VOther r => SStr r end) <$> m.

Definition make_item (chunk : Chunk) (embedding : Embedding) : Item :=
  {| item_id := id chunk; item_embedding := embedding;
     item_document := text chunk;
     item_metadata := process_metadata (chunk_metadata chunk) |}.

Definition index_chunks (collection : option Collection) (chunks : list Chunk)
    (embedding_model : option EmbeddingModel) (s : State) : bool * State :=
  match collection, chunks, embedding_model with
  | Some collection, _ :: _, Some embedding_model =>
      let documents := text <$> chunks in
      let s := log (CallEncode documents) s in
      match encode embedding_model documents with
      | Raise _ => (false, s)
      | Val embeddings =>
          let s := log (CallUpsert (id <$> chunks)) s in
          if bool_decide (length embeddings = length chunks)
          then
            match upsert collection (zip_with make_item chunks embeddings) with
            | Raise _ => (false, s)
            | Val collection => (true, store collection s)
            end
          else (false, s)   (* upsert refuses lists of unequal length *)
      end
  | _, _, _ => (false, s)
  end.

(** [query_rag]: the command-line query path. *)
Definition query_rag (collection : option Collection)
    (embedding_model : option EmbeddingModel) (query_text : str)
    (n_results : Z) : option (list Row) * list Call :=
  match collection, embedding_model with
  | Some collection, Some embedding_model =>
      if bool_decide (query_text = []) then (None, [])
      else if bool_decide (strip query_text = []) then (None, [])
      else
        match encode embedding_model [strip query_text] with
        | Raise _ => (None, [CallEncode [strip query_text]])
        | Val query_embedding =>
            match query collection query_embedding n_results with
            | Raise _ => (None, [CallEncode [strip query_text]; CallQuery n_results])
            | Val results => (Some results, [CallEncode [strip query_text]; CallQuery n_results])
            end
        end
  | _, _ => (None, [])
  end.

(** The names bound at module level once [rag_search] is imported. *)
Definition module_names : list string :=
  [ "os"; "frontmatter"; "RecursiveCharacterTextSplitter"; "SentenceTransformer";
    "chromadb"; "torch"; "Console"; "console"; "PROJECT_ROOT"; "DATA_DIRECTORY";
    "CHROMA_DB_PATH"; "CHROMA_COLLECTION_NAME"; "EMBEDDING_MODEL_NAME";
    "CHUNK_SIZE"; "CHUNK_OVERLAP"; "load_markdown_docs"; "split_docs";
    "initialize_embedding_model"; "initialize_vector_store"; "index_chunks";
    "query_rag" ].

End RagSearch.

(** ** Index update, common to both servers

    [get_last_indexed_time], [update_last_indexed_time],
    [load_markdown_docs_since] and [update_journal_index] have the same text
    in [code/mcp/journal_rag_mcp.py] and in the legacy server, up to the
    paths and the list of names imported from [rag_search]. *)

Module Indexer.

Import RagSearch.

(** The file [last_indexed_time.txt]. *)
Inductive TimestampFile : Type :=
  | NoFile
  | Unreadable                (* open, read or float() raises *)
  | Stamp (timestamp : Time).

(** How [update_last_indexed_time] fails: before the file is open
    ([os.makedirs] or [open] raises) the file is as it was; after
    [open(..., 'w')], which empties the file, a failing [write] or a
    failing close leaves in the file what it leaves. *)
Inductive WriteFailure : Type :=
  | BeforeOpen (e : string)
  | AfterOpen (e : string) (remains : TimestampFile).

(** What a run of the server finds outside the process. *)
Record World := {
  journal : Directory;                    (* PROJECT_ROOT/journal *)
  timestamp_file : TimestampFile;
  time : Time;                            (* time.time() *)
  ctime_error : Time → option string;     (* time.ctime(t) raises *)
  timestamp_write_error : option WriteFailure;
  services : State
}.

Definition with_services (w : World) (s : State) : World :=
  {| journal := journal w; timestamp_file := timestamp_file w; time := time w;
     ctime_error := ctime_error w;
     timestamp_write_error := timestamp_write_error w; services := s |}.

Definition with_timestamp_file (w : World) (f : TimestampFile) : World :=
  {| journal := journal w; timestamp_file := f; time := time w;
     ctime_error := ctime_error w;
     timestamp_write_error := timestamp_write_error w; services := services w |}.

(** [time.ctime(t)], of which only the exception matters: it raises for a
    timestamp that the platform cannot turn into a date.  The epoch and
    the current time are timestamps that every platform turns into a
    date. *)
Definition ctime (w : World) (t : Time) : Res unit :=
  if bool_decide (t = 0 ∨ t = time w) then Val ()
  else match ctime_error w t with
       | Some e => Raise e
       | None => Val ()
       end.

(** Computations that may raise, over a state. *)
Definition ret {S A} (a : A) : S → Res A * S := λ s, (Val a, s).

Definition bind {S A B} (c : S → Res A * S) (k : A → S → Res B * S)
    : S → Res B * S :=
  λ s, match c s with
       | (Val a, s') => k a s'
       | (Raise e, s') => (Raise e, s')
       end.

Notation "'let*' x := c 'in' k" := (bind c (λ x, k))
  (at level 10, x pattern, c at level 100, k at level 200).

(** A call that only reads, and a call on the services. *)
Definition pure {S A} (r : Res A) : S → Res A * S := λ s, (r, s).

Definition on_services {A} (c : State → Res A * State) : World → Res A * World :=
  λ w, let '(r, s) := c (services w) in (r, with_services w s).

(** What [from rag_search import ...] can bind: the module's names and the
    functions behind the five names that [update_journal_index] calls.  The
    functions see the journal directory or the services, as those of
    [rag_search.py] do. *)
Record Imported := {
  names : list string;
  file : string;
  load_markdown_docs : Directory → Res (list Post);
  split_docs : list Post → Res (list Chunk);
  initialize_embedding_model : string → State → Res (option EmbeddingModel) * State;
  initialize_vector_store : string → string → State → Res (option Collection) * State;
  index_chunks :
    option Collection → list Chunk → option EmbeddingModel → State → Res bool * State
}.

(** [rag_search.py] as it is in the repository, found at the path [file]
    (the [__file__] of the module, which the text of an [ImportError]
    quotes). *)
Definition rag_search (file : string) : Imported :=
  {| names := RagSearch.module_names;
     file := file;
     load_markdown_docs d := Val (RagSearch.load_markdown_docs d);
     split_docs docs := Val (RagSearch.split_docs docs);
     initialize_embedding_model n s :=
       let '(m, s) := RagSearch.initialize_embedding_model n s in (Val m, s);
     initialize_vector_store p n s :=
       let '(c, s) := RagSearch.initialize_vector_store p n s in (Val c, s);
     index_chunks c chunks m s :=
       let '(ok, s) := RagSearch.index_chunks c chunks m s in (Val ok, s) |}.

(** [from rag_search import (wanted)]: [ImportError] when the module is not
    on [sys.path] or lacks one of the names. *)
Definition import_from (found : option Imported) (wanted : list string) : Res Imported :=
  match found with
  | None => Raise "No module named 'rag_search'"
  | Some m =>
      match filter (λ n, n ∉ names m) wanted with
      | [] => Val m
      | n :: _ =>
          Raise ("cannot import name '" +:+ n +:+ "' from 'rag_search' (" +:+ file m +:+ ")")
      end
  end.

Definition get_last_indexed_time (w : World) : Time :=
  match timestamp_file w with
  | NoFile => 0
  | Unreadable => 0
  | Stamp timestamp => timestamp
  end.

Definition update_last_indexed_time (w : World) : bool * World :=
  match timestamp_write_error w with
  | Some (BeforeOpen _) => (false, w)
  | Some (AfterOpen _ remains) => (false, with_timestamp_file w remains)
  | None => (true, with_timestamp_file w (Stamp (time w)))
  end.

(** The loop of [load_markdown_docs_since], with [documents] and
    [found_files]: [os.path.getmtime] is called outside the [try], so its
    exception ends the loop and the function. *)
Fixpoint load_files_since (timestamp : Time) (files : list File)
    (documents : list Post) (found_files : bool) : Res (list Post * bool) :=
  match files with
  | [] => Val (documents, found_files)
  | f :: rest =>
      if endswith (rel_path f) ".md"
      then
        match getmtime f with
        | Raise e => Raise e
        | Val mtime =>
            if bool_decide (timestamp < mtime)
            then
              match load f with
              | Val post =>
                  load_files_since timestamp rest
                    (documents ++ [with_source (rel_path f) post]) true
              | Raise _ => load_files_since timestamp rest documents true
              end
            else load_files_since timestamp rest documents found_files
        end
      else load_files_since timestamp rest documents found_files
  end.

(** [load_markdown_docs_since]; [clock] is [time.ctime], called for the
    message that is logged when no file was found. *)
Definition load_markdown_docs_since (clock : Time → Res unit)
    (directory_path : Directory) (timestamp : Time) : Res (list Post) :=
  match directory_path with
  | None => Val []
  | Some files =>
      match load_files_since timestamp files [] false with
      | Raise e => Raise e
      | Val (documents, found_files) =>
          if found_files then Val documents
          else
            match clock timestamp with
            | Raise e => Raise e
            | Val _ => Val documents
            end
      end
  end.

Definition EMBEDDING_MODEL_NAME : string := "all-MiniLM-L6-v2".
Definition CHROMA_COLLECTION_NAME : string := "life_journal_collection".

(** Where [update_journal_index] stands before it calls [index_chunks]:
    it has returned, or it holds the chunks, the model and the collection. *)
Inductive Prepared : Type :=
  | Returned (result : bool * string)
  | ToIndex (chroma_collection : Collection) (chunks : list Chunk)
      (embed_model : EmbeddingModel) (files_processed : Z).

Section UpdateIndex.
Variable imports : list string.       (* the names of the import statement *)
Variable CHROMA_DB_PATH : string.

(** "Load documents (all or only new/modified)"; the incremental branch
    logs [time.ctime(last_indexed_time)] before it loads. *)
Definition load_documents (m : Imported) (full_reindex : bool) (w : World)
    : Res (list Post) :=
  if full_reindex then load_markdown_docs m (journal w)
  else
    let last_indexed_time := get_last_indexed_time w in
    match ctime w last_indexed_time with
    | Raise e => Raise e
    | Val _ => load_markdown_docs_since (ctime w) (journal w) last_indexed_time
    end.

(** [update_journal_index] from the loading of documents to the check of
    the model and the store. *)
Definition prepare (m : Imported) (full_reindex : bool) : World → Res Prepared * World :=
  let* documents := (λ w, (load_documents m full_reindex w, w)) in
  let files_processed := len documents in
  if negb full_reindex && bool_decide (documents = [])
  then ret (Returned (true, "No new or modified journal entries found."))
  else
    let* chunks := pure (split_docs m documents) in
    if bool_decide (chunks = [])
    then ret (Returned (true,
           "No chunks generated from " +:+ pretty files_processed +:+ " files."))
    else
      let* embed_model := on_services (initialize_embedding_model m EMBEDDING_MODEL_NAME) in
      let* chroma_collection :=
        on_services (initialize_vector_store m CHROMA_DB_PATH CHROMA_COLLECTION_NAME) in
      match embed_model, chroma_collection with
      | Some embed_model, Some chroma_collection =>
          ret (ToIndex chroma_collection chunks embed_model files_processed)
      | _, _ =>
          ret (Returned (false, "Failed to initialize embedding model or vector store."))
      end.

(** [update_journal_index] from the call of [index_chunks] on. *)
Definition index (m : Imported) (p : Prepared) : World → Res (bool * string) * World :=
  match p with
  | Returned result => ret result
  | ToIndex chroma_collection chunks embed_model files_processed =>
      let* indexing_successful :=
        on_services (index_chunks m (Some chroma_collection) chunks (Some embed_model)) in
      if indexing_successful : bool
      then
        let* _ := (λ w, let '(ok, w) := update_last_indexed_time w in (Val ok, w)) in
        ret (true, "Successfully indexed " +:+ pretty (len chunks) +:+ " chunks from "
                     +:+ pretty files_processed +:+ " files.")
      else ret (false, "Indexing failed.")
  end.

(** [found] is the module that [sys.path] yields for [rag_search]. *)
Definition update_journal_index (found : option Imported) (full_reindex : bool)
    (w : World) : (bool * string) * World :=
  match import_from found imports with
  | Raise e => ((false, "Error importing from rag_search.py: " +:+ e), w)
  | Val m =>
      match (let* p := prepare m full_reindex in index m p) w with
      | (Val result, w) => (result, w)
      | (Raise e, w) => ((false, "Error updating index: " +:+ e), w)
      end
  end.

End UpdateIndex.

End Indexer.

(** ** [code/mcp/journal_rag_mcp.py] *)

Module JournalRag.

Import Indexer.

Definition imports : list string :=
  [ "load_markdown_docs"; "split_docs"; "initialize_embedding_model";
    "initialize_vector_store"; "index_chunks" ].

Definition CHROMA_DB_PATH : string := "code/data/chroma_db".

Definition update_journal_index : option Imported → bool → World → (bool * string) * World :=
  Indexer.update_journal_index imports CHROMA_DB_PATH.

End JournalRag.

(** ** [.tech/code/python_legacy/mcp/journal_rag_mcp.py] *)

Module Legacy.

Import Indexer.

Definition imports : list string :=
  [ "load_markdown_docs"; "split_docs"; "initialize_embedding_model";
    "initialize_vector_store"; "index_chunks"; "create_semantic_chunks" ].

Definition CHROMA_DB_PATH : string := ".tech/data/chroma_db".
Definition DEFAULT_N_RESULTS : Z := 10.

Definition update_journal_index : option Imported → bool → World → (bool * string) * World :=
  Indexer.update_journal_index imports CHROMA_DB_PATH.

(** The globals set by [initialize_resources]. *)
Record Resources := {
  is_initialized : bool;
  embedding_model : option EmbeddingModel;
  chroma_collection : option Collection
}.

(** [metadata.get('source', '')], the key of the deduplication. *)
Definition source_of (row : Row) : scalar :=
  default (SStr "") (row_metadata row !! "source").

(** "Try to get full entry for partial chunks, otherwise use original":
    the entry appended for a result that is not skipped, with the calls
    made to the collection. *)
Definition expand_entry (collection : Collection) (row : Row) (source : scalar)
    : Row * list Call :=
  if bool_decide (row_metadata row !! "chunk_type" = Some (SStr "partial_entry"))
  then
    match get_full_entry collection source with
    | Val (full :: _) =>
        ({| row_id := item_id full; row_document := item_document full;
            row_metadata := item_metadata full; row_distance := row_distance row |},
         [CallGet source])
    | Val [] => (row, [CallGet source])
    | Raise _ => (row, [CallGet source])
    end
  else (row, []).

(** The [for] loop of [expand_context_for_results] with its state:
    [seen_sources], [results_added], the entries of [expanded_results] and
    the calls made so far. *)
Fixpoint expand_loop (collection : Collection) (n_results : Z) (rows : list Row)
    (seen_sources : gset scalar) (results_added : Z) (expanded : list Row)
    (made : list Call) : list Row * list Call :=
  match rows with
  | [] => (expanded, made)
  | row :: rest =>
      if bool_decide (n_results ≤ results_added) then (expanded, made)
      else
        let source := source_of row in
        if bool_decide (source ∈ seen_sources)
        then expand_loop collection n_results rest seen_sources results_added expanded made
        else if bool_decide (n_results ≤ results_added) then (expanded, made)
        else
          let '(entry, cs) := expand_entry collection row source in
          let expanded := expanded ++ [entry] in
          let seen_sources := {[source]} ∪ seen_sources in
          let results_added := results_added + 1 in
          if bool_decide (n_results ≤ results_added) then (expanded, made ++ cs)
          else expand_loop collection n_results rest seen_sources results_added
                 expanded (made ++ cs)
  end.

Definition expand_context_for_results (collection : Collection) (results : list Row)
    (n_results : Z) : list Row * list Call :=
  match results with
  | [] => (results, [])
  | _ =>
      let '(expanded, made) := expand_loop collection n_results results ∅ 0 [] [] in
      if bool_decide (n_results < len expanded)
      then (slice_to n_results expanded, made)
      else (expanded, made)
  end.

(** One entry of the list that [perform_enhanced_rag_query] returns. *)
Record Result := {
  source : scalar;
  date : scalar;
  text : str;
  distance : Distance;
  chunk_type : scalar;
  context_note : string
}.

Definition format_result (row : Row) : Result :=
  let metadata := row_metadata row in
  let source := default (SStr "N/A") (metadata !! "source") in
  let date_created :=
    default (default (SStr "Unknown date") (metadata !! "created")) (metadata !! "date") in
  let chunk_type := default (SStr "unknown") (metadata !! "chunk_type") in
  {| source := source;
     date := date_created;
     text := row_document row;
     distance := row_distance row;
     chunk_type := chunk_type;
     context_note :=
       if bool_decide (chunk_type = SStr "full_entry")
       then "Full entry from " +:+ str_scalar source
       else "Excerpt from " +:+ str_scalar source |}.

(** The strict enforcement of the result count at the end of
    [perform_enhanced_rag_query]. *)
Definition truncate (n_results : Z) (formatted_results : list Result) : list Result :=
  let final_results :=
    if bool_decide (n_results < len formatted_results)
    then slice_to n_results formatted_results
    else formatted_results in
  if bool_decide (len final_results ≠ n_results)
  then slice_to n_results final_results
  else final_results.

(** Returns the pair [(results, error message)] and the calls made. *)
Definition perform_enhanced_rag_query (r : Resources) (query_text : str)
    (n_results : Z) : (option (list Result) * option string) * list Call :=
  match is_initialized r, embedding_model r, chroma_collection r with
  | true, Some embedding_model, Some chroma_collection =>
      let c1 := [CallEncode [strip query_text]] in
      match encode embedding_model [strip query_text] with
      | Raise e => ((None, Some e), c1)
      | Val query_embedding =>
          let candidates_to_fetch := n_results * 2 in
          let c2 := c1 ++ [CallQuery candidates_to_fetch] in
          match query chroma_collection query_embedding candidates_to_fetch with
          | Raise e => ((None, Some e), c2)
          | Val raw_results =>
              let '(expanded_results, c3) :=
                expand_context_for_results chroma_collection raw_results n_results in
              let formatted_results := format_result <$> expanded_results in
              ((Some (truncate n_results formatted_results), None), c2 ++ c3)
          end
      end
  | _, _, _ => ((None, Some "Resources not initialized"), [])
  end.

(** JSON values of the tool arguments, as [json.loads] delivers them. *)
Inductive pyval : Type :=
  | PNone
  | PBool (b : bool)
  | PInt (z : Z)
  | PStr (s : str)
  | POther (truth : bool).     (* float, list, dict; with its truth value *)

Definition truthy (v : pyval) : bool :=
  match v with
  | PNone => false
  | PBool b => b
  | PInt z => negb (z =? 0)
  | PStr s => negb (bool_decide (s = []))
  | POther t => t
  end.

(** [isinstance(v, int)] with the integer it denotes; [bool] is a subclass
    of [int]. *)
Definition as_int (v : pyval) : option Z :=
  match v with
  | PInt z => Some z
  | PBool b => Some (if b then 1 else 0)
  | _ => None
  end.

(** A JSON-RPC response: an error object, or the result content. *)
Inductive Content : Type :=
  | ResultsJson (results : list Result)   (* json.dumps(results, indent=2) *)
  | Message (s : string).

Inductive Response : Type :=
  | RpcError (code : Z) (message : string)
  | RpcResult (content : Content).

(** The branch of [main] for [tools/call] with name [query_journal]. *)
Definition query_journal (r : Resources) (arguments : gmap string pyval)
    : Response * list Call :=
  let query := default PNone (arguments !! "query") in
  let n_results := default (PInt DEFAULT_N_RESULTS) (arguments !! "n_results") in
  match query with
  | PStr query_text =>
      if negb (truthy query)
      then (RpcError (-32602)
              "Invalid params: 'query' argument is missing or not a string.", [])
      else
        match as_int n_results with
        | Some n =>
            if bool_decide (n < 1)
            then (RpcError (-32602)
                    "Invalid params: 'n_results' must be a positive integer (default: 10).", [])
            else
              let '((results, error_msg), made) :=
                perform_enhanced_rag_query r query_text n in
              match error_msg, results with
              | Some (String c e), _ =>
                  (RpcError (-32000) ("Query execution failed: " +:+ String c e), made)
              | _, Some results =>
                  let results :=
                    if bool_decide (len results ≠ n) then slice_to n results else results in
                  (RpcResult (ResultsJson results), made)
              | _, None =>
                  (RpcError (-32000)
                     "Internal server error: object of type 'NoneType' has no len()", made)
              end
        | None =>
            (RpcError (-32602)
               "Invalid params: 'n_results' must be a positive integer (default: 10).", [])
        end
  | _ =>
      (RpcError (-32602)
         "Invalid params: 'query' argument is missing or not a string.", [])
  end.

End Legacy.

(** ** Start-up, plain query and tools, common to both servers

    [initialize_resources] and [perform_rag_query] have the same text in
    both servers, and so has the [update_index] branch of [main]. *)

Module Server.

Import Indexer Legacy.

(** What [initialize_resources] finds at [CHROMA_DB_PATH]. *)
Record Disk := {
  path_exists : bool;                 (* os.path.exists(CHROMA_DB_PATH) *)
  makedirs_error : option string      (* os.makedirs raises *)
}.

(** The initial values of the globals. *)
Definition no_resources : Resources :=
  {| is_initialized := false; embedding_model := None; chroma_collection := None |}.

(** [initialize_resources]: returns its result and the new globals. *)
Definition initialize_resources (CHROMA_DB_PATH : string) (disk : Disk)
    (r : Resources) (s : State) : (bool * Resources) * State :=
  if is_initialized r then ((true, r), s)
  else
    let s := log (CallLoadModel EMBEDDING_MODEL_NAME) s in
    match model s with
    | Raise _ => ((false, no_resources), s)
    | Val m =>
        let r := {| is_initialized := is_initialized r; embedding_model := Some m;
                    chroma_collection := chroma_collection r |} in
        match (if path_exists disk then None else makedirs_error disk) with
        | Some _ => ((false, r), s)
        | None =>
            let s := log (CallOpenStore CHROMA_DB_PATH CHROMA_COLLECTION_NAME) s in
            match database s with
            | Raise _ => ((false, no_resources), s)
            | Val c =>
                ((true, {| is_initialized := true; embedding_model := Some m;
                           chroma_collection := Some c |}), s)
            end
        end
    end.

(** One entry of the list that [perform_rag_query] returns. *)
Record Hit := {
  hit_source : scalar;
  hit_text : str;
  hit_distance : Distance
}.

Definition format_hit (row : Row) : Hit :=
  {| hit_source := default (SStr "N/A") (row_metadata row !! "source");
     hit_text := row_document row;
     hit_distance := row_distance row |}.

(** [perform_rag_query]: the pair [(results, error message)] and the calls
    made. *)
Definition perform_rag_query (r : Resources) (query_text : str) (n_results : Z)
    : (option (list Hit) * option string) * list Call :=
  match is_initialized r, embedding_model r, chroma_collection r with
  | true, Some embedding_model, Some chroma_collection =>
      let c1 := [CallEncode [strip query_text]] in
      match encode embedding_model [strip query_text] with
      | Raise e => ((None, Some e), c1)
      | Val query_embedding =>
          let c2 := c1 ++ [CallQuery n_results] in
          match query chroma_collection query_embedding n_results with
          | Raise e => ((None, Some e), c2)
          | Val results => ((Some (format_hit <$> results), None), c2)
          end
      end
  | _, _, _ => ((None, Some "Resources not initialized"), [])
  end.

(** The branch of [main] for [tools/call] with name [update_index];
    [result] and [error] build the response. *)
Definition update_index {R} (result : string → R) (error : Z → string → R)
    (update_journal_index : bool → World → (bool * string) * World)
    (arguments : gmap string pyval) (w : World) : R * World :=
  let full_reindex := default (PBool false) (arguments !! "full_reindex") in
  let '((success, message), w) := update_journal_index (truthy full_reindex) w in
  if success then (result message, w)
  else (error (-32000) ("Index update failed: " +:+ message), w).

(** The text of "Unknown tool '{tool_name}'" for a name that is a string
    or is missing. *)
Definition unknown_tool (tool_name : option string) : string :=
  "Method not found: Unknown tool '" +:+ default "None" tool_name +:+ "'".

End Server.

(** ** The tools of [code/mcp/journal_rag_mcp.py] *)

Module JournalRagTools.

Import Indexer Server.

Definition DEFAULT_N_RESULTS : Z := 3.

(** The text content of a result: [json.dumps] of the results, which are
    [None] when the query failed with an empty message, or a message. *)
Inductive Content : Type :=
  | ResultsJson (results : list Hit)
  | NullJson
  | Message (s : string).

Inductive Response : Type :=
  | RpcError (code : Z) (message : string)
  | RpcResult (content : Content).

(** The branch of [main] for [tools/call] with name [query_journal]. *)
Definition query_journal (r : Legacy.Resources) (arguments : gmap string Legacy.pyval)
    : Response * list Call :=
  let query := default Legacy.PNone (arguments !! "query") in
  let n_results := default (Legacy.PInt DEFAULT_N_RESULTS) (arguments !! "n_results") in
  match query with
  | Legacy.PStr query_text =>
      if negb (Legacy.truthy query)
      then (RpcError (-32602)
              "Invalid params: 'query' argument is missing or not a string.", [])
      else
        match Legacy.as_int n_results with
        | Some n =>
            if bool_decide (n < 1)
            then (RpcError (-32602)
                    "Invalid params: 'n_results' must be a positive integer (default: 3).", [])
            else
              let '((results, error_msg), made) := perform_rag_query r query_text n in
              match error_msg, results with
              | Some (String c e), _ =>
                  (RpcError (-32000) ("Query execution failed: " +:+ String c e), made)
              | _, Some results => (RpcResult (ResultsJson results), made)
              | _, None => (RpcResult NullJson, made)
              end
        | None =>
            (RpcError (-32602)
               "Invalid params: 'n_results' must be a positive integer (default: 3).", [])
        end
  | _ =>
      (RpcError (-32602)
         "Invalid params: 'query' argument is missing or not a string.", [])
  end.

(** The branch of [main] for [tools/call]: the response, the calls of the
    query and the world after the call. *)
Definition call_tool (r : Legacy.Resources) (found : option Imported)
    (tool_name : option string) (arguments : gmap string Legacy.pyval) (w : World)
    : (Response * list Call) * World :=
  if bool_decide (tool_name = Some "query_journal")
  then (query_journal r arguments, w)
  else if bool_decide (tool_name = Some "update_index")
  then
    let '(response, w) :=
      update_index (λ message, RpcResult (Message message)) RpcError
        (JournalRag.update_journal_index found) arguments w in
    ((response, []), w)
  else ((RpcError (-32601) (unknown_tool tool_name), []), w).

End JournalRagTools.

(** ** The tools of the legacy server *)

Module LegacyTools.

Import Indexer Legacy Server.

Definition call_tool (r : Resources) (found : option Imported)
    (tool_name : option string) (arguments : gmap string pyval) (w : World)
    : (Response * list Call) * World :=
  if bool_decide (tool_name = Some "query_journal")
  then (query_journal r arguments, w)
  else if bool_decide (tool_name = Some "update_index")
  then
    let '(response, w) :=
      update_index (λ message, RpcResult (Message message)) RpcError
        (Legacy.update_journal_index found) arguments w in
    ((response, []), w)
  else ((RpcError (-32601) (unknown_tool tool_name), []), w).

End LegacyTools.

(** * Vocabulary of the properties *)

(** ** Chunking *)

Module Chunking.

Import TextSplitter.

(** Splitting by length alone: the longest prefix of at most [size]
    characters is a chunk; while text remains beyond it, the start moves
    on by [stride].  [fuel] bounds the number of chunks. *)
Fixpoint windows_from (fuel size stride : nat) (s : text) : list text :=
  match fuel with
  | O => []
  | S fuel =>
      match s with
      | [] => []
      | _ =>
          if bool_decide (length s ≤ size)%nat then [s]
          else take size s :: windows_from fuel size stride (drop stride s)
      end
  end.

Definition windows (size stride : nat) (s : text) : list text :=
  windows_from (length s) size stride s.

(** The text as a list of one-character pieces. *)
Definition chars (s : text) : list text := (λ c, [c]) <$> s.

Definition no_space (s : text) : Prop := Forall (λ c, isspace c = false) s.

End Chunking.

(** ** Selection of files *)

Module Selection.

Import RagSearch Indexer.

Definition is_markdown (f : File) : bool := endswith (rel_path f) ".md".

(** The documents of the files that [frontmatter.load] can parse. *)
Definition parsed (files : list File) : list Post :=
  omap (λ f, match load f with
             | Val post => Some (with_source (rel_path f) post)
             | Raise _ => None
             end) files.

Definition files_of (d : Directory) : list File := default [] d.

(** The modification time of the file is strictly greater than the
    timestamp. *)
Definition modified_since (timestamp : Time) (f : File) : bool :=
  match getmtime f with
  | Val mtime => bool_decide (timestamp < mtime)
  | Raise _ => false
  end.

(** The markdown files whose modification time can be read. *)
Definition examinable (files : list File) : Prop :=
  ∀ f, f ∈ files → is_markdown f → ∃ mtime, getmtime f = Val mtime.


(** The files a run hands to [frontmatter.load]; the watermark is the
    value of [get_last_indexed_time]. *)
Definition selected (full_reindex : bool) (w : World) : list File :=
  if full_reindex then filter (λ f, is_markdown f) (files_of (journal w))
  else filter (λ f, is_markdown f ∧ modified_since (get_last_indexed_time w) f)
         (files_of (journal w)).

End Selection.

(** ** Retrieval *)

Module Retrieval.

Import Legacy.

(** The first [n] rows with pairwise different sources, none of them in
    [seen]: the rows that the loop of [expand_context_for_results] does
    not skip. *)
Fixpoint first_sources (n : nat) (seen : gset scalar) (rows : list Row) : list Row :=
  match rows with
  | [] => []
  | row :: rest =>
      match n with
      | O => []
      | S k =>
          if bool_decide (source_of row ∈ seen) then first_sources n seen rest
          else row :: first_sources k ({[source_of row]} ∪ seen) rest
      end
  end.

(** The number of distinct sources among rows. *)
Definition distinct_sources (rows : list Row) : nat :=
  size (list_to_set (source_of <$> rows) : gset scalar).

(** The entry appended for a row that is not skipped, and the calls made
    for it. *)
Definition entry (collection : Collection) (row : Row) : Row :=
  (expand_entry collection row (source_of row)).1.

Definition fetches (collection : Collection) (row : Row) : list Call :=
  (expand_entry collection row (source_of row)).2.

(** The candidates that the over-fetching query for [k] results returns. *)
Definition candidates (collection : Collection) (query_embedding : list Embedding)
    (k : Z) : list Row :=
  take (Z.to_nat (k * 2)) (ranked collection query_embedding).

(** Every record has a [source], as every record that the indexer writes
    has: both loaders set the [source] of a document that has none. *)
Definition labelled (its : list Item) : Prop :=
  ∀ it, it ∈ its → is_Some (item_metadata it !! "source").

(** The globals after [initialize_resources] has succeeded. *)
Definition initialized (model : EmbeddingModel) (collection : Collection) : Resources :=
  {| is_initialized := true; embedding_model := Some model;
     chroma_collection := Some collection |}.

(** Metadata [date], else [created], else the sentinel of the code. *)
Definition resolved_date (metadata : Metadata) : scalar :=
  match metadata !! "date" with
  | Some d => d
  | None => match metadata !! "created" with
            | Some c => c
            | None => SStr "Unknown date"
            end
  end.

End Retrieval.

(** ** Sample journals and stores *)

Module Example.

Import RagSearch Indexer Legacy.

Definition repeated (n : nat) (c : ascii) : str := replicate n (N_of_ascii c).

Definition newline : str := literal (String "010" "").

(** Two paragraphs of 499 characters: a body of length 2·CHUNK_SIZE. *)
Definition two_paragraphs : str :=
  repeated 499 "a" ++ newline ++ newline ++ repeated 499 "b".

Definition short_note : Post :=
  {| metadata := {[ "source" := VScalar (SStr "a.md") ]};
     content := literal "A short entry." |}.

Definition long_note : Post :=
  {| metadata := {[ "source" := VScalar (SStr "b.md") ]};
     content := two_paragraphs |}.

(** A body of 200 euro signs (U+20AC): 200 characters, 600 bytes in UTF-8. *)
Definition euro_note : Post :=
  {| metadata := {[ "source" := VScalar (SStr "euro.md") ]};
     content := replicate 200 8364%N |}.

Definition entry_a : Post :=
  {| metadata := {[ "date" := VOther "2025-01-01" ]}; content := literal "First entry." |}.

Definition entry_b : Post :=
  {| metadata := {[ "source" := VScalar (SStr "b.md") ]};
     content := literal "Second entry." |}.

Definition journal_files : list File :=
  [ {| rel_path := "2025/a.md"; getmtime := Val 100; load := Val entry_a |};
    {| rel_path := "b.md"; getmtime := Val 300; load := Val entry_b |};
    {| rel_path := "notes.txt"; getmtime := Val 400; load := Raise "not markdown" |};
    {| rel_path := "broken.md"; getmtime := Val 350; load := Raise "bad front matter" |} ].

(** A model that embeds every text as the same vector. *)
Definition model : EmbeddingModel :=
  {| Services.encode texts := Val ((λ _, [0]) <$> texts) |}.

(** A ranking that keeps the order of the collection. *)
Definition by_position (_ : list Embedding) (its : list Item) : list (nat * Distance) :=
  imap (λ i _, (i, Z.of_nat i)) its.

Definition collection_with (its : list Item) (error : option string) : Collection :=
  {| name := "life_journal_collection"; items := its; rank := by_position;
     query_error := None;
     count_error := λ n, "Number of requested results " +:+ pretty n +:+
                         (if bool_decide (n ≤ 0) then ", cannot be negative, or zero."
                          else ", is out of range.");
     duplicate_error := λ _, "Expected IDs to be unique";
     get_error := λ _, None; upsert_error := error |}.

Definition collection_of (its : list Item) : Collection := collection_with its None.

Definition item (id document : string) (metadata : list (string * scalar)) : Item :=
  {| item_id := id; item_embedding := [0]; item_document := literal document;
     item_metadata := list_to_map metadata |}.

(** Four chunks of [a.md] rank before the only chunk of [b.md]. *)
Definition crowded : list Item :=
  [ item "a.md_0" "a0" [("source", SStr "a.md"); ("chunk_index", SInt 0)];
    item "a.md_1" "a1" [("source", SStr "a.md"); ("chunk_index", SInt 1)];
    item "a.md_2" "a2" [("source", SStr "a.md"); ("chunk_index", SInt 2)];
    item "a.md_3" "a3" [("source", SStr "a.md"); ("chunk_index", SInt 3)];
    item "b.md_0" "b0" [("source", SStr "b.md"); ("chunk_index", SInt 0)] ].

(** A record without source, and a record whose source is the text N/A. *)
Definition unlabelled : list Item :=
  [ item "x_0" "x" [("chunk_index", SInt 0)];
    item "y_0" "y" [("source", SStr "N/A"); ("chunk_index", SInt 0)] ].

(** A partial chunk of [b.md] and the full entry of [b.md]. *)
Definition expandable : list Item :=
  [ item "b.md_1" "part" [("source", SStr "b.md"); ("chunk_type", SStr "partial_entry")];
    item "b.md_full" "whole entry"
      [("source", SStr "b.md"); ("chunk_type", SStr "full_entry");
       ("date", SStr "2025-01-01")] ].

Definition partial_row : Row :=
  {| row_id := "b.md_1"; row_document := literal "part";
     row_metadata := list_to_map [("source", SStr "b.md");
                                  ("chunk_type", SStr "partial_entry")];
     row_distance := 0 |}.

Definition world_with (c : Collection) : World :=
  {| journal := Some journal_files; timestamp_file := Stamp 200; time := 500;
     ctime_error := λ t, if bool_decide (10 ^ 17 < Z.abs t)
                         then Some "timestamp out of range for platform time_t"
                         else None;
     timestamp_write_error := None;
     services := {| Services.model := Val model; database := Val c; calls := [] |} |}.

Definition journal_world : World := world_with (collection_of []).

(** The same world with a store whose upsert raises. *)
Definition failing_world : World := world_with (collection_with [] (Some "disk full")).

End Example.

(** ** Further vocabulary *)

Module Notions.

Import RagSearch.

(** A chunk as the splitter emits it: not empty, without white space at
    either end, of at most [chunk_size] characters. *)
Definition bounded (chunk_size : Z) (c : str) : Prop :=
  c ≠ [] ∧ strip_chars c = c ∧ len c ≤ chunk_size.

(** [c] is a contiguous part of [s]. *)
Definition excerpt {A} (c s : list A) : Prop := ∃ pre post, s = pre ++ c ++ post.

(** The text that [split_docs] puts before the index in a chunk id. *)
Definition source_label (doc : Post) : string :=
  str_value (default (VScalar (SStr "unknown")) (metadata doc !! "source")).

Definition no_underscore (s : string) : Prop :=
  Forall (λ c, c ≠ "_"%char) (list_ascii_of_string s).

(** The ids of the records of a collection. *)
Definition ids (its : list Item) : list string := item_id <$> its.

(** The records that [index_chunks] hands to [upsert], and the records of
    a collection after the upsert of a batch. *)
Definition batch_of (chunks : list Chunk) (embeddings : list Embedding) : list Item :=
  zip_with make_item chunks embeddings.

Abbreviation put_all := (foldl (λ its it, put it its)).

(** A row that [expand_context_for_results] tries to replace. *)
Definition is_partial (row : Row) : Prop :=
  row_metadata row !! "chunk_type" = Some (SStr "partial_entry").

(** The fields of a result of the legacy server that a result of
    [perform_rag_query] has too. *)
Definition as_hit (res : Legacy.Result) : Server.Hit :=
  {| Server.hit_source := Legacy.source res; Server.hit_text := Legacy.text res;
     Server.hit_distance := Legacy.distance res |}.

End Notions.

(** ** Further sample worlds *)

Module Sample.

Import RagSearch Indexer Example.

Definition with_write_error (w : World) (failure : WriteFailure) : World :=
  {| journal := journal w; timestamp_file := timestamp_file w; time := time w;
     ctime_error := ctime_error w;
     timestamp_write_error := Some failure; services := services w |}.

(** The journal of [journal_world], with a timestamp file that cannot be
    opened for writing. *)
Definition read_only_world : World :=
  with_write_error journal_world (BeforeOpen "read-only file system").

(** The same journal, on a disk without room: the timestamp file is
    emptied and the write fails. *)
Definition full_disk_world : World :=
  with_write_error journal_world (AfterOpen "no space left on device" Unreadable).

(** The same journal, with an embedding model that cannot be loaded. *)
Definition offline_world : World :=
  {| journal := journal journal_world; timestamp_file := Stamp 200; time := 500;
     ctime_error := ctime_error journal_world;
     timestamp_write_error := None;
     services := {| Services.model := Raise "no network";
                    database := Val (collection_of []); calls := [] |} |}.


(** A journal in which a link that points to nothing is walked before an
    entry that is newer than the watermark 200. *)
Definition linked_files : list File :=
  [ {| rel_path := "link.md";
       getmtime := Raise "[Errno 2] No such file or directory: 'journal/link.md'";
       load := Raise "[Errno 2] No such file or directory: 'journal/link.md'" |};
    {| rel_path := "b.md"; getmtime := Val 300; load := Val entry_b |} ].

Definition linked_world : World :=
  {| journal := Some linked_files; timestamp_file := Stamp 200; time := 500;
     ctime_error := ctime_error journal_world;
     timestamp_write_error := None;
     services := services journal_world |}.

(** The journal of [journal_world] with a watermark that is no date. *)
Definition far_future_world : World :=
  with_timestamp_file journal_world (Stamp (10 ^ 20)).

End Sample.

(** * Properties of the chunker *)

Module ChunkingFacts.

Import RagSearch Example TextSplitter Chunking.

Section Windows.
Variables size stride : nat.
Hypothesis stride_pos : (0 < stride)%nat.

Lemma windows_from_fuel fuel : ∀ fuel' s,
  (length s ≤ fuel)%nat → (length s ≤ fuel')%nat →
  windows_from fuel size stride s = windows_from fuel' size stride s.
Proof.
  induction fuel as [|fuel IH]; intros fuel' s Hf Hf'.
  - destruct s; [|simpl in Hf; lia]. by destruct fuel'.
  - destruct fuel' as [|fuel']; [destruct s; [done|simpl in Hf'; lia]|].
    simpl. destruct s as [|c s]; [done|].
    case_bool_decide; [done|]. f_equal.
    apply IH; rewrite length_drop; simpl in *; lia.
Qed.

Lemma windows_unfold s :
  windows size stride s =
  match s with
  | [] => []
  | _ => if bool_decide (length s ≤ size)%nat then [s]
         else take size s :: windows size stride (drop stride s)
  end.
Proof.
  unfold windows. destruct s as [|c s]; [done|].
  cbn [length windows_from]. case_bool_decide; [done|]. f_equal.
  apply windows_from_fuel; rewrite length_drop; simpl; lia.
Qed.

Lemma windows_long s :
  (size < length s)%nat →
  windows size stride s = take size s :: windows size stride (drop stride s).
Proof.
  intros Hlen. rewrite windows_unfold. destruct s; [simpl in Hlen; lia|].
  by rewrite bool_decide_eq_false_2 by lia.
Qed.

Lemma windows_short s :
  s ≠ [] → (length s ≤ size)%nat → windows size stride s = [s].
Proof.
  intros Hne Hlen. rewrite windows_unfold. destruct s; [done|].
  by rewrite bool_decide_eq_true_2.
Qed.

Lemma windows_from_lookup fuel : ∀ s i w,
  windows_from fuel size stride s !! i = Some w →
  w = take size (drop (i * stride) s) ∧
  (∀ w', windows_from fuel size stride s !! S i = Some w' →
         (size < length (drop (i * stride) s))%nat).
Proof.
  induction fuel as [|fuel IH]; intros s i w; simpl; [done|].
  destruct s as [|c s]; [done|].
  case_bool_decide as Hlen.
  - destruct i; [|done]. intros [= <-]. split; [|done].
    rewrite take_ge; [done|]. simpl in *. lia.
  - destruct i as [|i]; simpl.
    + intros [= <-]. split; [done|]. intros _ _. simpl in *. lia.
    + intros [-> Hnext]%IH. rewrite drop_drop. split; [done|].
      intros w' Hw'. specialize (Hnext w' Hw'). by rewrite drop_drop in Hnext.
Qed.

Lemma windows_nonempty s : s ≠ [] → windows size stride s ≠ [].
Proof. rewrite windows_unfold. destruct s; [done|]. by case_bool_decide. Qed.

(** Chunk [i] starts at [i * stride] and is the longest prefix of at
    most [size] characters of what remains. *)
Lemma windows_lookup s i w :
  windows size stride s !! i = Some w → w = take size (drop (i * stride) s).
Proof. by intros [? _]%windows_from_lookup. Qed.

(** A chunk that has a successor is full, and its last [size - stride]
    characters are the first characters of the successor. *)
Lemma windows_overlap s i a b :
  (stride ≤ size)%nat →
  windows size stride s !! i = Some a → windows size stride s !! S i = Some b →
  length a = size ∧
  drop stride a = take (size - stride) b ∧
  length (take (size - stride) b) = (size - stride)%nat.
Proof.
  intros Hle Ha Hb.
  pose proof Ha as [-> Hlong]%windows_from_lookup. specialize (Hlong b Hb).
  apply windows_lookup in Hb as ->.
  replace (S i * stride)%nat with (i * stride + stride)%nat by lia.
  rewrite <- drop_drop.
  revert Hlong. generalize (drop (i * stride) s). intros t Hlong.
  split_and!.
  - rewrite length_take. lia.
  - rewrite take_take, Nat.min_l by lia. rewrite take_drop_commute.
    do 2 f_equal. lia.
  - rewrite take_take, Nat.min_l by lia. rewrite length_take, length_drop. lia.
Qed.

Lemma windows_at_least_two s :
  (stride ≤ size)%nat → (size < length s)%nat →
  (2 ≤ length (windows size stride s))%nat.
Proof.
  intros Hle Hlong. rewrite windows_long by done.
  assert (drop stride s ≠ []) as Hne%windows_nonempty.
  { intros Hnil%(f_equal length). rewrite length_drop in Hnil. simpl in Hnil. lia. }
  destruct (windows size stride (drop stride s)); [done|]. simpl. lia.
Qed.

End Windows.

(** The splitter on text without whitespace. *)
Section Split.
Variables chunk_size chunk_overlap : Z.
Hypothesis overlap_nonneg : 0 ≤ chunk_overlap.
Hypothesis overlap_small : chunk_overlap < chunk_size.
Hypothesis size_big : 1 < chunk_size.

Let size := Z.to_nat chunk_size.
Let stride := Z.to_nat (chunk_size - chunk_overlap).

Lemma len_chars s : len (chars s) = len s.
Proof. unfold len, chars. by rewrite length_fmap. Qed.

Lemma chars_app (s t : text) : chars (s ++ t) = chars s ++ chars t.
Proof. apply fmap_app. Qed.

Lemma concat_chars s : concat ((λ p : text, [] ++ p) <$> chars s) = s.
Proof. induction s as [|c s IH]; [done|]. simpl. by f_equal. Qed.

Lemma join_chars s : join [] (chars s) = s.
Proof.
  unfold join. destruct s as [|c s]; [done|].
  cbn [chars fmap list_fmap]. fold (chars s). rewrite concat_chars. done.
Qed.

Lemma lstrip_no_space s : no_space s → lstrip s = s.
Proof. destruct 1 as [|c s Hc]; [done|]. simpl. by rewrite Hc. Qed.

Lemma strip_no_space s : no_space s → strip_chars s = s.
Proof.
  intros Hs. unfold strip_chars. rewrite (lstrip_no_space s) by done.
  rewrite lstrip_no_space by (by apply Forall_reverse).
  apply reverse_involutive.
Qed.

Lemma join_docs_chars s :
  no_space s → _join_docs (chars s) [] = match s with [] => None | _ => Some s end.
Proof. intros Hs. unfold _join_docs. by rewrite join_chars, strip_no_space. Qed.

Lemma pop_front_stop cur total :
  total ≤ chunk_overlap →
  pop_front chunk_size chunk_overlap 0 1 cur total = (cur, total).
Proof.
  intros Hle.
  assert (bool_decide (chunk_overlap < total) = false) as H1
    by (apply bool_decide_eq_false; lia).
  destruct cur as [|d cur]; cbn [pop_front]; rewrite H1; simpl orb.
  - rewrite andb_false_intro1; [done|]. apply bool_decide_eq_false.
    case_bool_decide; lia.
  - rewrite andb_false_intro1; [done|]. apply bool_decide_eq_false.
    case_bool_decide; lia.
Qed.

Lemma pop_front_pop c cur total :
  chunk_overlap < total →
  pop_front chunk_size chunk_overlap 0 1 ([c] :: cur) total =
  pop_front chunk_size chunk_overlap 0 1 cur (total - 1).
Proof.
  intros Hlt. cbn [pop_front].
  rewrite (bool_decide_eq_true_2 (chunk_overlap < total)) by done. simpl orb. cbv iota.
  f_equal. unfold len. simpl. case_bool_decide; lia.
Qed.

(** The inner loop keeps the last [chunk_overlap] characters. *)
Lemma pop_front_chars s :
  pop_front chunk_size chunk_overlap 0 1 (chars s) (len s) =
  if bool_decide (len s ≤ chunk_overlap) then (chars s, len s)
  else (chars (drop (length s - Z.to_nat chunk_overlap) s), chunk_overlap).
Proof.
  induction s as [|c s IH].
  - rewrite pop_front_stop by (unfold len; simpl; lia).
    rewrite bool_decide_eq_true_2; [done|]. unfold len. simpl. lia.
  - assert (len (c :: s) = len s + 1) as Hlen by (unfold len; simpl; lia).
    change (chars (c :: s)) with ([c] :: chars s).
    destruct (decide (len (c :: s) ≤ chunk_overlap)) as [Hsmall|Hbig].
    + rewrite bool_decide_eq_true_2 by done. by apply pop_front_stop.
    + rewrite bool_decide_eq_false_2 by done.
      rewrite pop_front_pop by lia.
      replace (len (c :: s) - 1) with (len s) by lia.
      rewrite IH. unfold len in *. cbn [length] in *. case_bool_decide as H2.
      * replace (S (length s) - Z.to_nat chunk_overlap)%nat with 1%nat by lia.
        simpl. rewrite drop_0. f_equal. lia.
      * replace (S (length s) - Z.to_nat chunk_overlap)%nat
          with (S (length s - Z.to_nat chunk_overlap))%nat by lia. done.
Qed.

(** The merging loop over one-character pieces: with [cur] collected and
    [rest] to come, it emits the windows of [cur ++ rest]. *)
Lemma merge_loop_chars rest : ∀ docs cur,
  no_space (cur ++ rest) → len cur ≤ chunk_size →
  merge_loop chunk_size chunk_overlap [] (chars rest) docs (chars cur) (len cur) =
  docs ++ windows size stride (cur ++ rest).
Proof.
  assert (0 < stride)%nat as Hstride by (unfold stride; lia).
  induction rest as [|c rest IH]; intros docs cur Hns Hlen.
  - rewrite app_nil_r in *. cbn [chars fmap list_fmap merge_loop].
    rewrite join_docs_chars by done.
    destruct cur as [|d cur]; [by rewrite app_nil_r|].
    rewrite windows_short; [done..|]. unfold len, size in *. lia.
  - change (chars (c :: rest)) with ([c] :: chars rest). cbn [merge_loop].
    rewrite len_chars. change (len [c]) with 1. change (len []) with 0.
    replace (len cur + 1 + (if bool_decide (0 < len cur) then 0 else 0))
      with (len cur + 1) by (case_bool_decide; lia).
    assert (no_space cur) as Hcur by (by apply Forall_app in Hns as [? ?]).
    destruct (decide (chunk_size < len cur + 1)) as [Hfull|Hroom].
    + rewrite bool_decide_eq_true_2 by done.
      rewrite bool_decide_eq_true_2 by lia.
      rewrite join_docs_chars by done.
      destruct cur as [|d cur'] eqn:Hcur_eq; [unfold len in *; simpl in *; lia|].
      rewrite <- Hcur_eq in *. clear Hcur_eq d cur'.
      rewrite pop_front_chars, bool_decide_eq_false_2 by lia.
      assert (length cur = size) as Hsize by (unfold len, size in *; lia).
      replace (length cur - Z.to_nat chunk_overlap)%nat with stride
        by (unfold stride, size in *; lia).
      change [[c]] with (chars [c]). rewrite <- chars_app, len_chars.
      replace (chunk_overlap +
               (1 + (if bool_decide (1 < len (drop stride cur ++ [c])) then 0 else 0)))
        with (len (drop stride cur ++ [c])).
      2:{ unfold len. rewrite length_app, length_drop. simpl.
          case_bool_decide; unfold stride, size in *; lia. }
      rewrite IH.
      * rewrite <- app_assoc. f_equal.
        rewrite (windows_long size stride Hstride (cur ++ c :: rest))
          by (rewrite length_app; simpl; lia).
        rewrite take_app_length' by done.
        rewrite drop_app_le by lia. by rewrite <- app_assoc.
      * rewrite <- app_assoc. apply Forall_app. apply Forall_app in Hns as [H1 H2].
        split; [by apply Forall_drop|done].
      * unfold len. rewrite length_app, length_drop. simpl.
        unfold stride, size in *. lia.
    + rewrite bool_decide_eq_false_2 by done.
      change [[c]] with (chars [c]). rewrite <- (chars_app cur [c]), len_chars.
      replace (len cur + (1 + (if bool_decide (1 < len (cur ++ [c])) then 0 else 0)))
        with (len (cur ++ [c])).
      2:{ unfold len. rewrite length_app. simpl. case_bool_decide; lia. }
      rewrite IH.
      * by rewrite <- app_assoc.
      * by rewrite <- app_assoc.
      * unfold len in *. rewrite length_app. simpl. lia.
Qed.

Lemma contains_space separator s c sep :
  separator = c :: sep → isspace c = true → no_space s →
  contains separator s = false.
Proof.
  intros -> Hc. induction 1 as [|d s Hd Hs IH]; cbn [contains].
  - rewrite bool_decide_eq_false_2; [done|]. by intros ?%prefix_nil_not.
  - rewrite bool_decide_eq_false_2; [done|].
    intros ?%prefix_cons_inv_1. congruence.
Qed.

Lemma split_with_empty_separator s : _split_text_with_regex s [] = chars s.
Proof.
  unfold _split_text_with_regex, chars.
  induction s as [|c s IH]; [done|]. cbn [fmap list_fmap].
  rewrite filter_cons_True by done. f_equal. apply IH.
Qed.

Lemma split_loop_chars s : ∀ good,
  split_loop chunk_size chunk_overlap None (chars s) (chars good) =
  match good ++ s with
  | [] => []
  | _ => _merge_splits chunk_size chunk_overlap (chars (good ++ s)) []
  end.
Proof.
  induction s as [|c s IH]; intros good.
  - rewrite app_nil_r. by destruct good.
  - change (chars (c :: s)) with ([c] :: chars s). cbn [split_loop].
    rewrite bool_decide_eq_true_2 by (unfold len; simpl; lia).
    change [[c]] with (chars [c]). rewrite <- chars_app, IH, <- app_assoc. done.
Qed.

(** Without whitespace no separator but the empty one applies, and the
    splitter cuts windows. *)
Lemma split_text_no_space s :
  no_space s →
  _split_text chunk_size chunk_overlap separators s = windows size stride s.
Proof.
  intros Hs.
  assert (separators = [[10; 10]; [10]; [32]; []]%N) as -> by reflexivity.
  cbn [_split_text].
  rewrite !(contains_space _ s 10%N _ eq_refl eq_refl Hs).
  rewrite (contains_space _ s 32%N _ eq_refl eq_refl Hs).
  rewrite split_with_empty_separator.
  pose proof (split_loop_chars s []) as Hloop.
  change (chars []) with (@nil text) in Hloop. rewrite Hloop, app_nil_l. clear Hloop.
  destruct (decide (s = [])) as [->|Hne]; [done|].
  replace (match s with
           | [] => []
           | _ => _merge_splits chunk_size chunk_overlap (chars s) []
           end)
    with (_merge_splits chunk_size chunk_overlap (chars s) []) by (by destruct s).
  unfold _merge_splits.
  apply (merge_loop_chars s [] []); [done|unfold len; simpl; lia].
Qed.

End Split.

Lemma split_text_windows s :
  no_space s →
  split_text CHUNK_SIZE CHUNK_OVERLAP s =
  windows (Z.to_nat CHUNK_SIZE) (Z.to_nat (CHUNK_SIZE - CHUNK_OVERLAP)) s.
Proof. intros Hs. unfold split_text. by apply split_text_no_space. Qed.

Lemma no_space_repeated n c : isspace (N_of_ascii c) = false → no_space (repeated n c).
Proof. intros Hc. by apply Forall_replicate. Qed.

(** C5, amended.  For every document body that contains no white space
    (no character that [str.isspace] accepts), the splitter of
    [split_docs] cuts by length with a fixed stride: chunk [i] is the
    longest prefix of at most CHUNK_SIZE characters of the text from
    position [i * (CHUNK_SIZE - CHUNK_OVERLAP)] on; consecutive chunks
    overlap by exactly CHUNK_OVERLAP characters (the chunk before is full
    and its last CHUNK_OVERLAP characters open the next one); a body that
    is not empty yields a chunk, and a body of length 2·CHUNK_SIZE yields at
    least two.  Characters are code points, as [len] counts them.  (A
    body with white space is cut at paragraph, line and word separators
    instead.) *)
Theorem fixed_stride_without_whitespace (s : text) :
  no_space s →
  let size := Z.to_nat CHUNK_SIZE in
  let overlap := Z.to_nat CHUNK_OVERLAP in
  let stride := (size - overlap)%nat in
  let chunks := split_text CHUNK_SIZE CHUNK_OVERLAP s in
  chunks = windows size stride s ∧
  (∀ i chunk, chunks !! i = Some chunk →
     chunk = take size (drop (i * stride) s)) ∧
  (∀ i a b, chunks !! i = Some a → chunks !! S i = Some b →
     length a = size ∧
     drop stride a = take overlap b ∧
     length (take overlap b) = overlap) ∧
  (s ≠ [] → chunks ≠ []) ∧
  (length s = (2 * size)%nat → (2 ≤ length chunks)%nat).
Proof.
  intros Hs size overlap stride chunks.
  assert (Z.to_nat (CHUNK_SIZE - CHUNK_OVERLAP) = stride) as Hstride by done.
  assert (0 < stride)%nat as Hpos by (unfold stride, size, overlap; vm_compute; lia).
  assert (stride ≤ size)%nat as Hle by (unfold stride; lia).
  assert (overlap = size - stride)%nat as Hov
    by (unfold stride, size, overlap; vm_compute; lia).
  assert (chunks = windows size stride s) as Hchunks
    by (unfold chunks; rewrite split_text_windows by done; by rewrite Hstride).
  split_and!.
  - done.
  - intros i chunk. rewrite Hchunks. by apply windows_lookup.
  - intros i a b. rewrite Hchunks, Hov. by apply windows_overlap.
  - intros Hne. rewrite Hchunks. by apply windows_nonempty.
  - intros Hlen. rewrite Hchunks.
    apply windows_at_least_two; [done..|].
    rewrite Hlen. unfold size. vm_compute. lia.
Qed.

(** The theorem at a word of 1000 characters: three chunks, which start
    at the positions 0, 450 and 900; the first two are full, and the last
    50 characters of each open the next one. *)
Lemma fixed_stride_without_whitespace_witness :
  no_space (repeated 1000 "a") ∧
  split_text CHUNK_SIZE CHUNK_OVERLAP (repeated 1000 "a")
    = [take 500 (repeated 1000 "a");
       take 500 (drop 450 (repeated 1000 "a"));
       take 500 (drop 900 (repeated 1000 "a"))] ∧
  ∃ a b c,
    split_text CHUNK_SIZE CHUNK_OVERLAP (repeated 1000 "a") = [a; b; c] ∧
    (length a = 500 ∧ drop 450 a = take 50 b ∧ length (take 50 b) = 50)%nat ∧
    (length b = 500 ∧ drop 450 b = take 50 c ∧ length (take 50 c) = 50)%nat ∧
    length c = 100%nat.
Proof.
  assert (no_space (repeated 1000 "a")) as Hs by (by apply no_space_repeated).
  destruct (fixed_stride_without_whitespace (repeated 1000 "a") Hs)
    as (Hwin & Hat & Hover & _ & _).
  split; [exact Hs|]. split; [vm_compute; reflexivity|].
  eexists _, _, _. split; [vm_compute; reflexivity|].
  split; [|split].
  - apply (Hover 0%nat); vm_compute; reflexivity.
  - apply (Hover 1%nat); vm_compute; reflexivity.
  - vm_compute. reflexivity.
Defined.

(** A word of 1000 characters: three windows at stride 450. *)
Example long_word_chunks :
  length <$> split_text CHUNK_SIZE CHUNK_OVERLAP (repeated 1000 "a")
  = [500; 500; 100]%nat.
Proof. vm_compute. reflexivity. Qed.

(** C5 as stated fails.  The body [two_paragraphs] has length 2·CHUNK_SIZE;
    it is split at the blank line into the two paragraphs: the first chunk
    is not the longest prefix of at most CHUNK_SIZE characters, and the two
    chunks share no text. *)
Lemma paragraph_split_counterexample :
  length two_paragraphs = Z.to_nat (2 * CHUNK_SIZE) ∧
  split_text CHUNK_SIZE CHUNK_OVERLAP two_paragraphs
    = [repeated 499 "a"; repeated 499 "b"] ∧
  repeated 499 "a" ≠ take (Z.to_nat CHUNK_SIZE) two_paragraphs ∧
  drop (Z.to_nat (CHUNK_SIZE - CHUNK_OVERLAP)) (repeated 499 "a")
    ≠ take (Z.to_nat CHUNK_OVERLAP) (repeated 499 "b").
Proof.
  split_and!.
  - vm_compute. reflexivity.
  - vm_compute. reflexivity.
  - intros H%(f_equal length). vm_compute in H. discriminate.
  - intros H%(f_equal head). vm_compute in H. discriminate.
Qed.

(** C2, amended.  [split_docs] does not tag chunks: the metadata of every
    chunk is the metadata of its document with [chunk_index] and [chunk_id]
    added, so a chunk has a [chunk_type] only if the front matter of its
    document has one, and then that value, whether the document yields one
    chunk or several. *)
Theorem chunk_metadata_of_document documents chunk :
  chunk ∈ split_docs documents →
  ∃ doc i,
    doc ∈ documents ∧
    split_text CHUNK_SIZE CHUNK_OVERLAP (content doc) !! i = Some (RagSearch.text chunk) ∧
    chunk = make_chunk doc i (RagSearch.text chunk) ∧
    chunk_metadata chunk !! "chunk_type" = metadata doc !! "chunk_type" ∧
    chunk_metadata chunk !! "chunk_index" = Some (VScalar (SInt (Z.of_nat i))).
Proof.
  unfold split_docs. intros (doc & Hchunk & Hdoc)%list_elem_of_bind.
  unfold split_doc in Hchunk.
  apply elem_of_lookup_imap in Hchunk as (i & chunk_text & -> & Hi).
  exists doc, i. split_and!; try done.
  - unfold make_chunk. simpl. by rewrite !lookup_insert_ne.
  - unfold make_chunk. simpl. by rewrite lookup_insert_ne, lookup_insert_eq.
Qed.

(** The theorem at the only chunk of [short_note]. *)
Lemma chunk_metadata_of_document_witness :
  ∃ chunk, split_docs [short_note] = [chunk] ∧
  ∃ doc i,
    doc ∈ [short_note] ∧
    split_text CHUNK_SIZE CHUNK_OVERLAP (content doc) !! i = Some (RagSearch.text chunk) ∧
    chunk = make_chunk doc i (RagSearch.text chunk) ∧
    chunk_metadata chunk !! "chunk_type" = metadata doc !! "chunk_type" ∧
    chunk_metadata chunk !! "chunk_index" = Some (VScalar (SInt (Z.of_nat i))).
Proof.
  eexists. split; [vm_compute; reflexivity|].
  apply (chunk_metadata_of_document [short_note]).
  vm_compute. left.
Defined.

(** C2 as stated fails.  [short_note] yields one chunk and [long_note] two;
    none of them has a [chunk_type]. *)
Lemma chunk_type_counterexample :
  (∃ chunk, split_docs [short_note] = [chunk] ∧
            chunk_metadata chunk !! "chunk_type" = None) ∧
  (∃ first second, split_docs [long_note] = [first; second] ∧
            chunk_metadata first !! "chunk_type" = None ∧
            chunk_metadata second !! "chunk_type" = None).
Proof.
  split.
  - eexists. split; [vm_compute; reflexivity|]. vm_compute. reflexivity.
  - eexists _, _. split; [vm_compute; reflexivity|]. split; vm_compute; reflexivity.
Qed.

End ChunkingFacts.

(** * Properties of the index update *)

Module IndexerFacts.

Import RagSearch Indexer Selection Example Sample.

Lemma load_files_parsed files : ∀ documents,
  load_files files documents = documents ++ parsed (filter (λ f, is_markdown f) files).
Proof.
  induction files as [|f rest IH]; intros documents; simpl.
  - by rewrite app_nil_r.
  - destruct (endswith (rel_path f) ".md") eqn:Hmd.
    + rewrite filter_cons_True by (apply Is_true_true_2, Hmd).
      unfold parsed at 1. simpl.
      destruct (load f) as [post|e]; rewrite IH; [|done].
      by rewrite <- app_assoc.
    + rewrite filter_cons_False by (apply Is_true_false_2, Hmd). apply IH.
Qed.

(** The loop of the incremental loader over files whose modification
    time can be read. *)
Lemma load_files_since_examinable timestamp files : ∀ documents found_files,
  examinable files →
  ∃ found,
    load_files_since timestamp files documents found_files =
    Val (documents ++
           parsed (filter (λ f, is_markdown f ∧ modified_since timestamp f) files),
         found).
Proof.
  induction files as [|f rest IH]; intros documents found_files Hex; simpl.
  - exists found_files. by rewrite app_nil_r.
  - assert (examinable rest) as Hrest by (intros g Hg; apply Hex; by right).
    destruct (endswith (rel_path f) ".md") eqn:Hmd.
    + destruct (Hex f) as [mtime Hm];
        [by left|unfold is_markdown; by rewrite Hmd|].
      rewrite Hm. case_bool_decide as Hnew.
      * rewrite filter_cons_True.
        2:{ split; [unfold is_markdown; by rewrite Hmd|].
            unfold modified_since. rewrite Hm. by apply bool_decide_pack. }
        unfold parsed at 1. simpl.
        destruct (load f) as [post|e].
        -- destruct (IH (documents ++ [with_source (rel_path f) post]) true Hrest)
             as [found ->].
           exists found. by rewrite <- app_assoc.
        -- apply IH, Hrest.
      * rewrite filter_cons_False.
        2:{ intros [_ Hmod]. unfold modified_since in Hmod. rewrite Hm in Hmod.
            by apply bool_decide_unpack in Hmod. }
        apply IH, Hrest.
    + rewrite filter_cons_False
        by (intros [?%Is_true_true_1 _]; unfold is_markdown in *; congruence).
      apply IH, Hrest.
Qed.

(** The loop returns only when it could read the modification time of
    every markdown file. *)
Lemma load_files_since_returns timestamp files : ∀ documents found_files r,
  load_files_since timestamp files documents found_files = Val r → examinable files.
Proof.
  induction files as [|f rest IH]; intros documents found_files r; simpl.
  - intros _ g Hg. by apply elem_of_nil in Hg.
  - intros Hrun.
    assert (examinable rest ∧ (is_markdown f → ∃ mtime, getmtime f = Val mtime))
      as [Hrest Hf].
    { unfold is_markdown. destruct (endswith (rel_path f) ".md").
      - destruct (getmtime f) as [mtime|e]; [|done].
        split; [|by eexists].
        destruct (bool_decide (timestamp < mtime)); [destruct (load f)|];
          by eapply IH.
      - split; [by eapply IH|done]. }
    intros g [->|Hg]%elem_of_cons; [done|by apply Hrest].
Qed.

Lemma load_markdown_docs_since_examinable clock directory_path timestamp :
  clock timestamp = Val () → examinable (files_of directory_path) →
  load_markdown_docs_since clock directory_path timestamp =
  Val (parsed (filter (λ f, is_markdown f ∧ modified_since timestamp f)
                 (files_of directory_path))).
Proof.
  intros Hclock Hex. unfold load_markdown_docs_since, files_of in *.
  destruct directory_path as [files|]; simpl in *; [|done].
  destruct (load_files_since_examinable timestamp files [] false Hex) as [found ->].
  rewrite Hclock. by destruct found.
Qed.

Lemma load_markdown_docs_since_returns clock directory_path timestamp documents :
  load_markdown_docs_since clock directory_path timestamp = Val documents →
  examinable (files_of directory_path) ∧
  documents = parsed (filter (λ f, is_markdown f ∧ modified_since timestamp f)
                        (files_of directory_path)).
Proof.
  unfold load_markdown_docs_since, files_of.
  destruct directory_path as [files|]; simpl.
  2:{ intros [= <-]. split; [|done]. intros g Hg. by apply elem_of_nil in Hg. }
  destruct (load_files_since timestamp files [] false) as [[docs found]|e] eqn:Hrun;
    [|done].
  pose proof (load_files_since_returns _ _ _ _ _ Hrun) as Hex.
  destruct (load_files_since_examinable timestamp files [] false Hex) as [found' Hrun'].
  rewrite Hrun in Hrun'. injection Hrun' as -> _.
  intros Hdocs. split; [done|].
  destruct found; [congruence|]. destruct (clock timestamp); congruence.
Qed.

(** A markdown file whose modification time cannot be read ends the
    incremental loading with its exception. *)
Lemma load_markdown_docs_since_raises clock directory_path timestamp :
  ¬ examinable (files_of directory_path) →
  ∃ e, load_markdown_docs_since clock directory_path timestamp = Raise e.
Proof.
  intros Hex.
  destruct (load_markdown_docs_since clock directory_path timestamp) as [docs|e] eqn:Hrun;
    [|by eexists].
  by apply load_markdown_docs_since_returns in Hrun as [? _].
Qed.

Lemma ctime_unit w t r : ctime w t = Val r → ctime w t = Val ().
Proof. by destruct r. Qed.

(** The files that a run selects, and when its loading returns.  A full
    run hands all markdown files of the journal to [frontmatter.load],
    whatever the watermark.  An incremental run returns exactly when
    [time.ctime] takes the watermark and the modification time of every
    markdown file can be read; the files handed to [frontmatter.load] are
    then exactly the markdown files whose modification time is strictly
    greater than the watermark.  The documents of a run are those of the
    selected files that parse. *)
Lemma selection_by_watermark (file : string) (w : World) :
  load_documents (rag_search file) true w = Val (parsed (selected true w)) ∧
  (ctime w (get_last_indexed_time w) = Val () → examinable (files_of (journal w)) →
     load_documents (rag_search file) false w = Val (parsed (selected false w))) ∧
  (∀ documents, load_documents (rag_search file) false w = Val documents →
     ctime w (get_last_indexed_time w) = Val () ∧
     examinable (files_of (journal w)) ∧
     documents = parsed (selected false w)) ∧
  (∀ f, f ∈ selected false w ↔
        f ∈ files_of (journal w) ∧ is_markdown f ∧
        ∃ mtime, getmtime f = Val mtime ∧ get_last_indexed_time w < mtime) ∧
  (∀ f, f ∈ selected true w ↔ f ∈ files_of (journal w) ∧ is_markdown f) ∧
  ((∀ f mtime, f ∈ files_of (journal w) → getmtime f = Val mtime →
               mtime ≤ get_last_indexed_time w) →
     selected false w = []) ∧
  (∀ stamp, selected true (with_timestamp_file w stamp) = selected true w).
Proof.
  assert (∀ f, f ∈ selected false w ↔
        f ∈ files_of (journal w) ∧ is_markdown f ∧
        ∃ mtime, getmtime f = Val mtime ∧ get_last_indexed_time w < mtime)
    as Hsel.
  { intros f. unfold selected. rewrite list_elem_of_filter. unfold modified_since.
    destruct (getmtime f) as [mtime|e].
    - rewrite bool_decide_spec. naive_solver.
    - naive_solver. }
  split_and!; try done.
  - unfold load_documents, selected, files_of. simpl. unfold RagSearch.load_markdown_docs.
    destruct (journal w) as [files|]; simpl; [|done].
    by rewrite load_files_parsed.
  - intros Hclock Hex. unfold load_documents. rewrite Hclock.
    by apply load_markdown_docs_since_examinable.
  - intros documents. unfold load_documents.
    destruct (ctime w (get_last_indexed_time w)) as [[]|e] eqn:Hclock; [|done].
    intros [Hex ->]%load_markdown_docs_since_returns. done.
  - intros f. unfold selected. rewrite list_elem_of_filter. naive_solver.
  - intros Hold. apply elem_of_nil_inv. intros f (Hf & _ & mtime & Hm & Hnew)%Hsel.
    specialize (Hold f mtime Hf Hm). lia.
Qed.

(** The lemma at [journal_world] (watermark 200) and at the same world
    with watermark 1000. *)
Example selection_at_journal_world file :
  load_documents (rag_search file) false journal_world
    = Val (parsed (selected false journal_world)) ∧
  rel_path <$> selected false journal_world = ["b.md"; "broken.md"] ∧
  rel_path <$> selected true journal_world = ["2025/a.md"; "b.md"; "broken.md"] ∧
  selected false (with_timestamp_file journal_world (Stamp 1000)) = [].
Proof. split_and!; reflexivity. Qed.

(** C8.  An incremental run over [linked_world] does not load the entry
    [b.md], a markdown file whose modification time 300 is strictly
    greater than the watermark 200: the link [link.md], which points to
    nothing, is walked first, [os.path.getmtime] raises for it outside
    the [try] of the loop, and the run returns success false with that
    exception; the store is not called and the watermark stays.  The
    full run over the same journal skips the link and indexes [b.md]. *)
Theorem dangling_link_stops_incremental_run (file : string) :
  let b := {| rel_path := "b.md"; getmtime := Val 300; load := Val entry_b |} in
  let e := "[Errno 2] No such file or directory: 'journal/link.md'" in
  get_last_indexed_time linked_world = 200 ∧
  b ∈ files_of (journal linked_world) ∧ is_markdown b ∧ modified_since 200 b ∧
  load_documents (rag_search file) false linked_world = Raise e ∧
  JournalRag.update_journal_index (Some (rag_search file)) false linked_world
    = ((false, "Error updating index: " +:+ e), linked_world) ∧
  load_documents (rag_search file) true linked_world = Val [entry_b] ∧
  (JournalRag.update_journal_index (Some (rag_search file)) true linked_world).1
    = (true, "Successfully indexed 1 chunks from 1 files.").
Proof.
  intros b e. split_and!; try reflexivity; try exact I.
  right. left.
Qed.

(** The same happens with any journal: an incremental run stops at the
    first markdown file whose modification time cannot be read, while the
    full run does not look at modification times. *)
Lemma unexaminable_file_stops_incremental_run file w :
  ctime w (get_last_indexed_time w) = Val () →
  ¬ examinable (files_of (journal w)) →
  ∃ e, load_documents (rag_search file) false w = Raise e ∧
       JournalRag.update_journal_index (Some (rag_search file)) false w
         = ((false, "Error updating index: " +:+ e), w).
Proof.
  intros Hclock Hex.
  destruct (load_markdown_docs_since_raises (ctime w) (journal w)
              (get_last_indexed_time w) Hex) as [e He].
  exists e.
  assert (load_documents (rag_search file) false w = Raise e) as Hload
    by (unfold load_documents; by rewrite Hclock).
  split; [done|].
  unfold JournalRag.update_journal_index, update_journal_index.
  change (import_from (Some (rag_search file)) JournalRag.imports)
    with (Val (rag_search file)).
  cbv beta iota. unfold bind at 1. unfold prepare, bind. by rewrite Hload.
Qed.

(** So does a watermark that [time.ctime] refuses. *)
Lemma refused_watermark_stops_incremental_run file w e :
  ctime w (get_last_indexed_time w) = Raise e →
  load_documents (rag_search file) false w = Raise e ∧
  JournalRag.update_journal_index (Some (rag_search file)) false w
    = ((false, "Error updating index: " +:+ e), w).
Proof.
  intros Hclock.
  assert (load_documents (rag_search file) false w = Raise e) as Hload
    by (unfold load_documents; by rewrite Hclock).
  split; [done|].
  unfold JournalRag.update_journal_index, update_journal_index.
  change (import_from (Some (rag_search file)) JournalRag.imports)
    with (Val (rag_search file)).
  cbv beta iota. unfold bind at 1. unfold prepare, bind. by rewrite Hload.
Qed.

Lemma import_missing_name found wanted name :
  name ∈ wanted → (∀ m, found = Some m → name ∉ names m) →
  ∃ e, import_from found wanted = Raise e.
Proof.
  intros Hin Hmiss. unfold import_from. destruct found as [m|]; [|by eexists].
  destruct (filter (λ n, n ∉ names m) wanted) as [|n rest] eqn:Hf; [|by eexists].
  assert (name ∈ filter (λ n, n ∉ names m) wanted) as Hname
    by (apply list_elem_of_filter; split; [by apply Hmiss|done]).
  rewrite Hf in Hname. by apply elem_of_nil in Hname.
Qed.

(** C10.  In the legacy server, whatever [full_reindex] is,
    [update_journal_index] returns success false with the message of the
    import error and leaves everything as it was (no call to the embedding
    model or to the store, the watermark untouched), whenever the module
    found for [rag_search] does not define [create_semantic_chunks]. *)
Theorem legacy_update_stops_at_import found full_reindex w :
  (∀ m, found = Some m → "create_semantic_chunks" ∉ names m) →
  ∃ e, import_from found Legacy.imports = Raise e ∧
       Legacy.update_journal_index found full_reindex w =
         ((false, "Error importing from rag_search.py: " +:+ e), w).
Proof.
  intros Hmiss.
  destruct (import_missing_name found Legacy.imports "create_semantic_chunks")
    as [e He]; [set_solver|done|].
  exists e. split; [done|].
  unfold Legacy.update_journal_index, update_journal_index. by rewrite He.
Qed.

Lemma rag_search_lacks_create_semantic_chunks file m :
  Some (rag_search file) = Some m → "create_semantic_chunks" ∉ names m.
Proof. intros [= <-]. apply (bool_decide_unpack _). vm_compute. exact I. Qed.

(** The theorem at [rag_search.py] of the repository, found at some
    path. *)
Lemma legacy_update_stops_at_import_witness :
  ∃ e, import_from (Some (rag_search ".tech/code/scripts/rag_search.py")) Legacy.imports
         = Raise e ∧
       Legacy.update_journal_index (Some (rag_search ".tech/code/scripts/rag_search.py"))
           true journal_world =
         ((false, "Error importing from rag_search.py: " +:+ e), journal_world).
Proof.
  apply (legacy_update_stops_at_import
           (Some (rag_search ".tech/code/scripts/rag_search.py")) true journal_world).
  intros m [= <-]. apply (bool_decide_unpack _). vm_compute. exact I.
Defined.

(** The message with the module of the repository, found at the path
    [file], and with no module. *)
Example legacy_import_error_message file full_reindex w :
  Legacy.update_journal_index (Some (rag_search file)) full_reindex w =
    ((false, "Error importing from rag_search.py: cannot import name 'create_semantic_chunks' from 'rag_search' ("
               +:+ file +:+ ")"), w) ∧
  Legacy.update_journal_index None full_reindex w =
    ((false, "Error importing from rag_search.py: No module named 'rag_search'"), w).
Proof. split; reflexivity. Qed.

(** The current server imports only names that the module defines. *)
Example current_import_succeeds file :
  import_from (Some (rag_search file)) JournalRag.imports = Val (rag_search file).
Proof. reflexivity. Qed.

(** What [update_last_indexed_time] leaves in the timestamp file: the
    file as it was, the current time, or what a write that failed after
    the file was opened has left. *)
Lemma update_last_indexed_time_file w :
  timestamp_file (update_last_indexed_time w).2 = timestamp_file w ∨
  timestamp_file (update_last_indexed_time w).2 = Stamp (time w) ∨
  ∃ e remains, timestamp_write_error w = Some (AfterOpen e remains) ∧
               timestamp_file (update_last_indexed_time w).2 = remains.
Proof.
  unfold update_last_indexed_time.
  destruct (timestamp_write_error w) as [[e|e remains]|]; simpl;
    [by left|right; right; by exists e, remains|right; by left].
Qed.

Lemma on_services_frame {A} (c : State → Res A * State) w r w1 :
  on_services c w = (r, w1) →
  timestamp_file w1 = timestamp_file w ∧ time w1 = time w ∧
  timestamp_write_error w1 = timestamp_write_error w.
Proof.
  unfold on_services. destruct (c (services w)) as [r' s]. by intros [= <- <-].
Qed.

(** Nothing before the call of [index_chunks] touches the watermark. *)
Lemma prepare_timestamp_file path m full_reindex w r w1 :
  prepare path m full_reindex w = (r, w1) →
  timestamp_file w1 = timestamp_file w ∧ time w1 = time w ∧
  timestamp_write_error w1 = timestamp_write_error w.
Proof.
  unfold prepare, bind, ret, pure. intros H.
  repeat (match type of H with
          | context [match ?x with _ => _ end] => destruct x eqn:?
          | context [if ?x then _ else _] => destruct x eqn:?
          end; simplify_eq/=; try done);
  repeat match goal with
         | H : on_services _ _ = _ |- _ => apply on_services_frame in H as (? & ? & ?)
         end; split_and!; congruence.
Qed.

(** [index_chunks] of [rag_search.py] reports success only after the
    upsert has returned. *)
Lemma index_chunks_true collection chunks embedding_model s s' :
  RagSearch.index_chunks collection chunks embedding_model s = (true, s') →
  ∃ c m embeddings c',
    collection = Some c ∧ embedding_model = Some m ∧
    Services.encode m (RagSearch.text <$> chunks) = Val embeddings ∧
    upsert c (zip_with make_item chunks embeddings) = Val c' ∧
    database s' = Val c' ∧
    calls s' = calls s ++ [CallEncode (RagSearch.text <$> chunks); CallUpsert (id <$> chunks)].
Proof.
  unfold RagSearch.index_chunks. intros H.
  destruct collection as [c|], chunks as [|ch chunks], embedding_model as [m|]; try done.
  destruct (Services.encode m _) as [embeddings|] eqn:Henc; [|done].
  case_bool_decide; [|done].
  destruct (upsert c _) as [c'|] eqn:Hup; [|done].
  simplify_eq. exists c, m, embeddings, c'. split_and!; try done.
  simpl. by rewrite <- app_assoc.
Qed.

(** It reports failure when the upsert raises. *)
Lemma index_chunks_upsert_error c chunks m s e :
  upsert_error c = Some e →
  (RagSearch.index_chunks (Some c) chunks (Some m) s).1 = false.
Proof.
  intros He. unfold RagSearch.index_chunks. destruct chunks; [done|].
  destruct (Services.encode m _); [|done]. case_bool_decide; [|done].
  unfold upsert. case_bool_decide; [by rewrite He|done].
Qed.

Lemma update_journal_index_cases found full_reindex w :
  let '(result, w') := JournalRag.update_journal_index found full_reindex w in
  (∀ m chroma_collection chunks embed_model files_processed w1 r s,
     import_from found JournalRag.imports = Val m →
     prepare JournalRag.CHROMA_DB_PATH m full_reindex w
       = (Val (ToIndex chroma_collection chunks embed_model files_processed), w1) →
     index_chunks m (Some chroma_collection) chunks (Some embed_model) (services w1) = (r, s) →
     r ≠ Val true →
     result.1 = false ∧ timestamp_file w' = timestamp_file w) ∧
  (timestamp_file w' = timestamp_file w ∨
   ∃ m chroma_collection chunks embed_model files_processed w1 s,
     import_from found JournalRag.imports = Val m ∧
     prepare JournalRag.CHROMA_DB_PATH m full_reindex w
       = (Val (ToIndex chroma_collection chunks embed_model files_processed), w1) ∧
     index_chunks m (Some chroma_collection) chunks (Some embed_model) (services w1)
       = (Val true, s) ∧
     result.1 = true ∧
     (timestamp_file w' = Stamp (time w) ∨
      ∃ e remains, timestamp_write_error w = Some (AfterOpen e remains) ∧
                   timestamp_file w' = remains)).
Proof.
  unfold JournalRag.update_journal_index, update_journal_index.
  destruct (import_from found JournalRag.imports) as [m|e] eqn:Himp.
  2:{ split; [intros; congruence|by left]. }
  unfold bind at 1.
  destruct (prepare JournalRag.CHROMA_DB_PATH m full_reindex w) as [[p|e] w1] eqn:Hprep.
  2:{ pose proof Hprep as (? & ? & ?)%prepare_timestamp_file.
      split; [intros; simplify_eq; congruence|by left]. }
  pose proof Hprep as (Hfile & Htime & Herr)%prepare_timestamp_file.
  destruct p as [result|c chunks em files]; simpl.
  { split; [intros; simplify_eq; congruence|by left]. }
  unfold bind, on_services, ret.
  destruct (index_chunks m (Some c) chunks (Some em) (services w1))
    as [[[]|e] s] eqn:Hidx; simpl.
  - destruct (update_last_indexed_time (with_services w1 s)) as [ok w2] eqn:Hup. simpl.
    split; [intros; simplify_eq; congruence|].
    pose proof (update_last_indexed_time_file (with_services w1 s)) as Hw.
    rewrite Hup in Hw. simpl in Hw. destruct Hw as [Hw|[Hw|(e & remains & He & Hw)]].
    + left. congruence.
    + right. exists m, c, chunks, em, files, w1, s. rewrite Hw, Htime.
      split_and!; try done. by left.
    + right. exists m, c, chunks, em, files, w1, s.
      split_and!; try done. right. exists e, remains. by rewrite <- Herr.
  - split; [intros; simplify_eq; done|by left].
  - split; [intros; simplify_eq; done|by left].
Qed.

(** C7.  For every run of [update_journal_index] that reaches
    [index_chunks], if [index_chunks] returns false or raises, the run
    returns success false and the watermark file is as before.  In every
    run the watermark file is unchanged, unless [index_chunks] has returned
    true: only then is it written, with the current time (when the write
    fails after the file has been opened for writing, the file holds what
    the failed write has left).  [index_chunks] of [rag_search.py] returns
    true only after the upsert has returned, and false whenever the upsert
    raises. *)
Theorem watermark_written_after_indexing found full_reindex w :
  let run := JournalRag.update_journal_index found full_reindex w in
  (∀ m chroma_collection chunks embed_model files_processed w1 r s,
     import_from found JournalRag.imports = Val m →
     prepare JournalRag.CHROMA_DB_PATH m full_reindex w
       = (Val (ToIndex chroma_collection chunks embed_model files_processed), w1) →
     index_chunks m (Some chroma_collection) chunks (Some embed_model) (services w1) = (r, s) →
     r ≠ Val true →
     run.1.1 = false ∧ timestamp_file run.2 = timestamp_file w) ∧
  (timestamp_file run.2 = timestamp_file w ∨
   ∃ m chroma_collection chunks embed_model files_processed w1 s,
     import_from found JournalRag.imports = Val m ∧
     prepare JournalRag.CHROMA_DB_PATH m full_reindex w
       = (Val (ToIndex chroma_collection chunks embed_model files_processed), w1) ∧
     index_chunks m (Some chroma_collection) chunks (Some embed_model) (services w1)
       = (Val true, s) ∧
     run.1.1 = true ∧
     (timestamp_file run.2 = Stamp (time w) ∨
      ∃ e remains, timestamp_write_error w = Some (AfterOpen e remains) ∧
                   timestamp_file run.2 = remains)) ∧
  (∀ collection chunks embedding_model s s',
     RagSearch.index_chunks collection chunks embedding_model s = (true, s') →
     ∃ c m embeddings c',
       collection = Some c ∧ embedding_model = Some m ∧
       Services.encode m (RagSearch.text <$> chunks) = Val embeddings ∧
       upsert c (zip_with make_item chunks embeddings) = Val c' ∧
       database s' = Val c') ∧
  (∀ c chunks m s e,
     upsert_error c = Some e →
     (RagSearch.index_chunks (Some c) chunks (Some m) s).1 = false).
Proof.
  intros run. pose proof (update_journal_index_cases found full_reindex w) as Hrun.
  subst run. destruct (JournalRag.update_journal_index found full_reindex w) as [result w'].
  destruct Hrun as [Hfail Hwrite]. simpl.
  split_and!; [exact Hfail|exact Hwrite| |apply index_chunks_upsert_error].
  intros ????? (c & m & embs & c' & ? & ? & ? & ? & ? & _)%index_chunks_true.
  by exists c, m, embs, c'.
Qed.

(** The theorem at [failing_world], whose store raises on upsert: the run
    fails and the watermark stays at 200. *)
Lemma watermark_written_after_indexing_witness :
  (JournalRag.update_journal_index (Some (rag_search "code/scripts/rag_search.py"))
     false failing_world).1.1 = false ∧
  timestamp_file (JournalRag.update_journal_index
                    (Some (rag_search "code/scripts/rag_search.py")) false failing_world).2
    = Stamp 200.
Proof.
  eapply (watermark_written_after_indexing
            (Some (rag_search "code/scripts/rag_search.py")) false failing_world).
  - reflexivity.
  - vm_compute. reflexivity.
  - vm_compute. reflexivity.
  - discriminate.
Defined.

(** With a store that accepts the upsert the watermark moves to the
    current time. *)
Example successful_run_advances_watermark file :
  (JournalRag.update_journal_index (Some (rag_search file)) false journal_world).1
    = (true, "Successfully indexed 1 chunks from 1 files.") ∧
  timestamp_file
    (JournalRag.update_journal_index (Some (rag_search file)) false journal_world).2
    = Stamp 500.
Proof. split; vm_compute; reflexivity. Qed.

(** On a disk without room the run reports success and the emptied
    timestamp file reads as the watermark 0. *)
Example failed_write_resets_watermark file :
  (JournalRag.update_journal_index (Some (rag_search file)) false full_disk_world).1.1
    = true ∧
  get_last_indexed_time
    (JournalRag.update_journal_index (Some (rag_search file)) false full_disk_world).2
    = 0.
Proof. split; vm_compute; reflexivity. Qed.

End IndexerFacts.

(** * Properties of the retriever *)

Module RetrievalFacts.

Import Legacy Retrieval Example.

(** The loop emits the entries of the first rows with new sources. *)
Lemma expand_loop_spec collection n rows : ∀ seen added expanded made,
  expand_loop collection n rows seen added expanded made =
  (expanded ++ (entry collection <$> first_sources (Z.to_nat (n - added)) seen rows),
   made ++ mjoin (fetches collection <$> first_sources (Z.to_nat (n - added)) seen rows)).
Proof.
  induction rows as [|row rest IH]; intros seen added expanded made.
  - simpl. by rewrite !app_nil_r.
  - simpl. case_bool_decide as Hstop.
    + replace (Z.to_nat (n - added)) with 0%nat by lia. simpl. by rewrite !app_nil_r.
    + destruct (Z.to_nat (n - added)) as [|k] eqn:Hk; [lia|].
      case_bool_decide as Hseen.
      * rewrite IH, Hk. done.
      * unfold entry, fetches.
        destruct (expand_entry collection row (source_of row)) as [e cs] eqn:He.
        case_bool_decide as Hfull.
        -- replace k with 0%nat by lia.
           destruct rest; simpl; rewrite He; simpl; by rewrite ?app_nil_r.
        -- rewrite IH. replace (Z.to_nat (n - (added + 1))) with k by lia.
           simpl. rewrite He. simpl. by rewrite <- !app_assoc.
Qed.

Lemma size_difference_cons (x : scalar) (X seen : gset scalar) :
  x ∉ seen → size (({[x]} ∪ X) ∖ seen) = S (size (X ∖ ({[x]} ∪ seen))).
Proof.
  intros Hx.
  assert (({[x]} ∪ X) ∖ seen = {[x]} ∪ X ∖ ({[x]} ∪ seen)) as ->.
  { apply set_eq. intros y.
    rewrite !elem_of_union, !elem_of_difference, !elem_of_union, !elem_of_singleton.
    destruct (decide (y = x)); naive_solver. }
  rewrite size_union by set_solver. by rewrite size_singleton.
Qed.

Lemma first_sources_length rows : ∀ n seen,
  length (first_sources n seen rows) =
  (n `min` size ((list_to_set (source_of <$> rows) : gset scalar) ∖ seen))%nat.
Proof.
  induction rows as [|row rest IH]; intros n seen.
  - simpl. rewrite difference_disjoint_L by set_solver. rewrite size_empty. lia.
  - simpl. destruct n as [|k]; [done|].
    case_bool_decide as Hseen.
    + rewrite IH. do 2 f_equal.
      apply set_eq. intros y.
      rewrite !elem_of_difference, elem_of_union, elem_of_singleton. naive_solver.
    + simpl. rewrite IH, size_difference_cons by done. done.
Qed.

Lemma first_sources_elem n seen rows row :
  row ∈ first_sources n seen rows → row ∈ rows ∧ source_of row ∉ seen.
Proof.
  revert n seen. induction rows as [|r rest IH]; intros n seen; simpl.
  - by intros ?%elem_of_nil.
  - destruct n as [|k]; [by intros ?%elem_of_nil|].
    case_bool_decide as Hseen.
    + intros [? ?]%IH. split; [by right|done].
    + intros [->|[? ?]%IH]%elem_of_cons.
      * split; [by left|done].
      * split; [by right|set_solver].
Qed.

Lemma first_sources_NoDup rows : ∀ n seen,
  NoDup (source_of <$> first_sources n seen rows).
Proof.
  induction rows as [|r rest IH]; intros n seen; simpl.
  - constructor.
  - destruct n as [|k]; [constructor|].
    case_bool_decide as Hseen; [apply IH|].
    simpl. constructor; [|apply IH].
    intros (row & Heq & Hin)%list_elem_of_fmap.
    apply first_sources_elem in Hin as [_ Hnot]. set_solver.
Qed.

Lemma first_sources_sublist rows : ∀ n seen, first_sources n seen rows `sublist_of` rows.
Proof.
  induction rows as [|row rest IH]; intros n seen; simpl; [done|].
  destruct n as [|k]; [apply sublist_nil_l|].
  case_bool_decide; [by apply sublist_cons|by apply sublist_skip].
Qed.

(** A full entry found for a source has that source. *)
Lemma get_full_entry_head collection source full others :
  get_full_entry collection source = Val (full :: others) →
  full ∈ items collection ∧
  item_metadata full !! "source" = Some source ∧
  item_metadata full !! "chunk_type" = Some (SStr "full_entry").
Proof.
  unfold get_full_entry. destruct (get_error _ _); [done|]. intros [= Hget].
  assert (full ∈ filter (λ it, is_full_entry_of source it) (items collection))
    as [Hfull Hin]%list_elem_of_filter by (rewrite Hget; left).
  unfold is_full_entry_of in Hfull.
  apply Is_true_true, andb_true_iff in Hfull as [Hs Ht].
  apply bool_decide_eq_true in Hs, Ht. done.
Qed.

Lemma source_of_entry collection row : source_of (entry collection row) = source_of row.
Proof.
  unfold entry, expand_entry. case_bool_decide; [|done].
  destruct (get_full_entry collection (source_of row)) as [[|full ?]|] eqn:Hget; try done.
  apply get_full_entry_head in Hget as (_ & Hs & _).
  unfold source_of at 1. simpl. by rewrite Hs.
Qed.

Lemma entry_has_source collection row :
  is_Some (row_metadata row !! "source") →
  is_Some (row_metadata (entry collection row) !! "source").
Proof.
  intros Hs. unfold entry, expand_entry. case_bool_decide; [|done].
  destruct (get_full_entry collection (source_of row)) as [[|full ?]|] eqn:Hget; try done.
  apply get_full_entry_head in Hget as (_ & Hs' & _). simpl. by rewrite Hs'.
Qed.

Lemma format_result_source row :
  is_Some (row_metadata row !! "source") → source (format_result row) = source_of row.
Proof. intros [s Hs]. unfold format_result, source_of. simpl. by rewrite Hs. Qed.

Lemma expand_context_for_results_spec collection results n :
  expand_context_for_results collection results n =
  (entry collection <$> first_sources (Z.to_nat n) ∅ results,
   mjoin (fetches collection <$> first_sources (Z.to_nat n) ∅ results)).
Proof.
  unfold expand_context_for_results. destruct results as [|row rest]; [done|].
  rewrite expand_loop_spec, Z.sub_0_r.
  pose proof (first_sources_length (row :: rest) (Z.to_nat n) ∅) as Hlen.
  revert Hlen. generalize (first_sources (Z.to_nat n) ∅ (row :: rest)).
  intros sel Hlen. rewrite !app_nil_l.
  case_bool_decide as Hover; [|done].
  unfold len in Hover. rewrite length_fmap in Hover.
  destruct sel as [|]; simpl in *; [|lia].
  unfold slice_to. destruct (0 <=? n); by rewrite take_nil.
Qed.

(** The final truncations leave a list of at most [n] results as it is. *)
Lemma truncate_short n (l : list Result) : len l ≤ n → truncate n l = l.
Proof.
  intros Hle. unfold truncate, len in *.
  rewrite (bool_decide_eq_false_2 (n < Z.of_nat (length l))) by lia.
  case_bool_decide; [|done].
  unfold slice_to. destruct (0 <=? n) eqn:Hn; [|lia].
  apply take_ge. lia.
Qed.

Lemma truncate_selected collection n rows :
  truncate n (format_result <$> (entry collection <$> first_sources (Z.to_nat n) ∅ rows)) =
  format_result <$> (entry collection <$> first_sources (Z.to_nat n) ∅ rows).
Proof.
  pose proof (first_sources_length rows (Z.to_nat n) ∅) as Hlen.
  revert Hlen. generalize (first_sources (Z.to_nat n) ∅ rows). intros sel Hlen.
  destruct (decide (0 ≤ n)) as [Hn|Hn].
  - apply truncate_short. unfold len. rewrite !length_fmap. lia.
  - destruct sel; [|simpl in Hlen; lia]. simpl. unfold truncate, slice_to.
    repeat case_bool_decide; destruct (0 <=? n); by rewrite ?take_nil.
Qed.

(** What a successful call has done. *)
Lemma perform_enhanced_rag_query_success r query_text n results made :
  perform_enhanced_rag_query r query_text n = ((Some results, None), made) →
  ∃ model collection query_embedding,
    is_initialized r = true ∧ embedding_model r = Some model ∧
    chroma_collection r = Some collection ∧
    Services.encode model [strip query_text] = Val query_embedding ∧
    query collection query_embedding (n * 2)
      = Val (candidates collection query_embedding n) ∧
    results = format_result <$> (entry collection <$>
                first_sources (Z.to_nat n) ∅ (candidates collection query_embedding n)) ∧
    made = [CallEncode [strip query_text]; CallQuery (n * 2)] ++
           mjoin (fetches collection <$>
                first_sources (Z.to_nat n) ∅ (candidates collection query_embedding n)).
Proof.
  unfold perform_enhanced_rag_query. intros H.
  destruct (is_initialized r); [|done].
  destruct (embedding_model r) as [model|]; [|done].
  destruct (chroma_collection r) as [collection|]; [|done].
  destruct (Services.encode model [strip query_text]) as [query_embedding|] eqn:Henc;
    [|done].
  destruct (query collection query_embedding (n * 2)) as [raw|] eqn:Hq; [|done].
  assert (raw = candidates collection query_embedding n) as ->.
  { unfold query in Hq. do 2 (case_bool_decide; [done|]).
    destruct (query_error collection); [done|]. by injection Hq as <-. }
  rewrite expand_context_for_results_spec, truncate_selected in H.
  exists model, collection, query_embedding. by simplify_eq.
Qed.

(** A call on initialized resources whose model and store answer. *)
Lemma perform_enhanced_rag_query_initialized model collection query_text n query_embedding :
  1 ≤ n → n * 2 < MAX_COUNT →
  Services.encode model [strip query_text] = Val query_embedding →
  query_error collection = None →
  perform_enhanced_rag_query (initialized model collection) query_text n =
    ((Some (format_result <$> (entry collection <$>
              first_sources (Z.to_nat n) ∅ (candidates collection query_embedding n))), None),
     [CallEncode [strip query_text]; CallQuery (n * 2)] ++
           mjoin (fetches collection <$>
                first_sources (Z.to_nat n) ∅ (candidates collection query_embedding n))).
Proof.
  intros Hn Hmax Henc Hq. unfold perform_enhanced_rag_query, initialized. simpl.
  rewrite Henc. unfold query. rewrite !bool_decide_eq_false_2 by lia. rewrite Hq.
  by rewrite expand_context_for_results_spec, truncate_selected.
Qed.

(** What the retriever counts: for every query text and every [k >= 1],
    a search on initialized resources whose model and store answer returns
    as many results as the minimum of [k] and the number of distinct
    sources among the [2k] nearest records, the only ones it fetches. *)
Lemma result_count model collection query_text k query_embedding :
  1 ≤ k → k * 2 < MAX_COUNT →
  Services.encode model [strip query_text] = Val query_embedding →
  query_error collection = None →
  ∃ results made,
    perform_enhanced_rag_query (initialized model collection) query_text k
      = ((Some results, None), made) ∧
    query collection query_embedding (k * 2)
      = Val (candidates collection query_embedding k) ∧
    length results =
      (Z.to_nat k `min` distinct_sources (candidates collection query_embedding k))%nat.
Proof.
  intros Hk Hmax Henc Hq. eexists _, _. split_and!.
  - by apply perform_enhanced_rag_query_initialized.
  - unfold query. rewrite !bool_decide_eq_false_2 by lia. by rewrite Hq.
  - rewrite !length_fmap, first_sources_length. unfold distinct_sources.
    by rewrite difference_empty_L.
Qed.

(** C1.  The store [crowded] holds five records of two sources: the four
    chunks of [a.md] rank before the chunk of [b.md].  A search for
    [k = 2] asks the store for its 4 nearest records, all of [a.md], and
    returns one result, although the candidates available in the store
    have two distinct sources: the length is 1, not
    [min(k, distinct sources)] = 2. *)
Theorem crowded_store_returns_one_result :
  row_id <$> ranked (collection_of crowded) [[0]]
    = ["a.md_0"; "a.md_1"; "a.md_2"; "a.md_3"; "b.md_0"] ∧
  source_of <$> ranked (collection_of crowded) [[0]]
    = [SStr "a.md"; SStr "a.md"; SStr "a.md"; SStr "a.md"; SStr "b.md"] ∧
  distinct_sources (ranked (collection_of crowded) [[0]]) = 2%nat ∧
  perform_enhanced_rag_query (initialized model (collection_of crowded))
      (literal "topic") 2
    = ((Some [ {| source := SStr "a.md"; date := SStr "Unknown date";
                  text := literal "a0"; distance := 0;
                  chunk_type := SStr "unknown";
                  context_note := "Excerpt from a.md" |} ], None),
       [CallEncode [literal "topic"]; CallQuery 4]) ∧
  (Z.to_nat 2 `min` distinct_sources (ranked (collection_of crowded) [[0%Z]]))%nat
    = 2%nat.
Proof. split_and!; vm_compute; reflexivity. Qed.

(** The rows of a query are records of the collection. *)
Lemma ranked_rows collection query_embedding row :
  row ∈ ranked collection query_embedding →
  ∃ it distance, it ∈ items collection ∧ row = row_of it distance.
Proof.
  unfold ranked. intros ([i d] & _ & Hrow)%list_elem_of_omap.
  destruct (items collection !! i) as [it|] eqn:Hit; [|done].
  injection Hrow as <-. exists it, d. split; [|done].
  by eapply list_elem_of_lookup_2.
Qed.

Lemma candidates_labelled collection query_embedding k row :
  labelled (items collection) →
  row ∈ candidates collection query_embedding k →
  is_Some (row_metadata row !! "source").
Proof.
  intros Hlab Hrow. unfold candidates in Hrow.
  apply (subseteq_take _ _ _) in Hrow.
  apply ranked_rows in Hrow as (it & d & Hit & ->). simpl. by apply Hlab.
Qed.

(** C4.  For every query and every [k], on a store in which every record
    has a [source] (every record that the indexer writes has one, see
    [indexed_records_have_source]), no two results of one search response
    have the same [source].  The results are the formatted entries of
    candidates picked in ranked order with pairwise different sources: a
    candidate whose source has been emitted is skipped, and the entry
    emitted for a candidate, expanded or not, has the source of the
    candidate.  The candidates are the [2k] nearest records for the
    embedding of the stripped query. *)
Theorem results_have_distinct_sources r query_text k results made :
  (∀ collection, chroma_collection r = Some collection → labelled (items collection)) →
  perform_enhanced_rag_query r query_text k = ((Some results, None), made) →
  NoDup (source <$> results) ∧
  ∃ model collection query_embedding picked,
    embedding_model r = Some model ∧ chroma_collection r = Some collection ∧
    Services.encode model [strip query_text] = Val query_embedding ∧
    picked `sublist_of` candidates collection query_embedding k ∧
    NoDup (source_of <$> picked) ∧
    results = format_result <$> (entry collection <$> picked) ∧
    source <$> results = source_of <$> picked.
Proof.
  intros Hlab (model & collection & query_embedding & _ & Hm & Hc & Henc & _ & -> & _)
    %perform_enhanced_rag_query_success.
  specialize (Hlab collection Hc).
  pose proof (first_sources_sublist (candidates collection query_embedding k)
                (Z.to_nat k) ∅) as Hsub.
  pose proof (first_sources_NoDup (candidates collection query_embedding k)
                (Z.to_nat k) ∅) as Hnd.
  revert Hsub Hnd.
  generalize (first_sources (Z.to_nat k) ∅ (candidates collection query_embedding k)).
  intros picked Hsub Hnd.
  assert (source <$> (format_result <$> (entry collection <$> picked))
          = source_of <$> picked) as Hsrc.
  { rewrite <- !list_fmap_compose. apply list_fmap_ext.
    intros _ row Hrow%list_elem_of_lookup_2. unfold compose.
    rewrite format_result_source; [apply source_of_entry|].
    apply entry_has_source. eapply candidates_labelled; [done|].
    by eapply elem_of_sublist. }
  split; [by rewrite Hsrc|].
  by exists model, collection, query_embedding, picked.
Qed.

Lemma crowded_labelled : labelled crowded.
Proof.
  intros it Hit. unfold crowded in Hit.
  repeat (apply elem_of_cons in Hit as [->|Hit]; [eexists; vm_compute; reflexivity|]).
  by apply elem_of_nil in Hit.
Qed.

(** The theorem at the store [crowded] with [k = 3]: two results, of
    [a.md] and of [b.md], from the first and the fifth record. *)
Lemma results_have_distinct_sources_witness :
  labelled crowded ∧
  ∃ results made,
    perform_enhanced_rag_query (initialized model (collection_of crowded))
        (literal "topic") 3
      = ((Some results, None), made) ∧
    source <$> results = [SStr "a.md"; SStr "b.md"] ∧
    NoDup (source <$> results).
Proof.
  pose proof crowded_labelled as Hlab.
  split; [exact Hlab|].
  eexists _, _. split; [vm_compute; reflexivity|]. split; [vm_compute; reflexivity|].
  eapply (results_have_distinct_sources
            (initialized model (collection_of crowded)) (literal "topic") 3).
  - intros collection [= <-]. exact Hlab.
  - vm_compute. reflexivity.
Defined.

(** The hypothesis on the store is needed.  The store [unlabelled], which
    the indexer cannot have written, holds a record without source and a
    record whose source is the text N/A; both are emitted (the retriever
    reads a missing source as the empty text), and both results carry the
    [source] field N/A. *)
Example unlabelled_store_shares_source :
  ∃ first second made,
    perform_enhanced_rag_query (initialized model (collection_of unlabelled))
        (literal "topic") 2
      = ((Some [first; second], None), made) ∧
    source first = source second.
Proof. eexists _, _, _. split; [vm_compute; reflexivity|]. vm_compute. reflexivity. Qed.

(** C3.  For every candidate that is processed (not skipped) whose
    [chunk_type] is [partial_entry], the retriever asks the store for the
    records with the same source and [chunk_type = "full_entry"].  If the
    store returns one, the emitted entry has the id, text and metadata of
    the first such record and the distance of the candidate; if it returns
    none, or the call raises, the emitted entry is the candidate itself.
    The store returns one whenever the call does not raise and such a
    record exists.  The entries of [expand_context_for_results] are those
    of the processed candidates, in order. *)
Theorem partial_entry_expansion collection row :
  row_metadata row !! "chunk_type" = Some (SStr "partial_entry") →
  fetches collection row = [CallGet (source_of row)] ∧
  match get_full_entry collection (source_of row) with
  | Val (full :: _) =>
      full ∈ items collection ∧
      item_metadata full !! "source" = Some (source_of row) ∧
      item_metadata full !! "chunk_type" = Some (SStr "full_entry") ∧
      entry collection row =
        {| row_id := item_id full; row_document := item_document full;
           row_metadata := item_metadata full; row_distance := row_distance row |}
  | Val [] => entry collection row = row
  | Raise _ => entry collection row = row
  end ∧
  (get_error collection (source_of row) = None →
   (∃ it, it ∈ items collection ∧ is_full_entry_of (source_of row) it) →
   ∃ full others, get_full_entry collection (source_of row) = Val (full :: others)) ∧
  (∀ rows n,
     expand_context_for_results collection rows n =
       (entry collection <$> first_sources (Z.to_nat n) ∅ rows,
        mjoin (fetches collection <$> first_sources (Z.to_nat n) ∅ rows))).
Proof.
  intros Hpartial. split_and!.
  - unfold fetches, expand_entry. rewrite bool_decide_eq_true_2 by done.
    by destruct (get_full_entry collection (source_of row)) as [[|? ?]|].
  - unfold entry, expand_entry. rewrite bool_decide_eq_true_2 by done.
    destruct (get_full_entry collection (source_of row)) as [[|full ?]|] eqn:Hget; try done.
    apply get_full_entry_head in Hget as (? & ? & ?). done.
  - intros Hok (it & Hin & Hfull). unfold get_full_entry. rewrite Hok.
    destruct (filter _ (items collection)) as [|full others] eqn:Hf; [|by eauto].
    assert (it ∈ filter (λ it, is_full_entry_of (source_of row) it) (items collection))
      as Hit by (by apply list_elem_of_filter).
    rewrite Hf in Hit. by apply elem_of_nil in Hit.
  - intros rows n. apply expand_context_for_results_spec.
Qed.

(** The theorem at the partial chunk of [b.md] in the store [expandable]:
    the full entry of [b.md] is emitted with the distance of the chunk. *)
Lemma partial_entry_expansion_witness :
  ∃ whole,
    ranked (collection_of expandable) [[0]] !! 0%nat = Some partial_row ∧
    items (collection_of expandable) !! 1%nat = Some whole ∧
    fetches (collection_of expandable) partial_row = [CallGet (SStr "b.md")] ∧
    entry (collection_of expandable) partial_row =
      {| row_id := item_id whole; row_document := item_document whole;
         row_metadata := item_metadata whole; row_distance := row_distance partial_row |}.
Proof.
  eexists. split; [reflexivity|]. split; [reflexivity|].
  pose proof (partial_entry_expansion (collection_of expandable) partial_row eq_refl)
    as (Hfetch & Hentry & _ & _).
  split; [exact Hfetch|]. apply Hentry.
Defined.

(** C9, amended.  Every result of a successful search is made from one
    emitted entry and carries: [source] (metadata [source], else N/A);
    [date] (metadata [date], else metadata [created], else the sentinel
    "Unknown date"); [text] and [distance] of the entry; [chunk_type]
    (metadata [chunk_type], else "unknown"); and a [context_note] that
    reads "Full entry from <source>" when [chunk_type] is "full_entry" and
    "Excerpt from <source>" otherwise. *)
Theorem result_fields r query_text k results made :
  perform_enhanced_rag_query r query_text k = ((Some results, None), made) →
  ∃ collection query_embedding,
    chroma_collection r = Some collection ∧
    let entries :=
      (expand_context_for_results collection
         (candidates collection query_embedding k) k).1 in
    length results = length entries ∧
    ∀ i res, results !! i = Some res →
      ∃ row, entries !! i = Some row ∧
        source res = default (SStr "N/A") (row_metadata row !! "source") ∧
        date res = resolved_date (row_metadata row) ∧
        text res = row_document row ∧
        distance res = row_distance row ∧
        chunk_type res = default (SStr "unknown") (row_metadata row !! "chunk_type") ∧
        context_note res =
          if bool_decide (chunk_type res = SStr "full_entry")
          then "Full entry from " +:+ str_scalar (source res)
          else "Excerpt from " +:+ str_scalar (source res).
Proof.
  intros (model & collection & query_embedding & _ & _ & Hc & _ & _ & -> & _)
    %perform_enhanced_rag_query_success.
  exists collection, query_embedding. split; [done|].
  rewrite expand_context_for_results_spec. simpl.
  split; [by rewrite length_fmap|].
  intros i res Hres. rewrite list_lookup_fmap in Hres.
  destruct ((entry collection <$> _) !! i) as [row|] eqn:Hrow; [|done].
  injection Hres as <-. exists row. split; [done|].
  unfold format_result, resolved_date. simpl.
  split_and!; done.
Qed.

(** The theorem at a search in the store [expandable]. *)
Lemma result_fields_witness :
  ∃ results made,
    perform_enhanced_rag_query (initialized model (collection_of expandable))
        (literal "topic") 1
      = ((Some results, None), made) ∧
    ∃ collection query_embedding,
      chroma_collection (initialized model (collection_of expandable)) = Some collection ∧
      let entries :=
        (expand_context_for_results collection
           (candidates collection query_embedding 1) 1).1 in
      length results = length entries ∧
      ∀ i res, results !! i = Some res →
        ∃ row, entries !! i = Some row ∧
          source res = default (SStr "N/A") (row_metadata row !! "source") ∧
          date res = resolved_date (row_metadata row) ∧
          text res = row_document row ∧
          distance res = row_distance row ∧
          chunk_type res = default (SStr "unknown") (row_metadata row !! "chunk_type") ∧
          context_note res =
            if bool_decide (chunk_type res = SStr "full_entry")
            then "Full entry from " +:+ str_scalar (source res)
            else "Excerpt from " +:+ str_scalar (source res).
Proof.
  eexists _, _. split; [vm_compute; reflexivity|].
  eapply (result_fields (initialized model (collection_of expandable)) (literal "topic") 1).
  vm_compute. reflexivity.
Defined.

(** A search in [expandable]: the full entry, with its date and note. *)
Example expanded_result :
  (perform_enhanced_rag_query (initialized model (collection_of expandable))
     (literal "topic") 1).1
  = (Some [ {| source := SStr "b.md"; date := SStr "2025-01-01";
               text := literal "whole entry"; distance := 0;
               chunk_type := SStr "full_entry";
               context_note := "Full entry from b.md" |} ], None).
Proof. vm_compute. reflexivity. Qed.

(** C9 as stated fails.  The first record of [crowded] has neither [date]
    nor [created]; the date of its result is the text "Unknown date", not
    "unknown". *)
Lemma date_sentinel_counterexample :
  ∃ res made,
    perform_enhanced_rag_query (initialized model (collection_of crowded))
        (literal "topic") 1
      = ((Some [res], None), made) ∧
    date res = SStr "Unknown date" ∧ date res ≠ SStr "unknown".
Proof. eexists _, _. split; [vm_compute; reflexivity|]. split; [reflexivity|discriminate]. Qed.

(** ** The [query_journal] tool *)

(** An empty or missing query is refused before any call is made. *)
Lemma empty_query_rejected r arguments :
  arguments !! "query" = Some (PStr []) ∨ arguments !! "query" = None →
  query_journal r arguments =
    (RpcError (-32602) "Invalid params: 'query' argument is missing or not a string.", []).
Proof. intros [Hq|Hq]; unfold query_journal; by rewrite Hq. Qed.

(** The command-line path [query_rag] refuses every query that is blank
    after stripping, without any call. *)
Lemma query_rag_rejects_blank collection embedding_model query_text n_results :
  strip query_text = [] →
  RagSearch.query_rag collection embedding_model query_text n_results = (None, []).
Proof.
  intros Hblank. unfold RagSearch.query_rag.
  destruct collection, embedding_model; try done.
  case_bool_decide; [done|]. by rewrite bool_decide_eq_true_2.
Qed.

(** The server does not: a query of whitespace that is not empty is
    stripped, the empty text is embedded and the store is queried. *)
Lemma blank_query_reaches_services model collection query_text k query_embedding :
  query_text ≠ [] → strip query_text = [] → 1 ≤ k → k * 2 < MAX_COUNT →
  Services.encode model [[]] = Val query_embedding →
  query_error collection = None →
  ∃ results made,
    query_journal (initialized model collection)
      {[ "query" := PStr query_text; "n_results" := PInt k ]}
      = (RpcResult (ResultsJson results),
         [CallEncode [[]]; CallQuery (k * 2)] ++ made).
Proof.
  intros Hne Hblank Hk Hmax Henc Hq. unfold query_journal.
  rewrite lookup_insert_eq. simpl default at 1.
  rewrite lookup_insert_ne, lookup_singleton_eq by done. simpl.
  rewrite bool_decide_eq_false_2 by done. simpl.
  rewrite bool_decide_eq_false_2 by lia.
  rewrite (perform_enhanced_rag_query_initialized model collection query_text k
             query_embedding) by (by rewrite ?Hblank).
  rewrite Hblank. eexists _, _. reflexivity.
Qed.

(** C6 fails on the query of one space with [k = 1]: the request is
    answered with a result, after the empty text has been embedded and the
    store has been queried for two candidates. *)
Theorem whitespace_query_is_searched :
  query_journal (initialized model (collection_of crowded))
    {[ "query" := PStr (literal " "); "n_results" := PInt 1 ]}
  = (RpcResult (ResultsJson
       [ {| source := SStr "a.md"; date := SStr "Unknown date"; text := literal "a0";
            distance := 0; chunk_type := SStr "unknown";
            context_note := "Excerpt from a.md" |} ]),
     [CallEncode [[]]; CallQuery 2]).
Proof. vm_compute. reflexivity. Qed.

End RetrievalFacts.

(** * Further properties of the chunker *)

Module SplitterFacts.

Import RagSearch Example TextSplitter Chunking Notions.

(** ** White space at the ends *)

Lemma lstrip_suffix s : lstrip s `suffix_of` s.
Proof.
  induction s as [|c s IH]; simpl; [done|].
  destruct (isspace c); [by apply suffix_cons_r|done].
Qed.

Lemma lstrip_head s c rest : lstrip s = c :: rest → isspace c = false.
Proof.
  induction s as [|d s IH]; simpl; [done|].
  destruct (isspace d) eqn:Hd; [done|]. by intros [= <- _].
Qed.

Lemma lstrip_fixed s :
  match s with c :: _ => isspace c = false | [] => True end → lstrip s = s.
Proof. destruct s as [|c s]; simpl; [done|]. by intros ->. Qed.

Lemma lstrip_idemp s : lstrip (lstrip s) = lstrip s.
Proof.
  apply lstrip_fixed. destruct (lstrip s) as [|c r] eqn:H; [done|].
  by eapply lstrip_head.
Qed.

Lemma strip_chars_length s : (length (strip_chars s) ≤ length s)%nat.
Proof.
  unfold strip_chars. rewrite length_reverse.
  etrans; [apply suffix_length, lstrip_suffix|].
  rewrite length_reverse. apply suffix_length, lstrip_suffix.
Qed.

Lemma strip_chars_idemp s : strip_chars (strip_chars s) = strip_chars s.
Proof.
  unfold strip_chars.
  set (a := lstrip s). set (b := lstrip (reverse a)).
  assert (Hy : lstrip (reverse b) = reverse b).
  { apply lstrip_fixed. destruct (reverse b) as [|c y] eqn:Hrev; [done|].
    destruct (lstrip_suffix (reverse a)) as [k Hk]. fold b in Hk.
    apply (f_equal reverse) in Hk. rewrite reverse_involutive, reverse_app, Hrev in Hk.
    apply (lstrip_head s c (y ++ reverse k)). by fold a. }
  rewrite Hy, reverse_involutive. f_equal. apply lstrip_idemp.
Qed.

Lemma strip_chars_excerpt s : excerpt (strip_chars s) s.
Proof.
  unfold strip_chars.
  destruct (lstrip_suffix s) as [k Hk].
  destruct (lstrip_suffix (reverse (lstrip s))) as [k' Hk'].
  apply (f_equal reverse) in Hk'. rewrite reverse_involutive, reverse_app in Hk'.
  exists k, (reverse k'). by rewrite <- Hk'.
Qed.

(** ** Excerpts *)

Lemma excerpt_trans {A} (a b c : list A) : excerpt a b → excerpt b c → excerpt a c.
Proof.
  intros (p1 & q1 & ->) (p2 & q2 & ->). exists (p2 ++ p1), (q1 ++ q2).
  by rewrite <- !(assoc_L (++)).
Qed.

Lemma excerpt_concat {A} (pre cur post : list (list A)) :
  excerpt (concat cur) (concat (pre ++ cur ++ post)).
Proof. exists (concat pre), (concat post). by rewrite !concat_app. Qed.

(** ** The pieces of a text *)

Lemma concat_filter_nonempty (l : list text) : concat (filter (λ p, p ≠ []) l) = concat l.
Proof.
  induction l as [|p l IH]; [done|].
  destruct p as [|c p].
  - rewrite filter_cons_False by (by intros ?). done.
  - rewrite filter_cons_True by done. simpl. by rewrite IH.
Qed.

Lemma re_split_nonempty separator : ∀ s skip cur, re_split separator skip cur s ≠ [].
Proof.
  induction s as [|c rest IH]; intros skip cur; simpl; [done|].
  destruct skip; [|apply IH]. case_bool_decide; [done|apply IH].
Qed.

(** The pieces between the separators, with the separators put back, are
    the text. *)
Lemma re_split_concat separator : separator ≠ [] → ∀ s skip cur,
  match re_split separator skip cur s with
  | first :: others => first ++ concat ((λ p, separator ++ p) <$> others)
  | [] => []
  end = reverse cur ++ drop skip s.
Proof.
  intros Hsep. induction s as [|c rest IH]; intros skip cur; simpl.
  - by rewrite drop_nil.
  - destruct skip as [|k]; [|apply IH].
    case_bool_decide as Hpre.
    + f_equal. destruct Hpre as [k Hk].
      destruct separator as [|d sep]; [done|]. simplify_eq/=.
      rewrite Nat.sub_0_r. specialize (IH (length sep) []).
      pose proof (re_split_nonempty (d :: sep) (sep ++ k) (length sep) []) as Hne.
      destruct (re_split (d :: sep) (length sep) [] (sep ++ k)) as [|first others];
        [done|].
      rewrite drop_app_length in IH. simpl in *. f_equal.
      by rewrite <- IH, <- (assoc_L (++)).
    + rewrite IH, reverse_cons. simpl. by rewrite <- (assoc_L (++)).
Qed.

Lemma split_text_with_regex_concat s separator :
  concat (_split_text_with_regex s separator) = s.
Proof.
  unfold _split_text_with_regex. rewrite concat_filter_nonempty.
  destruct separator as [|c sep].
  - induction s as [|d s IH]; simpl; [done|]. by f_equal.
  - pose proof (re_split_concat (c :: sep) ltac:(done) s 0 []) as H.
    change (reverse [] ++ drop 0 s) with s in H.
    by destruct (re_split (c :: sep) 0 [] s) as [|first others].
Qed.

Lemma split_characters chunk_size s :
  1 < chunk_size →
  Forall (λ p : text, p ≠ [] ∧ len p < chunk_size) (_split_text_with_regex s []).
Proof.
  intros Hsize. unfold _split_text_with_regex. apply Forall_forall. intros p Hp.
  apply list_elem_of_filter in Hp as [Hne Hp].
  apply list_elem_of_fmap in Hp as (c & -> & _). split; [done|].
  unfold len. simpl. lia.
Qed.

Lemma join_nil docs : join [] docs = concat docs.
Proof.
  destruct docs as [|d ds]; simpl; [done|]. f_equal.
  induction ds as [|x ds IH]; [done|]. simpl in *. by f_equal.
Qed.

Lemma len_concat_app (cur : list text) d :
  len (concat (cur ++ [d])) = len (concat cur) + len d.
Proof. unfold len. rewrite concat_app, length_app. simpl. rewrite app_nil_r. lia. Qed.

(** ** The merge of pieces into chunks *)

Section Merge.
Variables chunk_size chunk_overlap : Z.

Lemma join_docs_bounded docs doc :
  len (concat docs) ≤ chunk_size →
  _join_docs docs [] = Some doc → bounded chunk_size doc.
Proof.
  unfold _join_docs. rewrite join_nil. intros Hlen Hdoc.
  pose proof (strip_chars_length (concat docs)) as Hs.
  pose proof (strip_chars_idemp (concat docs)) as Hi.
  destruct (strip_chars (concat docs)) as [|c r] eqn:Hstrip; [done|].
  injection Hdoc as <-. unfold bounded. split_and!; [done|done|].
  unfold len in *. lia.
Qed.

Lemma join_docs_excerpt docs doc s :
  excerpt (concat docs) s → _join_docs docs [] = Some doc → excerpt doc s.
Proof.
  unfold _join_docs. rewrite join_nil. intros Hs Hdoc.
  pose proof (strip_chars_excerpt (concat docs)) as Hstrip.
  destruct (strip_chars (concat docs)) as [|c r]; [done|]. injection Hdoc as <-.
  by eapply excerpt_trans.
Qed.

(** After the inner loop [total] is still the length of the pieces kept,
    and the next piece fits or nothing is kept. *)
Lemma pop_front_total _len : ∀ cur total cur' total',
  total = len (concat cur) →
  pop_front chunk_size chunk_overlap 0 _len cur total = (cur', total') →
  total' = len (concat cur') ∧ (total' + _len ≤ chunk_size ∨ total' = 0).
Proof.
  induction cur as [|d cur IH]; intros total cur' total' Htotal; simpl.
  - subst total. simpl.
    destruct (_ || _); intros [= <- <-]; (split; [done|by right]).
  - destruct (bool_decide (chunk_overlap < total) || _) eqn:Hcond.
    + intros Hpop. eapply IH; [|exact Hpop].
      subst total. unfold len. simpl. rewrite length_app.
      destruct (bool_decide _); lia.
    + intros [= <- <-]. split; [done|].
      apply orb_false_iff in Hcond as [_ Hcond].
      apply andb_false_iff in Hcond as [Hc|Hc]; apply bool_decide_eq_false in Hc.
      * left. destruct (bool_decide (0 < len (d :: cur))); lia.
      * right. subst total. unfold len in *. lia.
Qed.

Lemma pop_front_suffix separator_len _len : ∀ cur total cur' total',
  pop_front chunk_size chunk_overlap separator_len _len cur total = (cur', total') →
  cur' `suffix_of` cur.
Proof.
  induction cur as [|d cur IH]; intros total cur' total'; simpl.
  - destruct (_ || _); by intros [= <- <-].
  - destruct (_ || _).
    + intros Hpop. apply suffix_cons_r. by eapply IH.
    + by intros [= <- <-].
Qed.

Lemma merge_loop_bounded splits : ∀ docs cur total,
  Forall (λ d, len d ≤ chunk_size) splits →
  Forall (bounded chunk_size) docs →
  total = len (concat cur) → total ≤ chunk_size →
  Forall (bounded chunk_size) (merge_loop chunk_size chunk_overlap [] splits docs cur total).
Proof.
  induction splits as [|d rest IH]; intros docs cur total Hsplits Hdocs Htotal Hle; simpl.
  - destruct (_join_docs cur []) as [doc|] eqn:Hdoc; [|done].
    apply Forall_app_2; [done|]. apply Forall_cons_2; [|done].
    eapply join_docs_bounded; [|done]. by subst.
  - apply Forall_cons_1 in Hsplits as [Hd Hrest].
    change (len []) with 0.
    assert (Hz : ∀ b : bool, (if b then 0 else 0) = 0) by (by intros []).
    rewrite !Hz, !Z.add_0_r.
    case_bool_decide as Hbig; [case_bool_decide as Hcur|].
    + destruct (pop_front chunk_size chunk_overlap 0 (len d) cur total)
        as [cur' total'] eqn:Hpop.
      apply pop_front_total in Hpop as [Htotal' Hfit]; [|done].
      rewrite ?Hz, ?Z.add_0_r.
      apply IH; [done| |by rewrite len_concat_app, Htotal'|lia].
      destruct (_join_docs cur []) as [doc|] eqn:Hdoc; [|done].
      apply Forall_app_2; [done|]. apply Forall_cons_2; [|done].
      eapply join_docs_bounded; [|done]. by subst.
    + rewrite ?Hz, ?Z.add_0_r.
      apply IH; [done|done|by rewrite len_concat_app, Htotal|].
      assert (cur = []) as -> by (destruct cur; [done|unfold len in Hcur; simpl in Hcur; lia]).
      subst total. simpl. unfold len at 1. simpl. lia.
    + rewrite ?Hz, ?Z.add_0_r.
      apply IH; [done|done|by rewrite len_concat_app, Htotal|lia].
Qed.

Lemma merge_loop_excerpt s splits : ∀ docs cur total pre post,
  s = concat (pre ++ cur ++ splits ++ post) →
  Forall (λ c, excerpt c s) docs →
  Forall (λ c, excerpt c s) (merge_loop chunk_size chunk_overlap [] splits docs cur total).
Proof.
  induction splits as [|d rest IH]; intros docs cur total pre post Hs Hdocs; simpl.
  - destruct (_join_docs cur []) as [doc|] eqn:Hdoc; [|done].
    apply Forall_app_2; [done|]. apply Forall_cons_2; [|done].
    eapply join_docs_excerpt; [|done]. rewrite Hs. apply excerpt_concat.
  - assert (Hcur : ∀ doc, _join_docs cur [] = Some doc → excerpt doc s).
    { intros doc. apply join_docs_excerpt. rewrite Hs. apply excerpt_concat. }
    case_bool_decide as Hbig; [case_bool_decide as Hne|].
    + destruct (pop_front chunk_size chunk_overlap (len []) (len d) cur total)
        as [cur' total'] eqn:Hpop.
      apply pop_front_suffix in Hpop as [k ->].
      apply (IH _ _ _ (pre ++ k) post).
      * rewrite Hs. f_equal. by rewrite <- !(assoc_L (++)).
      * destruct (_join_docs (k ++ cur') []) as [doc|] eqn:Hdoc; [|done].
        apply Forall_app_2; [done|]. apply Forall_cons_2; [by apply Hcur|done].
    + apply (IH _ _ _ pre post); [|done]. rewrite Hs. f_equal. by rewrite <- !(assoc_L (++)).
    + apply (IH _ _ _ pre post); [|done]. rewrite Hs. f_equal. by rewrite <- !(assoc_L (++)).
Qed.

Lemma merge_good_bounded good :
  Forall (λ d, len d ≤ chunk_size) good →
  Forall (bounded chunk_size)
    match good with [] => [] | _ => _merge_splits chunk_size chunk_overlap good [] end.
Proof.
  intros H. destruct good; [done|].
  apply merge_loop_bounded; [done|done|done|]. unfold len. simpl.
  apply Forall_cons_1 in H as [H _]. unfold len in H. lia.
Qed.

Lemma merge_good_excerpt s pre good post :
  s = concat (pre ++ good ++ post) →
  Forall (λ c, excerpt c s)
    match good with [] => [] | _ => _merge_splits chunk_size chunk_overlap good [] end.
Proof.
  intros Hs. destruct good as [|g good]; [done|].
  apply (merge_loop_excerpt s _ [] [] 0 pre post); done.
Qed.

(** ** The loop over the pieces *)

Lemma split_loop_bounded recurse splits : ∀ good,
  match recurse with
  | Some f => ∀ s, Forall (bounded chunk_size) (f s)
  | None => Forall (λ s, s ≠ [] ∧ len s < chunk_size) splits
  end →
  Forall (λ d, len d ≤ chunk_size) good →
  Forall (bounded chunk_size) (split_loop chunk_size chunk_overlap recurse splits good).
Proof.
  induction splits as [|s rest IH]; intros good Hrec Hgood; simpl.
  - by apply merge_good_bounded.
  - case_bool_decide as Hs.
    + apply IH.
      * destruct recurse; [done|]. by apply Forall_cons_1 in Hrec as [_ ?].
      * apply Forall_app_2; [done|]. apply Forall_cons_2; [lia|done].
    + apply Forall_app_2; [by apply merge_good_bounded|].
      apply Forall_app_2.
      * destruct recurse as [f|]; [apply Hrec|].
        apply Forall_cons_1 in Hrec as [[_ ?] _]. lia.
      * apply IH; [|done].
        destruct recurse; [done|]. by apply Forall_cons_1 in Hrec as [_ ?].
Qed.

Lemma split_loop_excerpt recurse s splits : ∀ pre good post,
  s = concat (pre ++ good ++ splits ++ post) →
  match recurse with
  | Some f => ∀ t, Forall (λ c, excerpt c t) (f t)
  | None => True
  end →
  Forall (λ c, excerpt c s) (split_loop chunk_size chunk_overlap recurse splits good).
Proof.
  induction splits as [|p rest IH]; intros pre good post Hs Hrec; simpl.
  - by apply (merge_good_excerpt s pre good post).
  - case_bool_decide.
    + apply (IH pre _ post); [|done]. rewrite Hs. f_equal. by rewrite <- !(assoc_L (++)).
    + assert (Hp : excerpt p s).
      { rewrite Hs. exists (concat (pre ++ good)), (concat (rest ++ post)).
        by rewrite (assoc_L (++) pre), concat_app. }
      apply Forall_app_2;
        [by apply (merge_good_excerpt s pre good (p :: rest ++ post))|].
      apply Forall_app_2.
      * destruct recurse as [f|]; [|apply Forall_cons_2; [exact Hp|apply Forall_nil_2]].
        eapply Forall_impl; [apply Hrec|]. intros c Hc. exact (excerpt_trans _ _ _ Hc Hp).
      * apply (IH (pre ++ good ++ [p]) [] post); [|done].
        rewrite Hs. f_equal. by rewrite <- !(assoc_L (++)).
Qed.

Lemma split_pieces_excerpt recurse s separator :
  match recurse with
  | Some f => ∀ t, Forall (λ c, excerpt c t) (f t)
  | None => True
  end →
  Forall (λ c, excerpt c s)
    (split_loop chunk_size chunk_overlap recurse (_split_text_with_regex s separator) []).
Proof.
  intros Hrec. apply (split_loop_excerpt recurse s _ [] [] []); [|done].
  simpl. by rewrite app_nil_r, split_text_with_regex_concat.
Qed.

(** ** The recursion over the separators *)

Lemma split_text_bounded seps : ∀ s,
  1 < chunk_size → last seps = Some [] →
  Forall (bounded chunk_size) (_split_text chunk_size chunk_overlap seps s).
Proof.
  induction seps as [|sep rest IH]; intros s Hsize Hlast; [done|].
  assert (Hrest : sep ≠ [] → rest ≠ [] ∧ last rest = Some []).
  { intros Hsep. destruct rest; [by simplify_eq/=|done]. }
  simpl. destruct sep as [|c sep].
  - apply split_loop_bounded; [by apply split_characters|done].
  - destruct Hrest as [Hne Hlast']; [done|].
    destruct rest as [|sep' rest]; [done|].
    destruct (contains _ _).
    + apply split_loop_bounded; [|done]. intros t. by apply IH.
    + by apply IH.
Qed.

Lemma split_text_excerpt seps : ∀ s,
  Forall (λ c, excerpt c s) (_split_text chunk_size chunk_overlap seps s).
Proof.
  induction seps as [|sep rest IH]; intros s; [done|].
  simpl. destruct sep as [|c sep]; [by apply split_pieces_excerpt|].
  destruct (contains _ _).
  - apply split_pieces_excerpt. by destruct rest.
  - destruct rest; [by apply split_pieces_excerpt|]. apply IH.
Qed.

End Merge.

Lemma split_docs_elem documents chunk :
  chunk ∈ split_docs documents →
  ∃ doc i, doc ∈ documents ∧
    split_text CHUNK_SIZE CHUNK_OVERLAP (content doc) !! i = Some (RagSearch.text chunk) ∧
    chunk = make_chunk doc i (RagSearch.text chunk).
Proof.
  intros (doc & Hchunk & Hdoc)%list_elem_of_bind.
  apply elem_of_lookup_imap in Hchunk as (i & t & -> & Ht).
  by exists doc, i.
Qed.

(** X1.  Every chunk that [split_docs] produces, whatever the documents
    contain, has a text that is not empty, has no white space (in the
    sense of [str.isspace]) at either end, and has at most CHUNK_SIZE
    characters (code points, as [len] counts them). *)
Theorem chunk_within_bounds documents chunk :
  chunk ∈ split_docs documents →
  RagSearch.text chunk ≠ [] ∧
  strip (RagSearch.text chunk) = RagSearch.text chunk ∧
  (length (RagSearch.text chunk) ≤ Z.to_nat CHUNK_SIZE)%nat.
Proof.
  intros (doc & i & _ & Hi & _)%split_docs_elem.
  apply list_elem_of_lookup_2 in Hi.
  pose proof (split_text_bounded CHUNK_SIZE CHUNK_OVERLAP separators
                (content doc) eq_refl eq_refl) as Hall.
  rewrite Forall_forall in Hall.
  destruct (Hall _ Hi) as (Hne & Hstrip & Hlen).
  split_and!; [done|done|]. unfold len in Hlen. lia.
Qed.

(** The theorem at the second chunk of [long_note], and at a body of 200
    euro signs: one chunk of 200 characters. *)
Lemma chunk_within_bounds_witness :
  (∃ first second, split_docs [long_note] = [first; second] ∧
     RagSearch.text second ≠ [] ∧
     strip (RagSearch.text second) = RagSearch.text second ∧
     (length (RagSearch.text second) ≤ Z.to_nat CHUNK_SIZE)%nat) ∧
  (∃ chunk, split_docs [euro_note] = [chunk] ∧
     RagSearch.text chunk = replicate 200 8364%N ∧
     (length (RagSearch.text chunk) ≤ Z.to_nat CHUNK_SIZE)%nat).
Proof.
  split.
  - eexists _, _. split; [vm_compute; reflexivity|].
    apply (chunk_within_bounds [long_note]).
    vm_compute. right. left.
  - eexists. split; [vm_compute; reflexivity|]. split; [vm_compute; reflexivity|].
    apply (chunk_within_bounds [euro_note]).
    vm_compute. left.
Defined.

(** White space beyond ASCII is cut as well: a body of a no-break space,
    a word and an ideographic space yields the word. *)
Example unicode_space_is_stripped :
  split_text CHUNK_SIZE CHUNK_OVERLAP ([160%N] ++ literal "word" ++ [12288%N])
    = [literal "word"].
Proof. vm_compute. reflexivity. Qed.

(** X2.  The text of every chunk is a contiguous excerpt of the body of
    one of the documents: the splitter drops characters between chunks
    and repeats some, but it never reorders, alters or invents text. *)
Theorem chunk_is_excerpt documents chunk :
  chunk ∈ split_docs documents →
  ∃ doc before after,
    doc ∈ documents ∧ content doc = before ++ RagSearch.text chunk ++ after.
Proof.
  intros (doc & i & Hdoc & Hi & _)%split_docs_elem.
  apply list_elem_of_lookup_2 in Hi.
  pose proof (split_text_excerpt CHUNK_SIZE CHUNK_OVERLAP separators
                (content doc)) as Hall.
  rewrite Forall_forall in Hall. destruct (Hall _ Hi) as (pre & post & Hs).
  by exists doc, pre, post.
Qed.

(** The theorem at the second chunk of [long_note]. *)
Lemma chunk_is_excerpt_witness :
  ∃ first second, split_docs [long_note] = [first; second] ∧
    ∃ doc before after,
      doc ∈ [long_note] ∧ content doc = before ++ RagSearch.text second ++ after.
Proof.
  eexists _, _. split; [vm_compute; reflexivity|].
  apply (chunk_is_excerpt [long_note]).
  vm_compute. right. left.
Defined.

(** ** Chunk ids *)

Lemma pretty_N_go_no_underscore x : ∀ s,
  no_underscore s → no_underscore (pretty_N_go x s).
Proof.
  induction (N.lt_wf_0 x) as [x _ IH]; intros s Hs.
  assert (x = 0 ∨ 0 < x)%N as [->|?] by lia.
  - by rewrite pretty_N_go_0.
  - rewrite pretty_N_go_step by done. apply IH; [by apply N.div_lt|].
    apply Forall_cons_2; [|done]. unfold pretty_N_char. by repeat case_match.
Qed.

Lemma pretty_nat_no_underscore (i : nat) : no_underscore (pretty i).
Proof.
  unfold pretty, pretty_nat, pretty, pretty_N. case_decide.
  - apply Forall_cons_2; [done|apply Forall_nil_2].
  - apply pretty_N_go_no_underscore, Forall_nil_2.
Qed.

Lemma no_underscore_app a b : ¬ no_underscore (a +:+ String "_" b).
Proof.
  induction a as [|c a IH]; simpl; intros H; apply Forall_cons_1 in H as [? ?]; [done|].
  by apply IH.
Qed.

(** The source and the index can be read back from a chunk id. *)
Lemma chunk_id_inj a : ∀ b (i j : nat),
  a +:+ "_" +:+ pretty i = b +:+ "_" +:+ pretty j → a = b ∧ i = j.
Proof.
  induction a as [|c a IH]; intros [|d b] i j; simpl.
  - intros [= H]. split; [done|]. by apply (inj pretty).
  - intros [= <- H]. pose proof (pretty_nat_no_underscore i) as Hi.
    assert (Heq : pretty i = b +:+ String "_" (pretty j)) by exact H.
    rewrite Heq in Hi. by apply no_underscore_app in Hi.
  - intros [= -> H]. pose proof (pretty_nat_no_underscore j) as Hj.
    assert (Heq : a +:+ String "_" (pretty i) = pretty j) by exact H.
    rewrite <- Heq in Hj. by apply no_underscore_app in Hj.
  - intros [= <- H]. by apply IH in H as [-> ->].
Qed.

Lemma split_doc_lookup doc i chunk :
  split_doc doc !! i = Some chunk →
  ∃ t, split_text CHUNK_SIZE CHUNK_OVERLAP (content doc) !! i = Some t ∧
       chunk = make_chunk doc i t.
Proof.
  unfold split_doc. rewrite list_lookup_imap.
  destruct (split_text _ _ _ !! i) as [t|]; [|done]. intros [= <-]. by exists t.
Qed.

Lemma split_doc_ids doc : NoDup (id <$> split_doc doc).
Proof.
  apply NoDup_alt. intros i j x. rewrite !list_lookup_fmap.
  destruct (split_doc doc !! i) as [ci|] eqn:Hi; [|done].
  destruct (split_doc doc !! j) as [cj|] eqn:Hj; [|done].
  apply split_doc_lookup in Hi as (ti & _ & ->).
  apply split_doc_lookup in Hj as (tj & _ & ->).
  simpl. intros [= <-] [= H]. symmetry. by apply chunk_id_inj in H as [_ ?].
Qed.

Lemma split_docs_id documents chunk :
  chunk ∈ split_docs documents →
  ∃ doc (i : nat), doc ∈ documents ∧ id chunk = source_label doc +:+ "_" +:+ pretty i.
Proof.
  intros (doc & i & Hdoc & _ & ->)%split_docs_elem. by exists doc, i.
Qed.

(** X3.  When the documents have pairwise different sources (as rendered
    in the chunk ids), all chunks that [split_docs] produces have pairwise
    different ids: no chunk overwrites another one of the same batch in
    the store. *)
Theorem chunk_ids_distinct documents :
  NoDup (source_label <$> documents) →
  NoDup (id <$> split_docs documents).
Proof.
  induction documents as [|doc documents IH]; [constructor|].
  rewrite fmap_cons, NoDup_cons. intros [Hdoc Hrest].
  change (split_docs (doc :: documents)) with (split_doc doc ++ split_docs documents).
  rewrite fmap_app. apply NoDup_app.
  split; [apply split_doc_ids|]. split; [|by apply IH].
  intros x (c1 & -> & H1)%list_elem_of_fmap (c2 & Hid & H2)%list_elem_of_fmap.
  apply list_elem_of_lookup_1 in H1 as [i H1].
  apply split_doc_lookup in H1 as (t & _ & ->).
  apply split_docs_id in H2 as (doc' & j & Hdoc' & Hid').
  rewrite Hid' in Hid. simpl in Hid. apply chunk_id_inj in Hid as [Hlabel _].
  apply Hdoc. apply list_elem_of_fmap. by exists doc'.
Qed.

(** The theorem at the documents [short_note] and [long_note]. *)
Lemma chunk_ids_distinct_witness :
  NoDup (id <$> split_docs [short_note; long_note]).
Proof.
  apply (chunk_ids_distinct [short_note; long_note]).
  vm_compute. apply NoDup_cons_2; [|apply NoDup_singleton].
  intros H. apply list_elem_of_singleton in H. discriminate H.
Defined.

(** X4.  The chunk at position [i] of a document has the id
    "<source>_<i>", where <source> is the [source] of the front matter
    ("unknown" when there is none); its metadata holds that id under
    [chunk_id] and [i] under [chunk_index], and agrees with the front
    matter of the document on every other key. *)
Theorem chunk_id_and_metadata doc i chunk :
  split_doc doc !! i = Some chunk →
  id chunk = source_label doc +:+ "_" +:+ pretty i ∧
  chunk_metadata chunk !! "chunk_id" = Some (VScalar (SStr (id chunk))) ∧
  chunk_metadata chunk !! "chunk_index" = Some (VScalar (SInt (Z.of_nat i))) ∧
  (∀ key, key ≠ "chunk_id" → key ≠ "chunk_index" →
     chunk_metadata chunk !! key = metadata doc !! key).
Proof.
  intros (t & _ & ->)%split_doc_lookup. simpl.
  split; [done|]. split; [by rewrite lookup_insert_eq|].
  split; [by rewrite lookup_insert_ne, lookup_insert_eq|].
  intros key ? ?. by rewrite !lookup_insert_ne.
Qed.

(** The theorem at the second chunk of [long_note]. *)
Lemma chunk_id_and_metadata_witness :
  ∃ chunk, split_doc long_note !! 1%nat = Some chunk ∧
  id chunk = "b.md_1" ∧
  chunk_metadata chunk !! "chunk_id" = Some (VScalar (SStr (id chunk))) ∧
  chunk_metadata chunk !! "chunk_index" = Some (VScalar (SInt 1)) ∧
  (∀ key, key ≠ "chunk_id" → key ≠ "chunk_index" →
     chunk_metadata chunk !! key = metadata long_note !! key).
Proof.
  eexists. split; [vm_compute; reflexivity|].
  apply (chunk_id_and_metadata long_note 1).
  vm_compute. reflexivity.
Defined.

End SplitterFacts.

(** * Further properties of loading and indexing *)

Module LoaderFacts.

Import RagSearch Selection Example IndexerFacts.

Lemma parsed_elem files doc :
  doc ∈ parsed files ↔
  ∃ f post, f ∈ files ∧ load f = Val post ∧ doc = with_source (rel_path f) post.
Proof.
  unfold parsed. rewrite list_elem_of_omap. split.
  - intros (f & Hf & Hdoc). destruct (load f) as [post|] eqn:Hload; [|done].
    injection Hdoc as <-. by exists f, post.
  - intros (f & post & Hf & Hload & ->). exists f. by rewrite Hload.
Qed.

Lemma with_source_spec path post :
  content (with_source path post) = content post ∧
  metadata (with_source path post) !! "source" =
    Some (default (VScalar (SStr path)) (metadata post !! "source")) ∧
  (∀ key, key ≠ "source" → metadata (with_source path post) !! key = metadata post !! key).
Proof.
  unfold with_source. destruct (metadata post !! "source") as [v|] eqn:Hsrc; simpl.
  - done.
  - split; [done|]. split; [by rewrite lookup_insert_eq|].
    intros key ?. by rewrite lookup_insert_ne.
Qed.

Lemma load_markdown_docs_parsed directory :
  RagSearch.load_markdown_docs directory =
  parsed (filter (λ f, is_markdown f) (files_of directory)).
Proof. destruct directory as [files|]; [apply (load_files_parsed files [])|done]. Qed.

Lemma sublist_parsed l1 l2 : l1 `sublist_of` l2 → parsed l1 `sublist_of` parsed l2.
Proof.
  induction 1 as [|f l1 l2 _ IH|f l1 l2 _ IH]; simpl; [done|..].
  - destruct (load f); [by apply sublist_skip|done].
  - destruct (load f); [by apply sublist_cons|done].
Qed.

Lemma filter_sublist_impl (P Q : File → Prop)
    `{!∀ f, Decision (P f)} `{!∀ f, Decision (Q f)} (files : list File) :
  (∀ f, P f → Q f) → filter P files `sublist_of` filter Q files.
Proof.
  intros HPQ. induction files as [|f files IH]; [done|].
  destruct (decide (P f)) as [HP|HP].
  - rewrite (filter_cons_True P), (filter_cons_True Q) by auto. by apply sublist_skip.
  - rewrite (filter_cons_False P) by done. destruct (decide (Q f)).
    + rewrite (filter_cons_True Q) by done. by apply sublist_cons.
    + by rewrite (filter_cons_False Q) by done.
Qed.

(** X5.  Every document that [load_markdown_docs] or
    [load_markdown_docs_since] returns comes from a markdown file of the
    directory that [frontmatter.load] could parse; it has that file's
    content, its [source] is the [source] of the front matter when there
    is one and the path of the file relative to the directory otherwise,
    and the rest of the front matter is left as it is. *)
Theorem loaded_document_source clock directory timestamp doc :
  doc ∈ RagSearch.load_markdown_docs directory ∨
  (∃ documents,
     Indexer.load_markdown_docs_since clock directory timestamp = Val documents ∧
     doc ∈ documents) →
  ∃ f post,
    f ∈ files_of directory ∧ is_markdown f ∧ load f = Val post ∧
    content doc = content post ∧
    metadata doc !! "source" =
      Some (default (VScalar (SStr (rel_path f))) (metadata post !! "source")) ∧
    (∀ key, key ≠ "source" → metadata doc !! key = metadata post !! key).
Proof.
  rewrite load_markdown_docs_parsed.
  intros [Hdoc|(documents & [_ ->]%load_markdown_docs_since_returns & Hdoc)];
    apply parsed_elem in Hdoc as (f & post & Hf & Hload & ->);
    apply list_elem_of_filter in Hf; exists f, post;
    pose proof (with_source_spec (rel_path f) post); naive_solver.
Qed.

(** The theorem at the first document of the sample journal, for the full
    load and for the incremental load since the timestamp 0. *)
Lemma loaded_document_source_witness :
  ∃ doc, RagSearch.load_markdown_docs (Some journal_files) !! 0%nat = Some doc ∧
  (∃ documents,
     Indexer.load_markdown_docs_since (Indexer.ctime journal_world)
       (Some journal_files) 0 = Val documents ∧ doc ∈ documents) ∧
  ∃ f post,
    f ∈ files_of (Some journal_files) ∧ is_markdown f ∧ load f = Val post ∧
    content doc = content post ∧
    metadata doc !! "source" =
      Some (default (VScalar (SStr (rel_path f))) (metadata post !! "source")) ∧
    (∀ key, key ≠ "source" → metadata doc !! key = metadata post !! key).
Proof.
  eexists. split; [vm_compute; reflexivity|].
  assert (∃ documents,
     Indexer.load_markdown_docs_since (Indexer.ctime journal_world)
       (Some journal_files) 0 = Val documents ∧
     with_source "2025/a.md" entry_a ∈ documents) as Hsince.
  { eexists. split; [vm_compute; reflexivity|]. left. }
  split; [exact Hsince|].
  apply (loaded_document_source (Indexer.ctime journal_world) (Some journal_files) 0).
  right. exact Hsince.
Defined.

Lemma filter_ext_elem (P Q : File → Prop)
    `{!∀ f, Decision (P f)} `{!∀ f, Decision (Q f)} (files : list File) :
  (∀ f, f ∈ files → P f ↔ Q f) → filter P files = filter Q files.
Proof.
  induction files as [|f files IH]; intros Hall; [done|].
  assert (filter P files = filter Q files) as IH'
    by (apply IH; intros g ?; apply Hall; by right).
  assert (P f ↔ Q f) as Hf by (apply Hall; left).
  destruct (decide (P f)) as [HP|HP].
  - rewrite (filter_cons_True P), (filter_cons_True Q) by tauto. by f_equal.
  - by rewrite (filter_cons_False P), (filter_cons_False Q) by tauto.
Qed.

Lemma modified_since_mono timestamp later f :
  timestamp ≤ later → modified_since later f → modified_since timestamp f.
Proof.
  unfold modified_since. destruct (getmtime f); [|done].
  rewrite !bool_decide_spec. lia.
Qed.


Lemma load_since_none clock directory timestamp :
  clock timestamp = Val () →
  (∀ f, f ∈ files_of directory → is_markdown f →
        ∃ mtime, getmtime f = Val mtime ∧ mtime ≤ timestamp) →
  Indexer.load_markdown_docs_since clock directory timestamp = Val [].
Proof.
  intros Hclock Hold.
  rewrite load_markdown_docs_since_examinable; [|done|].
  - f_equal. replace (filter _ (files_of directory)) with (@nil File); [done|].
    symmetry. apply elem_of_nil_inv. intros f [[Hmd Hmod] Hf]%list_elem_of_filter.
    destruct (Hold f Hf Hmd) as (mtime & Hm & Hle).
    unfold modified_since in Hmod. rewrite Hm in Hmod.
    apply bool_decide_unpack in Hmod. lia.
  - intros f Hf Hmd. destruct (Hold f Hf Hmd) as (mtime & Hm & _). by exists mtime.
Qed.

(** X6.  An incremental load returns when the modification time of every
    markdown file can be read and [time.ctime] takes the timestamp.  The
    documents it returns are a subsequence of the documents of a full
    load, in the same order; they are all of them when every markdown
    file is newer than the timestamp (as on a first run, with timestamp
    0); and a later timestamp selects a subsequence of what an earlier one
    selects. *)
Theorem incremental_load_within_full clock directory timestamp :
  (examinable (files_of directory) → clock timestamp = Val () →
   ∃ documents,
     Indexer.load_markdown_docs_since clock directory timestamp = Val documents) ∧
  (∀ documents,
     Indexer.load_markdown_docs_since clock directory timestamp = Val documents →
     documents `sublist_of` RagSearch.load_markdown_docs directory ∧
     ((∀ f mtime, f ∈ files_of directory → is_markdown f →
                  getmtime f = Val mtime → timestamp < mtime) →
      documents = RagSearch.load_markdown_docs directory) ∧
     (∀ later documents', timestamp ≤ later →
        Indexer.load_markdown_docs_since clock directory later = Val documents' →
        documents' `sublist_of` documents)).
Proof.
  split.
  { intros Hex Hclock. eexists. by apply load_markdown_docs_since_examinable. }
  intros documents [Hex ->]%load_markdown_docs_since_returns.
  rewrite load_markdown_docs_parsed. split_and!.
  - apply sublist_parsed, filter_sublist_impl. tauto.
  - intros Hall. f_equal. apply filter_ext_elem. intros f Hf.
    split; [tauto|]. intros Hmd. split; [done|].
    destruct (Hex f Hf Hmd) as [mtime Hm].
    unfold modified_since. rewrite Hm. apply bool_decide_pack. by eapply Hall.
  - intros later documents' Hlater [_ ->]%load_markdown_docs_since_returns.
    apply sublist_parsed, filter_sublist_impl. intros f [? ?].
    split; [done|]. by eapply modified_since_mono.
Qed.







End LoaderFacts.

Module StoreFacts.

Import RagSearch Notions Example IndexerFacts.

(** ** Upsert of one record *)

Lemma put_here it its : it ∈ put it its.
Proof.
  induction its as [|x its IH]; simpl; [left|].
  case_bool_decide; [left|by right].
Qed.

Lemma put_keeps it its x : x ∈ its → item_id x ≠ item_id it → x ∈ put it its.
Proof.
  induction its as [|y its IH]; simpl; [by intros ?%elem_of_nil|].
  intros [->|Hx]%elem_of_cons Hid.
  - rewrite bool_decide_eq_false_2 by done. left.
  - case_bool_decide; right; [done|by apply IH].
Qed.

Lemma put_inv it its x : x ∈ put it its → x = it ∨ x ∈ its.
Proof.
  induction its as [|y its IH]; simpl.
  - intros ->%list_elem_of_singleton. by left.
  - case_bool_decide.
    + intros [->|?]%elem_of_cons; [by left|right; by right].
    + intros [->|[->|?]%IH]%elem_of_cons; [right; left|by left|right; by right].
Qed.

Lemma put_ids it its :
  ids (put it its) =
  if bool_decide (item_id it ∈ ids its) then ids its else ids its ++ [item_id it].
Proof.
  induction its as [|x its IH]; [done|].
  cbn [put]. unfold ids in *. rewrite (fmap_cons item_id x its).
  destruct (decide (item_id x = item_id it)) as [Hx|Hx].
  - rewrite (bool_decide_eq_true_2 (item_id x = item_id it)) by done.
    rewrite fmap_cons, Hx. by rewrite bool_decide_eq_true_2 by left.
  - rewrite (bool_decide_eq_false_2 (item_id x = item_id it)) by done.
    rewrite fmap_cons, IH.
    destruct (decide (item_id it ∈ item_id <$> its)) as [Hin|Hin].
    + rewrite (bool_decide_eq_true_2 (item_id it ∈ item_id <$> its)) by done.
      by rewrite bool_decide_eq_true_2 by (by right).
    + rewrite (bool_decide_eq_false_2 (item_id it ∈ item_id <$> its)) by done.
      rewrite bool_decide_eq_false_2; [done|].
      intros [?|?]%elem_of_cons; [by apply Hx|done].
Qed.

Lemma put_NoDup it its : NoDup (ids its) → NoDup (ids (put it its)).
Proof.
  intros Hnd. rewrite put_ids. case_bool_decide as Hin; [done|].
  apply NoDup_app. split; [done|]. split; [|apply NoDup_singleton].
  intros x Hx ->%list_elem_of_singleton. done.
Qed.

Lemma put_present it its : NoDup (ids its) → it ∈ its → put it its = its.
Proof.
  unfold ids. induction its as [|x its IH]; simpl; [by intros _ ?%elem_of_nil|].
  intros [Hx Hnd]%NoDup_cons [->|Hit]%elem_of_cons.
  - by rewrite bool_decide_eq_true_2.
  - rewrite bool_decide_eq_false_2; [by rewrite IH|].
    intros Hid. apply Hx. rewrite Hid. apply list_elem_of_fmap. by exists it.
Qed.

(** ** Upsert of a batch *)

Lemma put_all_keeps batch : ∀ its x,
  x ∈ its → item_id x ∉ ids batch → x ∈ put_all its batch.
Proof.
  induction batch as [|it batch IH]; intros its x Hx Hid; simpl; [done|].
  apply IH.
  - apply put_keeps; [done|]. intros Heq. apply Hid. rewrite Heq. left.
  - intros ?. apply Hid. by right.
Qed.

Lemma put_all_batch batch : ∀ its it,
  NoDup (ids batch) → it ∈ batch → it ∈ put_all its batch.
Proof.
  induction batch as [|b batch IH]; intros its it Hnd Hit; simpl;
    [by apply elem_of_nil in Hit|].
  apply NoDup_cons in Hnd as [Hb Hnd].
  apply elem_of_cons in Hit as [->|Hit]; [|by apply IH].
  apply put_all_keeps; [apply put_here|done].
Qed.

Lemma put_all_inv batch : ∀ its x, x ∈ put_all its batch → x ∈ its ∨ x ∈ batch.
Proof.
  induction batch as [|b batch IH]; intros its x; simpl; [by left|].
  intros [[->|?]%put_inv|?]%IH; [right; left|by left|right; by right].
Qed.

Lemma put_all_NoDup batch : ∀ its, NoDup (ids its) → NoDup (ids (put_all its batch)).
Proof.
  induction batch as [|b batch IH]; intros its Hnd; simpl; [done|].
  by apply IH, put_NoDup.
Qed.

Lemma put_all_present batch : ∀ its,
  NoDup (ids its) → (∀ it, it ∈ batch → it ∈ its) → put_all its batch = its.
Proof.
  induction batch as [|b batch IH]; intros its Hnd Hall; simpl; [done|].
  rewrite put_present; [|done|apply Hall; left].
  apply IH; [done|]. intros it ?. apply Hall. by right.
Qed.

Lemma batch_ids chunks : ∀ embeddings,
  length embeddings = length chunks → ids (batch_of chunks embeddings) = id <$> chunks.
Proof.
  unfold ids, batch_of.
  induction chunks as [|c chunks IH]; intros [|e embeddings] Hlen; simplify_eq/=; [done|].
  f_equal. by apply IH.
Qed.

Lemma batch_lookup chunks embeddings i chunk e :
  chunks !! i = Some chunk → embeddings !! i = Some e →
  make_item chunk e ∈ batch_of chunks embeddings.
Proof.
  intros Hc He. apply (list_elem_of_lookup_2 _ i).
  unfold batch_of. rewrite lookup_zip_with, Hc. simpl. by rewrite He.
Qed.

Lemma batch_elem chunks embeddings it :
  it ∈ batch_of chunks embeddings →
  ∃ i chunk e, chunks !! i = Some chunk ∧ embeddings !! i = Some e ∧ it = make_item chunk e.
Proof.
  intros [i Hi]%list_elem_of_lookup_1. unfold batch_of in Hi.
  apply lookup_zip_with_Some in Hi as (chunk & e & -> & ? & ?). by exists i, chunk, e.
Qed.

(** ** [index_chunks] *)

Lemma index_chunks_stored collection chunks embedding_model s s' :
  RagSearch.index_chunks collection chunks embedding_model s = (true, s') →
  ∃ c m embeddings,
    collection = Some c ∧ embedding_model = Some m ∧ upsert_error c = None ∧
    chunks ≠ [] ∧ NoDup (id <$> chunks) ∧
    Services.encode m (RagSearch.text <$> chunks) = Val embeddings ∧
    length embeddings = length chunks ∧
    database s' = Val (with_items c (put_all (items c) (batch_of chunks embeddings))).
Proof.
  unfold RagSearch.index_chunks.
  destruct collection as [c|], chunks as [|chunk chunks], embedding_model as [m|];
    try done.
  destruct (Services.encode m _) as [embeddings|] eqn:Henc; [|done].
  case_bool_decide as Hlen; [|done].
  unfold upsert. case_bool_decide as Hids; [|done].
  destruct (upsert_error c) eqn:Herr; [done|].
  intros [= <-]. exists c, m, embeddings. split_and!; try done.
  by rewrite <- (batch_ids _ embeddings).
Qed.

(** Chunks among which an id occurs twice are refused by the store. *)
Lemma index_chunks_repeated_id c chunks m s :
  ¬ NoDup (id <$> chunks) →
  (RagSearch.index_chunks (Some c) chunks (Some m) s).1 = false.
Proof.
  intros Hdup. unfold RagSearch.index_chunks. destruct chunks as [|chunk chunks]; [done|].
  destruct (Services.encode m _) as [embeddings|] eqn:Henc; [|done].
  case_bool_decide as Hlen; [|done].
  unfold upsert. rewrite bool_decide_eq_false_2; [done|].
  change (item_id <$> ?l) with (ids l). fold (batch_of (chunk :: chunks) embeddings).
  by rewrite batch_ids.
Qed.

Lemma index_chunks_run c chunks m embeddings s :
  chunks ≠ [] → NoDup (id <$> chunks) → upsert_error c = None →
  Services.encode m (RagSearch.text <$> chunks) = Val embeddings →
  length embeddings = length chunks →
  RagSearch.index_chunks (Some c) chunks (Some m) s =
    (true, store (with_items c (put_all (items c) (batch_of chunks embeddings)))
             (log (CallUpsert (id <$> chunks))
                (log (CallEncode (RagSearch.text <$> chunks)) s))).
Proof.
  intros Hne Hnd Herr Henc Hlen. unfold RagSearch.index_chunks.
  destruct chunks as [|chunk chunks]; [done|].
  rewrite Henc, bool_decide_eq_true_2 by done.
  unfold upsert. rewrite bool_decide_eq_true_2, Herr; [done|].
  change (item_id <$> ?l) with (ids l). fold (batch_of (chunk :: chunks) embeddings).
  by rewrite batch_ids.
Qed.

(** X8.  After [index_chunks] has returned true, the chunks have
    pairwise different ids (the store refuses a batch with a repeated id)
    and the collection holds, for every chunk, the record made of its id,
    its text, its metadata and the embedding that the model returned at
    its position; every record that was in the collection under another
    id is still there (the chunks of an earlier, longer version of a file
    included); nothing else is there; and ids stay unique when they
    were. *)
Theorem indexed_chunks_are_stored c chunks m s s' :
  RagSearch.index_chunks (Some c) chunks (Some m) s = (true, s') →
  NoDup (id <$> chunks) ∧
  ∃ embeddings c',
    Services.encode m (RagSearch.text <$> chunks) = Val embeddings ∧
    database s' = Val c' ∧
    (∀ i chunk, chunks !! i = Some chunk →
       ∃ e, embeddings !! i = Some e ∧ make_item chunk e ∈ items c') ∧
    (∀ it, it ∈ items c → item_id it ∉ id <$> chunks → it ∈ items c') ∧
    (∀ it, it ∈ items c' →
       it ∈ items c ∨
       ∃ i chunk e, chunks !! i = Some chunk ∧ embeddings !! i = Some e ∧
                    it = make_item chunk e) ∧
    (NoDup (ids (items c)) → NoDup (ids (items c'))).
Proof.
  intros (c0 & m0 & embeddings & [= <-] & [= <-] & Herr & _ & Hnd & Henc & Hlen & Hdb)
    %index_chunks_stored.
  split; [done|].
  exists embeddings, (with_items c (put_all (items c) (batch_of chunks embeddings))).
  split; [done|]. split; [done|]. simpl. split_and!.
  - intros i chunk Hi.
    destruct (embeddings !! i) as [e|] eqn:He.
    + exists e. split; [done|]. apply put_all_batch; [by rewrite batch_ids|].
      by eapply batch_lookup.
    + apply lookup_ge_None in He. apply lookup_lt_Some in Hi. lia.
  - intros it Hit Hid. apply put_all_keeps; [done|]. by rewrite batch_ids.
  - intros it [?|?%batch_elem]%put_all_inv; [by left|by right].
  - apply put_all_NoDup.
Qed.

(** The theorem at the chunk of [short_note], indexed into the store
    [crowded]. *)
Lemma indexed_chunks_are_stored_witness :
  ∃ s',
    RagSearch.index_chunks (Some (collection_of crowded)) (split_docs [short_note])
      (Some model) (Indexer.services journal_world) = (true, s') ∧
  NoDup (id <$> split_docs [short_note]) ∧
  ∃ embeddings c',
    Services.encode model (RagSearch.text <$> split_docs [short_note]) = Val embeddings ∧
    database s' = Val c' ∧
    (∀ i chunk, split_docs [short_note] !! i = Some chunk →
       ∃ e, embeddings !! i = Some e ∧ make_item chunk e ∈ items c') ∧
    (∀ it, it ∈ items (collection_of crowded) →
       item_id it ∉ id <$> split_docs [short_note] → it ∈ items c') ∧
    (∀ it, it ∈ items c' →
       it ∈ items (collection_of crowded) ∨
       ∃ i chunk e, split_docs [short_note] !! i = Some chunk ∧
                    embeddings !! i = Some e ∧ it = make_item chunk e) ∧
    (NoDup (ids (items (collection_of crowded))) → NoDup (ids (items c'))).
Proof.
  eexists. split; [vm_compute; reflexivity|].
  apply (indexed_chunks_are_stored (collection_of crowded) (split_docs [short_note])
           model (Indexer.services journal_world)).
  vm_compute. reflexivity.
Defined.

(** X9.  Indexing the same chunks a second time changes nothing: when ids
    are unique in the collection, [index_chunks] returns true again and
    the collection is the one that the first call left. *)
Theorem reindexing_same_chunks_changes_nothing c chunks m s s1 c1 :
  NoDup (ids (items c)) →
  RagSearch.index_chunks (Some c) chunks (Some m) s = (true, s1) →
  database s1 = Val c1 →
  ∃ s2, RagSearch.index_chunks (Some c1) chunks (Some m) s1 = (true, s2) ∧
        database s2 = Val c1.
Proof.
  intros Hc Hrun Hdb.
  pose proof Hrun as
    (c0 & m0 & embeddings & [= <-] & [= <-] & Herr & Hne & Hnd & Henc & Hlen & Hdb')
    %index_chunks_stored.
  rewrite Hdb in Hdb'. injection Hdb' as ->.
  rewrite (index_chunks_run _ chunks m embeddings) by done.
  eexists. split; [reflexivity|]. simpl. f_equal.
  unfold with_items. simpl. f_equal.
  apply put_all_present; [by apply put_all_NoDup|].
  intros it Hit. apply put_all_batch; [by rewrite batch_ids|done].
Qed.

(** The theorem at the chunk of [short_note] and the empty store. *)
Lemma reindexing_same_chunks_changes_nothing_witness :
  ∃ s1 c1,
    RagSearch.index_chunks (Some (collection_of [])) (split_docs [short_note])
      (Some model) (Indexer.services journal_world) = (true, s1) ∧
    database s1 = Val c1 ∧
    ∃ s2, RagSearch.index_chunks (Some c1) (split_docs [short_note]) (Some model) s1
            = (true, s2) ∧
          database s2 = Val c1.
Proof.
  eexists _, _. split; [vm_compute; reflexivity|]. split; [reflexivity|].
  apply (reindexing_same_chunks_changes_nothing (collection_of [])
           (split_docs [short_note]) model (Indexer.services journal_world)).
  - apply NoDup_nil_2.
  - vm_compute. reflexivity.
  - reflexivity.
Defined.

End StoreFacts.

(** * Further properties of the index update *)

Module UpdateFacts.

Import RagSearch Indexer Selection Example Sample IndexerFacts LoaderFacts.

(** ** What a run leaves as it is *)

Lemma with_services_same w : with_services w (services w) = w.
Proof. by destruct w. Qed.

Lemma on_services_world {A} (c : State → Res A * State) w r w1 :
  on_services c w = (r, w1) → w1 = with_services w (services w1).
Proof. unfold on_services. destruct (c (services w)). by intros [= <- <-]. Qed.

Lemma prepare_world path m full_reindex w r w1 :
  prepare path m full_reindex w = (r, w1) → w1 = with_services w (services w1).
Proof.
  unfold prepare, bind, ret, pure.
  destruct (load_documents m full_reindex w) as [documents|];
    [|intros [= <- <-]; by rewrite with_services_same].
  destruct (negb full_reindex && bool_decide (documents = []));
    [intros [= <- <-]; by rewrite with_services_same|].
  destruct (split_docs m documents) as [chunks|];
    [|intros [= <- <-]; by rewrite with_services_same].
  destruct (bool_decide (chunks = []));
    [intros [= <- <-]; by rewrite with_services_same|].
  destruct (on_services _ w) as [[embed_model|] w2] eqn:H1;
    apply on_services_world in H1; [|intros [= <- <-]; by rewrite H1].
  destruct (on_services _ w2) as [[chroma_collection|] w3] eqn:H2;
    apply on_services_world in H2; [|intros [= <- <-]; rewrite H2, H1; by destruct w].
  destruct embed_model, chroma_collection; intros [= <- <-]; rewrite H2, H1; by destruct w.
Qed.

Lemma index_journal m p w r w1 :
  index m p w = (r, w1) →
  journal w1 = journal w ∧ time w1 = time w ∧ ctime_error w1 = ctime_error w.
Proof.
  unfold index, bind, ret, on_services. destruct p as [result|c chunks em n].
  - by intros [= <- <-].
  - destruct (index_chunks m _ _ _ _) as [[[]|] s]; [|by intros [= <- <-]..].
    unfold update_last_indexed_time. simpl.
    destruct (timestamp_write_error w) as [[?|? ?]|]; by intros [= <- <-].
Qed.

(** A run changes neither the journal nor the clock. *)
Lemma update_journal found full_reindex w :
  journal (JournalRag.update_journal_index found full_reindex w).2 = journal w ∧
  time (JournalRag.update_journal_index found full_reindex w).2 = time w ∧
  ctime_error (JournalRag.update_journal_index found full_reindex w).2 = ctime_error w.
Proof.
  unfold JournalRag.update_journal_index, Indexer.update_journal_index.
  destruct (import_from found JournalRag.imports) as [m|]; [|done].
  unfold bind.
  destruct (prepare _ m full_reindex w) as [[p|] w1] eqn:Hprep;
    pose proof (prepare_world _ _ _ _ _ _ Hprep) as Hw1.
  - destruct (index m p w1) as [[result|] w2] eqn:Hindex;
      apply index_journal in Hindex as (Hj & Ht & He); simpl;
      rewrite Hj, Ht, He, Hw1; done.
  - simpl. by rewrite Hw1.
Qed.

Lemma update_with_import found m full_reindex w :
  import_from found JournalRag.imports = Val m →
  JournalRag.update_journal_index found full_reindex w =
  match (let* p := prepare JournalRag.CHROMA_DB_PATH m full_reindex in index m p) w with
  | (Val result, w) => (result, w)
  | (Raise e, w) => ((false, "Error updating index: " +:+ e), w)
  end.
Proof.
  intros Himport. unfold JournalRag.update_journal_index, Indexer.update_journal_index.
  by rewrite Himport.
Qed.

Lemma run_without_chunks found m full_reindex w documents :
  import_from found JournalRag.imports = Val m →
  load_documents m full_reindex w = Val documents →
  (full_reindex = false ∧ documents = []) ∨ split_docs m documents = Val [] →
  JournalRag.update_journal_index found full_reindex w =
    ((true,
      if negb full_reindex && bool_decide (documents = [])
      then "No new or modified journal entries found."
      else "No chunks generated from " +:+ pretty (len documents) +:+ " files."), w).
Proof.
  intros Himport Hload Hnone. rewrite (update_with_import found m) by done.
  unfold prepare, bind, ret, pure. rewrite Hload.
  destruct (negb full_reindex && bool_decide (documents = [])) eqn:Hempty; [done|].
  destruct Hnone as [[-> ->]|Hsplit]; [done|]. by rewrite Hsplit.
Qed.

Lemma run_without_documents found m full_reindex w e :
  import_from found JournalRag.imports = Val m →
  load_documents m full_reindex w = Raise e →
  JournalRag.update_journal_index found full_reindex w =
    ((false, "Error updating index: " +:+ e), w).
Proof.
  intros Himport Hload. rewrite (update_with_import found m) by done.
  unfold prepare, bind, ret, pure. by rewrite Hload.
Qed.

(** X10.  A run that finds nothing to index (an incremental run without
    new or modified documents, or any run whose documents yield no chunk)
    reports success and changes nothing: no call to the model or to the
    store, and the watermark is not advanced.  A run whose loading raises
    (in an incremental run, [time.ctime] refusing the watermark or
    [os.path.getmtime] failing on a markdown file) reports failure with
    "Error updating index: " and the text of the exception, and changes
    nothing either. *)
Theorem run_without_chunks_changes_nothing found m full_reindex w :
  import_from found JournalRag.imports = Val m →
  match load_documents m full_reindex w with
  | Val documents =>
      (full_reindex = false ∧ documents = []) ∨ split_docs m documents = Val [] →
      JournalRag.update_journal_index found full_reindex w =
        ((true,
          if negb full_reindex && bool_decide (documents = [])
          then "No new or modified journal entries found."
          else "No chunks generated from " +:+ pretty (len documents) +:+ " files."), w)
  | Raise e =>
      JournalRag.update_journal_index found full_reindex w =
        ((false, "Error updating index: " +:+ e), w)
  end.
Proof.
  intros Himport.
  destruct (load_documents m full_reindex w) as [documents|e] eqn:Hload.
  - by apply (run_without_chunks found m).
  - by apply (run_without_documents found m).
Qed.

(** The theorem at the sample journal with a watermark newer than every
    file, and with a watermark that is no date. *)
Lemma run_without_chunks_changes_nothing_witness :
  JournalRag.update_journal_index (Some (rag_search "code/scripts/rag_search.py")) false
    (with_timestamp_file journal_world (Stamp 1000)) =
    ((true, "No new or modified journal entries found."),
     with_timestamp_file journal_world (Stamp 1000)) ∧
  JournalRag.update_journal_index (Some (rag_search "code/scripts/rag_search.py")) false
    far_future_world =
    ((false, "Error updating index: timestamp out of range for platform time_t"),
     far_future_world).
Proof.
  split.
  - pose proof (run_without_chunks_changes_nothing
                  (Some (rag_search "code/scripts/rag_search.py"))
                  (rag_search "code/scripts/rag_search.py") false
                  (with_timestamp_file journal_world (Stamp 1000)) eq_refl) as Hrun.
    change (load_documents (rag_search "code/scripts/rag_search.py") false
              (with_timestamp_file journal_world (Stamp 1000)))
      with (@Val (list Post) []) in Hrun.
    apply Hrun. left. split; reflexivity.
  - pose proof (run_without_chunks_changes_nothing
                  (Some (rag_search "code/scripts/rag_search.py"))
                  (rag_search "code/scripts/rag_search.py") false
                  far_future_world eq_refl) as Hrun.
    change (load_documents (rag_search "code/scripts/rag_search.py") false
              far_future_world)
      with (@Raise (list Post) "timestamp out of range for platform time_t") in Hrun.
    exact Hrun.
Defined.

(** X11.  When indexing has succeeded and the timestamp file cannot be
    written, the run still reports success, with the usual message.  If
    the failure comes before the file is open, the watermark stays as it
    was, so the next incremental run indexes the same files again.  If it
    comes after [open(..., 'w')] has emptied the file, the file holds
    what the failed write has left; an empty file reads as the watermark
    0, so the next incremental run takes every file. *)
Theorem failed_timestamp_write_is_not_reported
    found m full_reindex w chroma_collection chunks embed_model files_processed w1 s
    failure :
  import_from found JournalRag.imports = Val m →
  prepare JournalRag.CHROMA_DB_PATH m full_reindex w
    = (Val (ToIndex chroma_collection chunks embed_model files_processed), w1) →
  index_chunks m (Some chroma_collection) chunks (Some embed_model) (services w1)
    = (Val true, s) →
  timestamp_write_error w = Some failure →
  (JournalRag.update_journal_index found full_reindex w).1 =
    (true, "Successfully indexed " +:+ pretty (len chunks) +:+ " chunks from "
             +:+ pretty files_processed +:+ " files.") ∧
  timestamp_file (JournalRag.update_journal_index found full_reindex w).2
    = match failure with
      | BeforeOpen _ => timestamp_file w
      | AfterOpen _ remains => remains
      end ∧
  services (JournalRag.update_journal_index found full_reindex w).2 = s.
Proof.
  intros Himport Hprep Hindex Herr.
  assert (Hrun : JournalRag.update_journal_index found full_reindex w =
    ((true, "Successfully indexed " +:+ pretty (len chunks) +:+ " chunks from "
              +:+ pretty files_processed +:+ " files."),
     match failure with
     | BeforeOpen _ => with_services w s
     | AfterOpen _ remains => with_timestamp_file (with_services w s) remains
     end)).
  { rewrite (update_with_import found m) by done.
    pose proof (prepare_world _ _ _ _ _ _ Hprep) as Hw1.
    unfold bind at 1. rewrite Hprep. unfold index, bind, ret, on_services.
    rewrite Hindex. unfold update_last_indexed_time.
    rewrite Hw1. simpl. rewrite Herr. by destruct failure. }
  rewrite Hrun. by destruct failure.
Qed.

(** The theorem at a run on the sample journal whose timestamp file is
    read-only, and at a run on a disk without room. *)
Lemma failed_timestamp_write_is_not_reported_witness :
  (∃ message s,
    (JournalRag.update_journal_index (Some (rag_search "code/scripts/rag_search.py"))
       false read_only_world).1 = (true, message) ∧
    timestamp_file (JournalRag.update_journal_index
                      (Some (rag_search "code/scripts/rag_search.py")) false
                      read_only_world).2 = Stamp 200 ∧
    services (JournalRag.update_journal_index
                (Some (rag_search "code/scripts/rag_search.py")) false
                read_only_world).2 = s) ∧
  (∃ message s,
    (JournalRag.update_journal_index (Some (rag_search "code/scripts/rag_search.py"))
       false full_disk_world).1 = (true, message) ∧
    timestamp_file (JournalRag.update_journal_index
                      (Some (rag_search "code/scripts/rag_search.py")) false
                      full_disk_world).2 = Unreadable ∧
    services (JournalRag.update_journal_index
                (Some (rag_search "code/scripts/rag_search.py")) false
                full_disk_world).2 = s).
Proof.
  split.
  - eexists _, _.
    eapply (failed_timestamp_write_is_not_reported
              (Some (rag_search "code/scripts/rag_search.py"))
              (rag_search "code/scripts/rag_search.py") false read_only_world
              _ _ _ _ _ _ (BeforeOpen "read-only file system")).
    + reflexivity.
    + vm_compute. reflexivity.
    + vm_compute. reflexivity.
    + reflexivity.
  - eexists _, _.
    eapply (failed_timestamp_write_is_not_reported
              (Some (rag_search "code/scripts/rag_search.py"))
              (rag_search "code/scripts/rag_search.py") false full_disk_world
              _ _ _ _ _ _ (AfterOpen "no space left on device" Unreadable)).
    + reflexivity.
    + vm_compute. reflexivity.
    + vm_compute. reflexivity.
    + reflexivity.
Defined.

(** X12.  After a run that has written the watermark, an incremental run
    on the same journal finds nothing to do, as long as no markdown file
    has a modification time after the time of the first run (and every
    one has a modification time that can be read): it reports "No new or
    modified journal entries found." and changes nothing. *)
Theorem incremental_run_after_update_finds_nothing found m full_reindex w :
  import_from found JournalRag.imports = Val m →
  timestamp_file (JournalRag.update_journal_index found full_reindex w).2
    = Stamp (time w) →
  (∀ f, f ∈ files_of (journal w) → is_markdown f →
        ∃ mtime, getmtime f = Val mtime ∧ mtime ≤ time w) →
  JournalRag.update_journal_index found false
    (JournalRag.update_journal_index found full_reindex w).2 =
    ((true, "No new or modified journal entries found."),
     (JournalRag.update_journal_index found full_reindex w).2).
Proof.
  intros Himport Hstamp Hold.
  apply (run_without_chunks found m false _ []); [done| |by left].
  destruct (update_journal found full_reindex w) as (Hjournal & Htime & _).
  assert (ctime (JournalRag.update_journal_index found full_reindex w).2 (time w)
          = Val ()) as Hclock.
  { unfold ctime. rewrite Htime. rewrite bool_decide_eq_true_2; [done|by right]. }
  unfold load_documents, get_last_indexed_time. rewrite Hstamp, Hclock, Hjournal.
  by apply load_since_none.
Qed.

(** The theorem at two incremental runs on the sample journal. *)
Lemma incremental_run_after_update_finds_nothing_witness :
  JournalRag.update_journal_index (Some (rag_search "code/scripts/rag_search.py")) false
    (JournalRag.update_journal_index (Some (rag_search "code/scripts/rag_search.py"))
       false journal_world).2 =
    ((true, "No new or modified journal entries found."),
     (JournalRag.update_journal_index (Some (rag_search "code/scripts/rag_search.py"))
        false journal_world).2).
Proof.
  apply (incremental_run_after_update_finds_nothing
           (Some (rag_search "code/scripts/rag_search.py"))
           (rag_search "code/scripts/rag_search.py") false journal_world).
  - reflexivity.
  - vm_compute. reflexivity.
  - apply (Forall_forall (λ f, is_markdown f →
                               ∃ mtime, getmtime f = Val mtime ∧ mtime ≤ 500)).
    cbn. unfold journal_files.
    repeat (apply Forall_cons_2; [intros _; eexists; split; [reflexivity|lia]|]).
    apply Forall_nil_2.
Defined.

Lemma open_model file name w :
  on_services (initialize_embedding_model (rag_search file) name) w =
  (Val match Services.model (services w) with Val m => Some m | Raise _ => None end,
   with_services w (log (CallLoadModel name) (services w))).
Proof.
  unfold on_services. cbn. unfold RagSearch.initialize_embedding_model. cbn.
  by destruct (Services.model (services w)).
Qed.

Lemma open_store file path name w :
  on_services (initialize_vector_store (rag_search file) path name) w =
  (Val match database (services w) with Val c => Some c | Raise _ => None end,
   with_services w (log (CallOpenStore path name) (services w))).
Proof.
  unfold on_services. cbn. unfold RagSearch.initialize_vector_store. cbn.
  by destruct (database (services w)).
Qed.

(** X13.  When there are chunks to index and the embedding model cannot
    be loaded or the store cannot be opened, the run returns success
    false with "Failed to initialize embedding model or vector store.";
    both have been tried, in that order, nothing has been embedded or
    written, and the watermark is as before. *)
Theorem update_fails_when_services_cannot_be_opened file full_reindex w documents :
  load_documents (rag_search file) full_reindex w = Val documents →
  RagSearch.split_docs documents ≠ [] →
  (∃ e, Services.model (services w) = Raise e) ∨ (∃ e, database (services w) = Raise e) →
  JournalRag.update_journal_index (Some (rag_search file)) full_reindex w =
    ((false, "Failed to initialize embedding model or vector store."),
     with_services w
       (log (CallOpenStore JournalRag.CHROMA_DB_PATH CHROMA_COLLECTION_NAME)
          (log (CallLoadModel EMBEDDING_MODEL_NAME) (services w)))).
Proof.
  intros Hload Hchunks Hfail.
  rewrite (update_with_import (Some (rag_search file)) (rag_search file)) by done.
  unfold prepare, bind at 1 2, ret, pure. rewrite Hload.
  assert (documents ≠ []) as Hdocs by (by intros ->).
  rewrite (bool_decide_eq_false_2 (documents = [])), andb_false_r by done.
  cbn [split_docs rag_search]. unfold bind at 1 2.
  rewrite (bool_decide_eq_false_2 (RagSearch.split_docs documents = [])) by done.
  unfold bind. rewrite open_model, open_store. cbn.
  destruct (Services.model (services w)) as [em|] eqn:Hm,
    (database (services w)) as [c|] eqn:Hc; try done.
  by destruct Hfail as [[? ?]|[? ?]].
Qed.

(** The theorem at the sample journal without network. *)
Lemma update_fails_when_services_cannot_be_opened_witness :
  JournalRag.update_journal_index (Some (rag_search "code/scripts/rag_search.py")) false
      offline_world =
    ((false, "Failed to initialize embedding model or vector store."),
     with_services offline_world
       (log (CallOpenStore JournalRag.CHROMA_DB_PATH CHROMA_COLLECTION_NAME)
          (log (CallLoadModel EMBEDDING_MODEL_NAME) (services offline_world)))).
Proof.
  eapply (update_fails_when_services_cannot_be_opened "code/scripts/rag_search.py"
            false offline_world).
  - vm_compute. reflexivity.
  - vm_compute. discriminate.
  - left. eexists. reflexivity.
Defined.



(** ** The records that the indexer writes *)

Lemma loaded_documents_have_source file full_reindex w documents doc :
  load_documents (rag_search file) full_reindex w = Val documents →
  doc ∈ documents → is_Some (metadata doc !! "source").
Proof.
  intros Hload Hdoc.
  destruct (selection_by_watermark file w) as (Hfull & _ & Hsince & _).
  assert (documents = parsed (selected full_reindex w)) as ->.
  { destruct full_reindex; [congruence|]. by apply Hsince in Hload as (_ & _ & ->). }
  apply parsed_elem in Hdoc as (f & post & _ & _ & ->).
  destruct (with_source_spec (rel_path f) post) as (_ & -> & _). by eexists.
Qed.

Lemma load_markdown_docs_have_source directory doc :
  doc ∈ RagSearch.load_markdown_docs directory → is_Some (metadata doc !! "source").
Proof.
  rewrite load_markdown_docs_parsed. intros (f & post & _ & _ & ->)%parsed_elem.
  destruct (with_source_spec (rel_path f) post) as (_ & -> & _). by eexists.
Qed.

Lemma chunk_has_source documents chunk :
  (∀ doc, doc ∈ documents → is_Some (metadata doc !! "source")) →
  chunk ∈ RagSearch.split_docs documents →
  is_Some (process_metadata (chunk_metadata chunk) !! "source").
Proof.
  intros Hdocs (doc & i & Hdoc & _ & ->)%SplitterFacts.split_docs_elem.
  unfold process_metadata. rewrite lookup_fmap. simpl.
  rewrite !lookup_insert_ne by done. destruct (Hdocs doc Hdoc) as [v ->]. by eexists.
Qed.

(** Before it calls [index_chunks], a run has only loaded the model and
    opened the store. *)
Lemma prepare_database file full_reindex w r w1 :
  prepare JournalRag.CHROMA_DB_PATH (rag_search file) full_reindex w = (r, w1) →
  database (services w1) = database (services w) ∧
  (∀ c chunks em n, r = Val (ToIndex c chunks em n) →
     database (services w) = Val c ∧
     ∃ documents, load_documents (rag_search file) full_reindex w = Val documents ∧
                  chunks = RagSearch.split_docs documents).
Proof.
  unfold prepare, bind at 1 2, ret, pure.
  destruct (load_documents (rag_search file) full_reindex w) as [documents|e] eqn:Hload;
    [|by intros [= <- <-]].
  destruct (negb full_reindex && bool_decide (documents = []));
    [by intros [= <- <-]|].
  cbn [split_docs rag_search]. unfold bind at 1 2.
  destruct (bool_decide (RagSearch.split_docs documents = [])); [by intros [= <- <-]|].
  unfold bind. rewrite open_model, open_store. cbn.
  destruct (Services.model (services w)) as [em|],
    (database (services w)) as [c|] eqn:Hdb; intros [= <- <-]; cbn; split; try done.
  intros c' chunks em' n [= <- <- <- <-]. split; [done|]. by exists documents.
Qed.

(** A call of [index_chunks] that returns false leaves the store as it
    was. *)
Lemma index_chunks_false_database collection chunks embedding_model s s' :
  RagSearch.index_chunks collection chunks embedding_model s = (false, s') →
  database s' = database s.
Proof.
  unfold RagSearch.index_chunks.
  destruct collection as [c|], chunks as [|chunk chunks], embedding_model as [m|];
    try (by intros [= <-]).
  destruct (Services.encode m _) as [embeddings|]; [|by intros [= <-]].
  case_bool_decide; [|by intros [= <-]].
  destruct (upsert c _); [done|by intros [= <-]].
Qed.

(** [index_chunks], the only function that writes to the store, keeps a
    store in which every record has a [source] such a store when the
    chunks come from documents with a [source] (as in the main program of
    [rag_search.py], which indexes the chunks of [load_markdown_docs]). *)
Lemma index_chunks_labelled c documents m s s' c' :
  (∀ doc, doc ∈ documents → is_Some (metadata doc !! "source")) →
  Retrieval.labelled (items c) →
  RagSearch.index_chunks (Some c) (RagSearch.split_docs documents) (Some m) s
    = (true, s') →
  database s' = Val c' → Retrieval.labelled (items c').
Proof.
  intros Hdocs Hlab Hrun.
  apply StoreFacts.index_chunks_stored in Hrun
    as (c0 & m0 & embeddings & [= <-] & _ & _ & _ & _ & _ & _ & ->).
  intros [= <-] it. simpl.
  intros [Hit|(i & chunk & emb & Hchunk & _ & ->)%StoreFacts.batch_elem]
    %StoreFacts.put_all_inv.
  - by apply Hlab.
  - simpl. apply (chunk_has_source documents); [done|].
    by eapply list_elem_of_lookup_2.
Qed.

(** Every record that a run of the indexer writes has a [source]: both
    loaders give one to every document, [split_docs] copies the
    metadata of the document to each chunk, and [index_chunks] stores it.
    A store in which every record has a source stays such a store. *)
Lemma indexed_records_have_source file full_reindex w :
  (∀ c, database (services w) = Val c → Retrieval.labelled (items c)) →
  ∀ c', database
          (services (JournalRag.update_journal_index (Some (rag_search file))
                       full_reindex w).2) = Val c' →
        Retrieval.labelled (items c').
Proof.
  intros Hlab c'.
  rewrite (update_with_import (Some (rag_search file)) (rag_search file)) by done.
  unfold bind.
  destruct (prepare JournalRag.CHROMA_DB_PATH (rag_search file) full_reindex w)
    as [[p|e] w1] eqn:Hprep;
    apply prepare_database in Hprep as [Hdb Hindex]; simpl.
  2:{ rewrite Hdb. apply Hlab. }
  destruct p as [result|c chunks em n].
  { simpl. rewrite Hdb. apply Hlab. }
  destruct (Hindex c chunks em n eq_refl) as (Hc & documents & Hload & ->).
  unfold index, bind, on_services, ret.
  change (index_chunks (rag_search file) ?c ?chunks ?m ?s)
    with (let '(ok, s') := RagSearch.index_chunks c chunks m s in (Val ok, s')).
  destruct (RagSearch.index_chunks (Some c) (RagSearch.split_docs documents) (Some em)
              (services w1)) as [[] s] eqn:Hrun.
  - assert (services (update_last_indexed_time (with_services w1 s)).2 = s) as Hs.
    { unfold update_last_indexed_time. simpl.
      by destruct (timestamp_write_error w1) as [[?|? ?]|]. }
    destruct (update_last_indexed_time (with_services w1 s)) as [ok w2].
    simpl in Hs. simpl. rewrite Hs.
    apply (index_chunks_labelled c documents em (services w1) s);
      [|by apply Hlab|done].
    intros doc. by apply (loaded_documents_have_source file full_reindex w).
  - simpl. apply index_chunks_false_database in Hrun. rewrite Hrun, Hdb. apply Hlab.
Qed.

(** A journal indexed into an empty store gives a store in which every
    record has a source. *)
Example indexed_journal_is_labelled file c :
  database (services (JournalRag.update_journal_index (Some (rag_search file))
                        true journal_world).2) = Val c →
  items c ≠ [] ∧ Retrieval.labelled (items c).
Proof.
  intros Hc. split.
  - vm_compute in Hc. injection Hc as <-. done.
  - revert Hc. apply indexed_records_have_source.
    intros c0 [= <-] it Hit. by apply elem_of_nil in Hit.
Qed.

End UpdateFacts.

(** * Further properties of the queries and of the tools *)

Module QueryFacts.

Import Legacy Retrieval Server Notions Example RetrievalFacts.

Lemma fetches_partial collection row :
  fetches collection row =
  if bool_decide (is_partial row) then [CallGet (source_of row)] else [].
Proof.
  unfold fetches, expand_entry, is_partial. case_bool_decide; [|done].
  by destruct (get_full_entry collection (source_of row)) as [[|??]|].
Qed.

Lemma entry_not_partial collection row : ¬ is_partial row → entry collection row = row.
Proof.
  intros H. unfold entry, expand_entry. by rewrite bool_decide_eq_false_2.
Qed.

Lemma entry_distance collection row :
  row_distance (entry collection row) = row_distance row.
Proof.
  unfold entry, expand_entry. case_bool_decide; [|done].
  by destruct (get_full_entry collection (source_of row)) as [[|??]|].
Qed.

Lemma fetches_filter collection rows :
  mjoin (fetches collection <$> rows) =
  (λ row, CallGet (source_of row)) <$> filter is_partial rows.
Proof.
  induction rows as [|row rows IH]; [done|].
  change (mjoin (fetches collection <$> row :: rows))
    with (fetches collection row ++ mjoin (fetches collection <$> rows)).
  rewrite IH, fetches_partial.
  destruct (decide (is_partial row)).
  - rewrite bool_decide_eq_true_2, filter_cons_True by done. done.
  - rewrite bool_decide_eq_false_2, filter_cons_False by done. done.
Qed.

Lemma sublist_StronglySorted {A} (R : relation A) l1 l2 :
  l1 `sublist_of` l2 → StronglySorted R l2 → StronglySorted R l1.
Proof.
  induction 1 as [|x l1 l2 Hsub IH|x l1 l2 Hsub IH]; [done|..];
    intros [Hx Hl2]%StronglySorted_cons.
  - apply StronglySorted_cons. split; [|by apply IH].
    eapply Forall_forall. intros y Hy. rewrite Forall_forall in Hx.
    apply Hx. by eapply elem_of_sublist.
  - by apply IH.
Qed.

Lemma first_sources_NoDup_take rows : ∀ n seen,
  NoDup (source_of <$> rows) → (∀ row, row ∈ rows → source_of row ∉ seen) →
  first_sources n seen rows = take n rows.
Proof.
  induction rows as [|row rows IH]; intros n seen Hnd Hseen; [by destruct n|].
  destruct n as [|n]; [done|]. simpl.
  rewrite fmap_cons in Hnd. apply NoDup_cons in Hnd as [Hrow Hnd].
  rewrite bool_decide_eq_false_2 by (apply Hseen; left). f_equal.
  apply IH; [done|]. intros row' Hrow'.
  apply not_elem_of_union. split; [|apply Hseen; by right].
  intros Heq%elem_of_singleton. apply Hrow. rewrite <- Heq.
  apply list_elem_of_fmap. by exists row'.
Qed.

(** X15.  The results of the legacy query keep the ranking of the store:
    their distances are, in order, distances of candidates (also for an
    entry that was replaced by its full entry), so they ascend when the
    candidates' distances do; and the first result always stems from the
    nearest candidate. *)
Theorem results_keep_ranking r query_text k results made :
  perform_enhanced_rag_query r query_text k = ((Some results, None), made) →
  ∃ collection query_embedding,
    chroma_collection r = Some collection ∧
    distance <$> results
      `sublist_of` row_distance <$> candidates collection query_embedding k ∧
    (StronglySorted Z.le (row_distance <$> candidates collection query_embedding k) →
     StronglySorted Z.le (distance <$> results)) ∧
    (∀ nearest others, candidates collection query_embedding k = nearest :: others →
       ∃ rest, results = format_result (entry collection nearest) :: rest).
Proof.
  intros (model & collection & query_embedding & _ & _ & Hc & _ & Hq & -> & _)
    %perform_enhanced_rag_query_success.
  exists collection, query_embedding. split; [done|].
  assert (Hsub : distance <$> (format_result <$> (entry collection <$>
            first_sources (Z.to_nat k) ∅ (candidates collection query_embedding k)))
          `sublist_of` row_distance <$> candidates collection query_embedding k).
  { rewrite <- !list_fmap_compose.
    erewrite (list_fmap_ext _ row_distance); [|intros ? row _; apply entry_distance].
    apply fmap_sublist, first_sources_sublist. }
  split; [done|]. split; [by apply sublist_StronglySorted|].
  intros nearest others Hcand.
  unfold query in Hq. case_bool_decide as Hk; [done|].
  rewrite Hcand. destruct (Z.to_nat k) as [|n] eqn:Hn; [lia|].
  simpl. rewrite bool_decide_eq_false_2 by set_solver. simpl. by eexists.
Qed.

(** The theorem at a search for two results in the store [crowded]. *)
Lemma results_keep_ranking_witness :
  ∃ results made,
    perform_enhanced_rag_query (initialized model (collection_of crowded))
        (literal "topic") 2
      = ((Some results, None), made) ∧
    ∃ collection query_embedding,
      chroma_collection (initialized model (collection_of crowded)) = Some collection ∧
      distance <$> results
        `sublist_of` row_distance <$> candidates collection query_embedding 2 ∧
      (StronglySorted Z.le (row_distance <$> candidates collection query_embedding 2) →
       StronglySorted Z.le (distance <$> results)) ∧
      (∀ nearest others, candidates collection query_embedding 2 = nearest :: others →
         ∃ rest, results = format_result (entry collection nearest) :: rest).
Proof.
  eexists _, _. split; [vm_compute; reflexivity|].
  eapply (results_keep_ranking (initialized model (collection_of crowded))
            (literal "topic") 2).
  vm_compute. reflexivity.
Defined.

(** X16.  A legacy query that succeeds embeds the query once, queries the
    store once for [2k] candidates, and then asks the store for a full
    entry once for every selected candidate that is a partial chunk, in
    order, hence at most [k] times; when no candidate is a partial chunk
    it asks for none and returns the selected candidates as they are. *)
Theorem full_entry_lookups r query_text k results made :
  perform_enhanced_rag_query r query_text k = ((Some results, None), made) →
  ∃ collection query_embedding picked,
    chroma_collection r = Some collection ∧
    picked `sublist_of` candidates collection query_embedding k ∧
    results = format_result <$> (entry collection <$> picked) ∧
    made = [CallEncode [strip query_text]; CallQuery (k * 2)] ++
           ((λ row, CallGet (source_of row)) <$> filter is_partial picked) ∧
    (length (filter is_partial picked) ≤ Z.to_nat k)%nat ∧
    ((∀ row, row ∈ candidates collection query_embedding k → ¬ is_partial row) →
     results = format_result <$> picked ∧
     made = [CallEncode [strip query_text]; CallQuery (k * 2)]).
Proof.
  intros (model & collection & query_embedding & _ & _ & Hc & _ & Hq & -> & ->)
    %perform_enhanced_rag_query_success.
  exists collection, query_embedding,
    (first_sources (Z.to_nat k) ∅ (candidates collection query_embedding k)).
  split; [done|]. split; [apply first_sources_sublist|]. split; [done|].
  rewrite fetches_filter. split; [done|]. split.
  - etrans; [apply length_filter|]. rewrite first_sources_length. lia.
  - intros Hnone.
    assert (Hpicked : ∀ row,
      row ∈ first_sources (Z.to_nat k) ∅ (candidates collection query_embedding k) →
      ¬ is_partial row).
    { intros row [? _]%first_sources_elem. by apply Hnone. }
    revert Hpicked. generalize (first_sources (Z.to_nat k) ∅
      (candidates collection query_embedding k)). intros picked Hpicked.
    induction picked as [|row picked IH]; [done|].
    destruct IH as [IH1 IH2]; [intros ? ?; apply Hpicked; by right|].
    rewrite filter_cons_False by (apply Hpicked; left).
    split; [|done]. rewrite !fmap_cons, entry_not_partial by (apply Hpicked; left).
    by f_equal.
Qed.

(** The theorem at a search in the store [expandable]. *)
Lemma full_entry_lookups_witness :
  ∃ results made,
    perform_enhanced_rag_query (initialized model (collection_of expandable))
        (literal "topic") 1
      = ((Some results, None), made) ∧
    ∃ collection query_embedding picked,
      chroma_collection (initialized model (collection_of expandable)) = Some collection ∧
      picked `sublist_of` candidates collection query_embedding 1 ∧
      results = format_result <$> (entry collection <$> picked) ∧
      made = [CallEncode [strip (literal "topic")]; CallQuery (1 * 2)] ++
             ((λ row, CallGet (source_of row)) <$> filter is_partial picked) ∧
      (length (filter is_partial picked) ≤ Z.to_nat 1)%nat ∧
      ((∀ row, row ∈ candidates collection query_embedding 1 → ¬ is_partial row) →
       results = format_result <$> picked ∧
       made = [CallEncode [strip (literal "topic")]; CallQuery (1 * 2)]).
Proof.
  eexists _, _. split; [vm_compute; reflexivity|].
  eapply (full_entry_lookups (initialized model (collection_of expandable))
            (literal "topic") 1).
  vm_compute. reflexivity.
Defined.

(** X17.  [perform_enhanced_rag_query] returns results or an error
    message, never both and never neither.  Without initialized resources
    it returns "Resources not initialized" and calls nothing; when the
    model raises, the message of the exception is returned and the store
    is not queried; when the store's query raises, its message is
    returned. *)
Theorem query_failures r query_text k :
  let '((results, error), made) := perform_enhanced_rag_query r query_text k in
  (results = None ↔ error ≠ None) ∧
  (is_initialized r = false ∨ embedding_model r = None ∨ chroma_collection r = None →
   results = None ∧ error = Some "Resources not initialized" ∧ made = []) ∧
  (∀ model collection e,
     r = initialized model collection →
     Services.encode model [strip query_text] = Raise e →
     results = None ∧ error = Some e ∧ made = [CallEncode [strip query_text]]) ∧
  (∀ model collection query_embedding e,
     r = initialized model collection →
     Services.encode model [strip query_text] = Val query_embedding →
     query collection query_embedding (k * 2) = Raise e →
     results = None ∧ error = Some e ∧
     made = [CallEncode [strip query_text]; CallQuery (k * 2)]).
Proof.
  unfold perform_enhanced_rag_query.
  destruct (is_initialized r) eqn:Hi, (embedding_model r) as [m|] eqn:Hm,
    (chroma_collection r) as [c|] eqn:Hc;
    try (split_and!; [done|done|intros ??? ->; by simplify_eq/=
                     |intros ???? ->; by simplify_eq/=]).
  destruct (Services.encode m [strip query_text]) as [emb|] eqn:Henc;
    [destruct (query c emb (k * 2)) as [raw|] eqn:Hq;
       [destruct (expand_context_for_results c raw k) as [expanded c3]|]|];
    (split_and!;
       [done|naive_solver
       |intros ??? -> ?; simplify_eq/=; split_and!; congruence
       |intros ???? -> ? ?; simplify_eq/=; split_and!; congruence]).
Qed.

(** X18.  On candidates with pairwise different sources and no partial
    chunk, the legacy query and the plain query [perform_rag_query] return
    the same entries (source, text, distance): the [k] nearest records in
    the order of the store.  ([2k] is a count that the store takes.) *)
Theorem enhanced_query_agrees_with_plain model collection query_text k query_embedding :
  1 ≤ k → k * 2 < MAX_COUNT →
  Services.encode model [strip query_text] = Val query_embedding →
  query_error collection = None →
  NoDup (source_of <$> candidates collection query_embedding k) →
  (∀ row, row ∈ candidates collection query_embedding k → ¬ is_partial row) →
  ∃ results made,
    perform_enhanced_rag_query (initialized model collection) query_text k
      = ((Some results, None), made) ∧
    perform_rag_query (initialized model collection) query_text k
      = ((Some (as_hit <$> results), None), [CallEncode [strip query_text]; CallQuery k]) ∧
    as_hit <$> results = format_hit <$> take (Z.to_nat k) (ranked collection query_embedding).
Proof.
  intros Hk Hmax Henc Herr Hnd Hnone.
  rewrite (perform_enhanced_rag_query_initialized model collection query_text k
             query_embedding) by done.
  eexists _, _. split; [done|].
  rewrite first_sources_NoDup_take by (done || set_solver).
  assert (Hhits : as_hit <$> (format_result <$> (entry collection <$>
            take (Z.to_nat k) (candidates collection query_embedding k))) =
          format_hit <$> take (Z.to_nat k) (ranked collection query_embedding)).
  { rewrite <- !list_fmap_compose.
    trans (format_hit <$> take (Z.to_nat k) (candidates collection query_embedding k)).
    - apply list_fmap_ext. intros i row Hrow. simpl.
      rewrite entry_not_partial; [done|]. apply Hnone.
      apply list_elem_of_lookup_2 in Hrow.
      eapply elem_of_sublist; [done|apply sublist_take].
    - unfold candidates. rewrite take_take. do 2 f_equal. lia. }
  split; [|done]. rewrite Hhits.
  unfold perform_rag_query, initialized. simpl. rewrite Henc.
  unfold query. rewrite !bool_decide_eq_false_2 by lia. by rewrite Herr.
Qed.

(** The theorem at a search for one result in the store [unlabelled]. *)
Lemma enhanced_query_agrees_with_plain_witness :
  ∃ results made,
    perform_enhanced_rag_query (initialized model (collection_of unlabelled))
        (literal "topic") 1
      = ((Some results, None), made) ∧
    perform_rag_query (initialized model (collection_of unlabelled)) (literal "topic") 1
      = ((Some (as_hit <$> results), None),
         [CallEncode [strip (literal "topic")]; CallQuery 1]) ∧
    as_hit <$> results =
      format_hit <$> take (Z.to_nat 1) (ranked (collection_of unlabelled) [[0%Z]]).
Proof.
  apply (enhanced_query_agrees_with_plain model (collection_of unlabelled)
           (literal "topic") 1 [[0]]).
  - lia.
  - reflexivity.
  - reflexivity.
  - reflexivity.
  - vm_compute. apply NoDup_cons_2; [|apply NoDup_singleton].
    intros H. apply list_elem_of_singleton in H. discriminate H.
  - apply Forall_forall. vm_compute.
    repeat (apply Forall_cons_2; [discriminate|]). apply Forall_nil_2.
Defined.

(** X19.  The command-line query [query_rag] returns nothing and calls
    nothing when the collection or the model is missing or the query is
    blank after stripping (white space in the sense of [str.isspace], a
    no-break space included); when it returns rows, the stripped query
    has been embedded and the rows are the [n_results] nearest records of
    the collection, in the order of the store. *)
Theorem command_line_query collection embedding_model query_text n_results :
  let '(rows, made) :=
    RagSearch.query_rag collection embedding_model query_text n_results in
  (collection = None ∨ embedding_model = None ∨ strip query_text = [] →
   rows = None ∧ made = []) ∧
  (∀ found, rows = Some found →
     ∃ c m query_embedding,
       collection = Some c ∧ embedding_model = Some m ∧
       strip query_text ≠ [] ∧
       Services.encode m [strip query_text] = Val query_embedding ∧
       1 ≤ n_results < MAX_COUNT ∧
       found = take (Z.to_nat n_results) (ranked c query_embedding) ∧
       made = [CallEncode [strip query_text]; CallQuery n_results]).
Proof.
  unfold RagSearch.query_rag.
  destruct collection as [c|], embedding_model as [m|]; try (split; [done|done]).
  case_bool_decide as Hempty; [by split|].
  case_bool_decide as Hblank; [by split|].
  destruct (Services.encode m [strip query_text]) as [emb|] eqn:Henc;
    [|split; [naive_solver|done]].
  unfold query. case_bool_decide as Hn; [split; [naive_solver|done]|].
  case_bool_decide as Hmax; [split; [naive_solver|done]|].
  destruct (query_error c); [split; [naive_solver|done]|].
  split; [naive_solver|]. intros found [= <-]. exists c, m, emb.
  split_and!; try done; lia.
Qed.

(** The theorem at a query of one no-break space (U+00A0) and at the
    query "topic" for three rows of the store [crowded]. *)
Lemma command_line_query_witness :
  RagSearch.query_rag (Some (collection_of crowded)) (Some model) [160%N] 3
    = (None, []) ∧
  ∃ found,
    RagSearch.query_rag (Some (collection_of crowded)) (Some model) (literal "topic") 3
      = (Some found, [CallEncode [literal "topic"]; CallQuery 3]) ∧
    found = take 3 (ranked (collection_of crowded) [[0]]).
Proof.
  split.
  - pose proof (command_line_query (Some (collection_of crowded)) (Some model)
                  [160%N] 3) as Hquery.
    destruct (RagSearch.query_rag (Some (collection_of crowded)) (Some model)
                [160%N] 3) as [rows made].
    destruct Hquery as [Hblank _].
    destruct Hblank as [-> ->]; [right; right; reflexivity|reflexivity].
  - pose proof (command_line_query (Some (collection_of crowded)) (Some model)
                  (literal "topic") 3) as Hquery.
    assert (∃ rows,
              RagSearch.query_rag (Some (collection_of crowded)) (Some model)
                (literal "topic") 3
              = (Some rows, [CallEncode [literal "topic"]; CallQuery 3])) as [rows Hrun]
      by (eexists; vm_compute; reflexivity).
    rewrite Hrun in Hquery. destruct Hquery as [_ Hrows].
    destruct (Hrows rows eq_refl) as (c & m & emb & [= <-] & [= <-] & _ & Henc & _ & -> & _).
    injection Henc as <-.
    eexists. split; [exact Hrun|reflexivity].
Defined.

End QueryFacts.

Module ToolFacts.

Import Indexer Legacy Retrieval Server Example IndexerFacts.

(** X20.  In the legacy server the tool [update_index] can only fail:
    whatever its arguments, whenever the module found for [rag_search]
    lacks [create_semantic_chunks] (as [rag_search.py] of the repository
    does, wherever it is found) or no module is found, the answer is the
    error -32000 "Index update failed: Error importing from
    rag_search.py: " followed by the text of the import error, and
    nothing is touched. *)
Theorem legacy_update_index_always_fails r found arguments w :
  (∀ m, found = Some m → "create_semantic_chunks" ∉ names m) →
  ∃ e, import_from found Legacy.imports = Raise e ∧
       LegacyTools.call_tool r found (Some "update_index") arguments w =
         ((RpcError (-32000)
             ("Index update failed: Error importing from rag_search.py: " +:+ e),
           []), w).
Proof.
  intros Hmiss.
  destruct (import_missing_name found Legacy.imports "create_semantic_chunks")
    as [e He]; [set_solver|done|].
  exists e. split; [done|].
  unfold LegacyTools.call_tool.
  rewrite !(bool_decide_eq_false_2 (Some "update_index" = Some "query_journal")) by done.
  rewrite !(bool_decide_eq_true_2 (Some "update_index" = Some "update_index")) by done.
  unfold update_index, Legacy.update_journal_index, Indexer.update_journal_index.
  by rewrite He.
Qed.

(** The theorem at [rag_search.py] of the repository, found at some
    path, and without any module. *)
Lemma legacy_update_index_always_fails_witness :
  (∃ e, import_from (Some (rag_search ".tech/code/scripts/rag_search.py")) Legacy.imports
          = Raise e ∧
        LegacyTools.call_tool no_resources
            (Some (rag_search ".tech/code/scripts/rag_search.py"))
            (Some "update_index") ∅ journal_world =
          ((RpcError (-32000)
              ("Index update failed: Error importing from rag_search.py: " +:+ e),
            []), journal_world)) ∧
  (∃ e, import_from None Legacy.imports = Raise e ∧
        LegacyTools.call_tool no_resources None (Some "update_index") ∅ journal_world =
          ((RpcError (-32000)
              ("Index update failed: Error importing from rag_search.py: " +:+ e),
            []), journal_world)).
Proof.
  split.
  - apply (legacy_update_index_always_fails no_resources
             (Some (rag_search ".tech/code/scripts/rag_search.py")) ∅ journal_world).
    apply rag_search_lacks_create_semantic_chunks.
  - apply (legacy_update_index_always_fails no_resources None ∅ journal_world).
    intros m Hm. discriminate Hm.
Defined.

(** The text of the answer for the module of the repository found at
    [file]. *)
Example legacy_update_index_message r file arguments w :
  LegacyTools.call_tool r (Some (rag_search file)) (Some "update_index") arguments w =
    ((RpcError (-32000)
        ("Index update failed: Error importing from rag_search.py: cannot import name 'create_semantic_chunks' from 'rag_search' ("
           +:+ file +:+ ")"),
      []), w).
Proof.
  unfold LegacyTools.call_tool.
  rewrite !(bool_decide_eq_false_2 (Some "update_index" = Some "query_journal")) by done.
  rewrite !(bool_decide_eq_true_2 (Some "update_index" = Some "update_index")) by done.
  reflexivity.
Qed.

(** X21.  Both servers refuse a [query] argument that is missing, is not
    a string or is the empty string, with error -32602 and before any
    call to the model or the store. *)
Theorem invalid_query_is_rejected r arguments :
  (∀ query_text, arguments !! "query" = Some (PStr query_text) → query_text = []) →
  query_journal r arguments =
    (RpcError (-32602)
       "Invalid params: 'query' argument is missing or not a string.", []) ∧
  JournalRagTools.query_journal r arguments =
    (JournalRagTools.RpcError (-32602)
       "Invalid params: 'query' argument is missing or not a string.", []).
Proof.
  intros Hq. unfold query_journal, JournalRagTools.query_journal.
  destruct (arguments !! "query") as [[| | |s|]|]; try done.
  by rewrite (Hq s eq_refl).
Qed.

(** The theorem at a query that is a number. *)
Lemma invalid_query_is_rejected_witness :
  query_journal (initialized model (collection_of crowded)) {[ "query" := PInt 7 ]} =
    (RpcError (-32602)
       "Invalid params: 'query' argument is missing or not a string.", []) ∧
  JournalRagTools.query_journal (initialized model (collection_of crowded))
      {[ "query" := PInt 7 ]} =
    (JournalRagTools.RpcError (-32602)
       "Invalid params: 'query' argument is missing or not a string.", []).
Proof.
  apply (invalid_query_is_rejected (initialized model (collection_of crowded))
           {[ "query" := PInt 7 ]}).
  intros query_text H. vm_compute in H. discriminate H.
Defined.

(** X22.  For a valid query, both servers refuse every [n_results] that
    is given and is neither an integer of at least 1 nor [true] (a float
    such as 3.0, a string, null, [false], 0, a negative number) with
    error -32602 and before any call; [true] counts as 1; a missing
    [n_results] counts as 10 in the legacy server and as 3 in the current
    one. *)
Theorem n_results_validation r arguments query_text :
  arguments !! "query" = Some (PStr query_text) → query_text ≠ [] →
  (∀ v, arguments !! "n_results" = Some v →
     (∀ n, v = PInt n → n < 1) → v ≠ PBool true →
     query_journal r arguments =
       (RpcError (-32602)
          "Invalid params: 'n_results' must be a positive integer (default: 10).", []) ∧
     JournalRagTools.query_journal r arguments =
       (JournalRagTools.RpcError (-32602)
          "Invalid params: 'n_results' must be a positive integer (default: 3).", [])) ∧
  (arguments !! "n_results" = Some (PBool true) →
   query_journal r arguments = query_journal r (<["n_results" := PInt 1]> arguments) ∧
   JournalRagTools.query_journal r arguments =
     JournalRagTools.query_journal r (<["n_results" := PInt 1]> arguments)) ∧
  (arguments !! "n_results" = None →
   query_journal r arguments = query_journal r (<["n_results" := PInt 10]> arguments) ∧
   JournalRagTools.query_journal r arguments =
     JournalRagTools.query_journal r (<["n_results" := PInt 3]> arguments)).
Proof.
  intros Hq Hne. unfold query_journal, JournalRagTools.query_journal. split_and!.
  - intros v Hn Hint Hbool. rewrite Hq, Hn. simpl.
    rewrite bool_decide_eq_false_2 by done. simpl.
    destruct v as [|[]|n| |]; simpl; try done.
    by rewrite bool_decide_eq_true_2 by (by apply Hint).
  - intros Hn. rewrite Hn, !lookup_insert_eq, !lookup_insert_ne by done.
    split; reflexivity.
  - intros Hn. rewrite Hn, !lookup_insert_eq, !lookup_insert_ne by done.
    split; reflexivity.
Qed.

(** The theorem at a request for 2.5 results. *)
Lemma n_results_validation_witness :
  query_journal (initialized model (collection_of crowded))
    {[ "query" := PStr (literal "topic"); "n_results" := POther true ]} =
    (RpcError (-32602)
       "Invalid params: 'n_results' must be a positive integer (default: 10).", []) ∧
  JournalRagTools.query_journal (initialized model (collection_of crowded))
    {[ "query" := PStr (literal "topic"); "n_results" := POther true ]} =
    (JournalRagTools.RpcError (-32602)
       "Invalid params: 'n_results' must be a positive integer (default: 3).", []).
Proof.
  refine (proj1 (n_results_validation (initialized model (collection_of crowded))
                   {[ "query" := PStr (literal "topic"); "n_results" := POther true ]}
                   (literal "topic") _ _)
            (POther true) _ _ _);
    [reflexivity|discriminate|reflexivity|discriminate|discriminate].
Defined.

(** X23.  When the query function fails with the message [e], both
    servers answer with error -32000 "Query execution failed: <e>",
    unless [e] is empty: then the legacy server answers with an internal
    server error (it takes the length of the missing results) and the
    current server answers with the result "null". *)
Theorem failed_query_response r arguments query_text n e :
  arguments !! "query" = Some (PStr query_text) → query_text ≠ [] →
  arguments !! "n_results" = Some (PInt n) → 1 ≤ n →
  (∀ made, perform_enhanced_rag_query r query_text n = ((None, Some e), made) →
     query_journal r arguments =
       (RpcError (-32000)
          (if bool_decide (e = "")
           then "Internal server error: object of type 'NoneType' has no len()"
           else "Query execution failed: " +:+ e), made)) ∧
  (∀ made, perform_rag_query r query_text n = ((None, Some e), made) →
     JournalRagTools.query_journal r arguments =
       (if bool_decide (e = "")
        then JournalRagTools.RpcResult JournalRagTools.NullJson
        else JournalRagTools.RpcError (-32000) ("Query execution failed: " +:+ e), made)).
Proof.
  intros Hq Hne Hn Hpos.
  unfold query_journal, JournalRagTools.query_journal. rewrite Hq, Hn. simpl.
  rewrite bool_decide_eq_false_2 by done. simpl.
  rewrite bool_decide_eq_false_2 by lia.
  split; intros made ->; by destruct e.
Qed.

(** The theorem at a request to a server without resources. *)
Lemma failed_query_response_witness :
  (∀ made, perform_enhanced_rag_query no_resources (literal "topic") 2
             = ((None, Some "Resources not initialized"), made) →
     query_journal no_resources {[ "query" := PStr (literal "topic"); "n_results" := PInt 2 ]} =
       (RpcError (-32000)
          (if bool_decide ("Resources not initialized" = "")
           then "Internal server error: object of type 'NoneType' has no len()"
           else "Query execution failed: " +:+ "Resources not initialized"), made)) ∧
  (∀ made, perform_rag_query no_resources (literal "topic") 2
             = ((None, Some "Resources not initialized"), made) →
     JournalRagTools.query_journal no_resources
         {[ "query" := PStr (literal "topic"); "n_results" := PInt 2 ]} =
       (if bool_decide ("Resources not initialized" = "")
        then JournalRagTools.RpcResult JournalRagTools.NullJson
        else JournalRagTools.RpcError (-32000)
               ("Query execution failed: " +:+ "Resources not initialized"), made)).
Proof.
  apply (failed_query_response no_resources
           {[ "query" := PStr (literal "topic"); "n_results" := PInt 2 ]}
           (literal "topic") 2 "Resources not initialized");
    [reflexivity|discriminate|reflexivity|lia].
Defined.

(** X24.  [initialize_resources], called on the initial globals, returns
    true exactly when the resources are marked initialized afterwards,
    and exactly when the model could be loaded, the directory of the
    store exists or could be created, and the collection could be
    opened; the resources are then that model and that collection, a
    second call returns true without calling anything, and every plain
    query reaches the model. *)
Theorem resources_after_initialization path disk s :
  let '((ok, r), s') := initialize_resources path disk no_resources s in
  (ok = true ↔ is_initialized r = true) ∧
  (ok = true ↔
     (∃ m c, Services.model s = Val m ∧ database s = Val c ∧ r = initialized m c) ∧
     (path_exists disk = true ∨ makedirs_error disk = None)) ∧
  (ok = true → initialize_resources path disk r s' = ((true, r), s')) ∧
  (ok = true → ∀ query_text n, ∃ rest,
     (perform_rag_query r query_text n).2 = CallEncode [strip query_text] :: rest).
Proof.
  unfold initialize_resources, no_resources. simpl.
  destruct (Services.model s) as [m|] eqn:Hm; [|split_and!; naive_solver].
  destruct (path_exists disk) eqn:Hp, (makedirs_error disk) as [e|] eqn:He;
    destruct (database s) as [c|] eqn:Hc; simpl.
  all: split_and!; try (unfold initialized; naive_solver).
  all: intros _ query_text k; unfold perform_rag_query; simpl.
  all: destruct (Services.encode m _); [destruct (query c _ _)|]; simpl; by eexists.
Qed.

End ToolFacts.

Module TruncationFacts.

Import Legacy Retrieval RetrievalFacts.

(** X25.  The loop of [expand_context_for_results] never yields more than
    [n_results] entries, so none of the truncations that follow it ever
    removes a result: the emergency truncation of
    [expand_context_for_results], the final truncations of
    [perform_enhanced_rag_query] and the forced truncation of the
    [query_journal] tool all leave the list as the loop built it. *)
Theorem truncations_never_cut collection rows n :
  let '(entries, made) := expand_loop collection n rows ∅ 0 [] [] in
  (length entries ≤ Z.to_nat n)%nat ∧
  expand_context_for_results collection rows n = (entries, made) ∧
  truncate n (format_result <$> entries) = format_result <$> entries ∧
  (1 ≤ n →
   (if bool_decide (len (format_result <$> entries) ≠ n)
    then slice_to n (format_result <$> entries)
    else format_result <$> entries) = format_result <$> entries).
Proof.
  rewrite expand_loop_spec, Z.sub_0_r, !app_nil_l.
  pose proof (first_sources_length rows (Z.to_nat n) ∅) as Hlen.
  split_and!.
  - rewrite length_fmap. lia.
  - apply expand_context_for_results_spec.
  - apply truncate_selected.
  - intros Hn. case_bool_decide; [|done].
    unfold slice_to. destruct (0 <=? n) eqn:Hpos; [|lia].
    apply take_ge. rewrite !length_fmap. lia.
Qed.

End TruncationFacts.
